(** * bichon / batm: local tetrahedral-mesh editors and the AdaMesh rounding

    A shallow embedding of [src/batm/tetra_utils.cpp] (the prism-shell coupled
    editors [split_edge], [collapse_edge], [swap_edge], [swap_face],
    [smooth_vertex], the connectivity rewrite and the sanity checker) and of
    [src/batm/AdaMesh_smooth.cpp] ([AdaMesh::round], [AdaMesh::is_invert],
    [AdaMesh::quality]).

    Conventions of the embedding.
    - [double] is Rocq's primitive binary64 [float]; [int] and [size_t] are [Z]
      (the indices involved never wrap, the one unsigned subtraction of the
      link condition is kept in [Z] so that [0 - 1] differs from every size).
    - [std::vector<T>] is [list T].  Reading or writing outside a vector, and
      [pop_back] on an empty vector, are undefined in C++; the embedding is
      total there ([zth] yields a default, [zset] and [removelast] do nothing).
    - [assert] is compiled out (NDEBUG); [require] and [abort_and_debug] throw
      in every build and are kept as the [Thrown] outcome.
    - Collaborators that do not live in these files (robust predicates, AMIPS
      energy, the shell oracle, spatial hash, libigl) are fields of the
      classes [SpatialHash], [Collaborators] and [AdaMesh.TetMesh]. *)

From Stdlib Require Import String.
From Stdlib Require Import ZArith List Sorted Bool Lia Floats QArith.
Import ListNotations.
Local Open Scope Z_scope.
Set Warnings "-inexact-float".

(** ** Vectors and arrays *)

Definition Vec3d : Type := (float * float * float)%type.
Definition Vec3i : Type := list Z.
Definition Vec4i : Type := list Z.

Definition vec_zero : Vec3d := (0, 0, 0)%float.

Definition vec_add (a b : Vec3d) : Vec3d :=
  let '(a0, a1, a2) := a in
  let '(b0, b1, b2) := b in
  (a0 + b0, a1 + b1, a2 + b2)%float.

Definition vec_div (a : Vec3d) (s : float) : Vec3d :=
  let '(a0, a1, a2) := a in (a0 / s, a1 / s, a2 / s)%float.

(** [(a + b) / 2] on Eigen row vectors. *)
Definition midpoint (a b : Vec3d) : Vec3d := vec_div (vec_add a b) 2%float.

(** Eigen's [operator==]: coefficient-wise IEEE equality, all of them. *)
Definition vec_eqb (a b : Vec3d) : bool :=
  let '(a0, a1, a2) := a in
  let '(b0, b1, b2) := b in
  (a0 =? b0)%float && (a1 =? b1)%float && (a2 =? b2)%float.

Definition vec_get (a : Vec3d) (j : Z) : float :=
  let '(a0, a1, a2) := a in
  if j =? 0 then a0 else if j =? 1 then a1 else a2.

(** [v[i]] for an [int] index. *)
Definition zth {A : Type} (l : list A) (i : Z) (d : A) : A :=
  if i <? 0 then d else nth (Z.to_nat i) l d.

Fixpoint set_nth {A : Type} (l : list A) (n : nat) (x : A) : list A :=
  match l, n with
  | [], _ => []
  | _ :: r, O => x :: r
  | y :: r, S n' => y :: set_nth r n' x
  end.

(** [v[i] = x] for an [int] index. *)
Definition zset {A : Type} (l : list A) (i : Z) (x : A) : list A :=
  if i <? 0 then l else set_nth l (Z.to_nat i) x.

Definition zlen {A : Type} (l : list A) : Z := Z.of_nat (length l).

(** [v.resize(n)] with value [d] for the fresh slots. *)
Definition resize {A : Type} (l : list A) (n : Z) (d : A) : list A :=
  firstn (Z.to_nat n) l ++ repeat d (Z.to_nat n - length l).

(** [v.back() = x]. *)
Definition set_last {A : Type} (l : list A) (x : A) : list A :=
  match l with
  | [] => []
  | _ => removelast l ++ [x]
  end.

(** ** The helper lambdas at the top of tetra_utils.cpp *)

(** [std::set_intersection] on two sorted ranges, as the two-cursor loop. *)
Fixpoint set_inter (A : list Z) : list Z -> list Z :=
  match A with
  | [] => fun _ => []
  | a :: A' =>
      fix inner (B : list Z) : list Z :=
        match B with
        | [] => []
        | b :: B' =>
            if a <? b then set_inter A' B
            else if b <? a then inner B'
            else a :: set_inter A' B'
        end
  end.

(** [std::lower_bound] followed by [insert]. *)
Fixpoint set_insert (A : list Z) (a : Z) : list Z :=
  match A with
  | [] => [a]
  | x :: r => if x <? a then x :: set_insert r a else a :: A
  end.

(** [replace(arr, a, b)]: the first entry equal to [a] becomes [b]. *)
Fixpoint replace (arr : list Z) (a b : Z) : list Z :=
  match arr with
  | [] => []
  | x :: r => if x =? a then b :: r else x :: replace r a b
  end.

Fixpoint id_in_array_from (v : list Z) (k : Z) (i : Z) : Z :=
  match v with
  | [] => -1
  | x :: r => if x =? k then i else id_in_array_from r k (i + 1)
  end.

Definition id_in_array (v : list Z) (k : Z) : Z := id_in_array_from v k 0.

Fixpoint sort_insert (x : Z) (l : list Z) : list Z :=
  match l with
  | [] => [x]
  | y :: r => if x <=? y then x :: l else y :: sort_insert x r
  end.

(** [std::sort] on a small integer array. *)
Definition sort (l : list Z) : list Z := fold_right sort_insert [] l.

Definition sorted_face (conn : list Z) (j : Z) : Vec3i :=
  sort (map (fun k => zth conn ((1 + k + j) mod 4) 0) [0; 1; 2]).

Definition list_eqb (a b : list Z) : bool :=
  if list_eq_dec Z.eq_dec a b then true else false.

(** [face.front()]. *)
Definition front (l : list Z) : Z := hd 0 l.

(** ** [std::map<Vec3i,int>] and [std::set] as seen by this code

    Only [emplace], [insert_or_assign], [find] and [size] are used on the
    map, and [insert] and [size] on the sets, so an association list without
    repeated keys and a list without repeated members carry them. *)

Definition face_map : Type := list (Vec3i * Z).

Fixpoint map_find (m : face_map) (k : Vec3i) : option Z :=
  match m with
  | [] => None
  | (k', v) :: r => if list_eqb k' k then Some v else map_find r k
  end.

Definition map_emplace (m : face_map) (k : Vec3i) (v : Z) : face_map :=
  match map_find m k with
  | Some _ => m
  | None => m ++ [(k, v)]
  end.

Fixpoint map_insert_or_assign (m : face_map) (k : Vec3i) (v : Z) : face_map :=
  match m with
  | [] => [(k, v)]
  | (k', v') :: r =>
      if list_eqb k' k then (k', v) :: r else (k', v') :: map_insert_or_assign r k v
  end.

Definition set_add {A : Type} (eqb : A -> A -> bool) (s : list A) (x : A) : list A :=
  if existsb (eqb x) s then s else s ++ [x].

Definition set_of {A : Type} (eqb : A -> A -> bool) (l : list A) : list A :=
  fold_left (set_add eqb) l [].

(** ** Doubles *)

(** [std::max(a, b)] is [(a < b) ? b : a]. *)
Definition fmax (a b : float) : float := if (a <? b)%float then b else a.

(** ** Attribute stores and the shell layer *)

(** Modelled from the spec: the header tetra_utils.hpp that declares
    [VertAttr] and [TetAttr] is missing from the sources.  The fields are the
    ones the code reads and writes; the defaults are the spec's sentinels: a
    fresh vertex has shell-id "none" ([-1]) and position zero, a fresh tet has
    every face tag "interior" ([-1]) and is not removed. *)
Record VertAttr : Type := mkVertAttr { pos : Vec3d; mid_id : Z }.

Record TetAttr : Type := mkTetAttr { prism_id : Vec4i; is_removed : bool; conn : Vec4i }.

Definition VertAttr_default : VertAttr := {| pos := vec_zero; mid_id := -1 |}.

Definition TetAttr_default : TetAttr :=
  {| prism_id := [-1; -1; -1; -1]; is_removed := false; conn := [-1; -1; -1; -1] |}.

Definition set_pos (v : VertAttr) (p : Vec3d) : VertAttr :=
  {| pos := p; mid_id := mid_id v |}.

Definition set_mid_id (v : VertAttr) (i : Z) : VertAttr :=
  {| pos := pos v; mid_id := i |}.

Definition set_removed (t : TetAttr) : TetAttr :=
  {| prism_id := prism_id t; is_removed := true; conn := conn t |}.

(** The spatial hash grids of the shell ([pc.top_grid], [pc.base_grid]). *)
Class SpatialHash : Type := {
  HashGrid : Type;
  remove_element : HashGrid -> Z -> HashGrid;
  insert_triangles : HashGrid -> list Vec3d -> list Vec3i -> list Z -> HashGrid
}.

(** Modelled from the spec: the headers that declare [PrismCage],
    [RemeshOptions] and [SmoothType] are missing from the sources; the
    records below have the members this code touches (the shell layer of the
    spec: three layers of positions, the triangles, their tracked sets, the
    spatial index, the reference surface).

    The reference surface [pc.ref]: its vertices, triangles and the number of
    frozen vertices of its AABB tree. *)
Record RefSurface : Type := mkRef { ref_V : list Vec3d; ref_F : list Vec3i; num_freeze : Z }.

Record RemeshOptions : Type := mkOptions {
  collapse_quality_threshold : float;
  target_thickness : float;
  target_adjustment : list float
}.

Inductive SmoothType : Type :=
  | kInteriorNewton | kSurfaceSnap | kShellPan | kShellZoom | kShellRotate.

Section Shell.
Context {SH : SpatialHash}.

(** Modelled from the spec: [PrismCage], with the three layers, the triangles
    [F] (an empty slot is filled with [-1]), the tracked sets and the optional
    grids (present together). *)
Record PrismCage : Type := mkCage {
  base : list Vec3d;
  mid : list Vec3d;
  top : list Vec3d;
  F : list Vec3i;
  track_ref : list (list Z);
  grids : option (HashGrid * HashGrid);
  ref : RefSurface
}.

(** Everything an editor receives by reference. *)
Record Mesh : Type := mkMesh {
  pc : PrismCage;
  opt : RemeshOptions;
  vert_attrs : list VertAttr;
  tet_attrs : list TetAttr;
  vert_conn : list (list Z)
}.

(** How a call ends: it returns its flag, or an exception leaves it. *)
Inductive outcome : Type :=
  | Returned (b : bool) (m : Mesh)
  | Thrown (msg : String.string).

(** The collaborators of tetra_utils.cpp that live outside these files. *)
Class Collaborators : Type := {
  (** [set_minus(A, B, out)] of the common header. *)
  set_minus : list Z -> list Z -> list Z;
  tetra_validity : list VertAttr -> Vec4i -> bool;
  tetra_quality : Vec3d -> Vec3d -> Vec3d -> Vec3d -> float;
  circumradi2 : Vec3d -> Vec3d -> Vec3d -> Vec3d -> float;
  (** [prism::local_validity::attempt_zig_remesh]: the flag and [new_tracks]. *)
  attempt_shell_operation :
    PrismCage -> RemeshOptions -> float -> list Z -> list Vec3i -> Z * list (list Z);
  triangle_shifts : list Vec3i -> list Vec3i;
  (** [igl::boundary_facets] on the rows of a tet matrix. *)
  boundary_facets : list Vec4i -> list Vec3i;
  newton_position_from_stack : list (list float) -> Vec3d;
  segment_triangle_intersection : Vec3d * Vec3d -> Vec3d * Vec3d * Vec3d -> option Vec3d;
  smoother_direction :
    list Vec3d -> list Vec3d -> list Vec3d -> list Vec3i -> Z -> list Z -> list Z -> Z ->
    option Vec3d;
  zoom :
    list Vec3d -> list Vec3d -> list Vec3d -> list Vec3i -> list Z -> list Z -> Z -> float ->
    option (Vec3d * Vec3d);
  rotate :
    list Vec3d -> list Vec3d -> list Vec3d -> list Vec3i -> list Z -> list Z -> Z -> float ->
    option (Vec3d * Vec3d)
}.

Context {CO : Collaborators}.

Definition vpos (va : list VertAttr) (i : Z) : Vec3d := pos (zth va i VertAttr_default).
Definition vmid (va : list VertAttr) (i : Z) : Z := mid_id (zth va i VertAttr_default).
Definition tconn (ta : list TetAttr) (t : Z) : Vec4i := conn (zth ta t TetAttr_default).
Definition tprism (ta : list TetAttr) (t : Z) : Vec4i := prism_id (zth ta t TetAttr_default).

Definition tet_quality_of (va : list VertAttr) (t : Vec4i) : float :=
  tetra_quality (vpos va (zth t 0 0)) (vpos va (zth t 1 0))
                (vpos va (zth t 2 0)) (vpos va (zth t 3 0)).

Definition tet_size_of (va : list VertAttr) (t : Vec4i) : float :=
  circumradi2 (vpos va (zth t 0 0)) (vpos va (zth t 1 0))
              (vpos va (zth t 2 0)) (vpos va (zth t 3 0)).

Definition compute_quality (va : list VertAttr) (tets : list Vec4i) : float :=
  fold_left (fun maxqual t => fmax maxqual (tet_quality_of va t)) tets 0%float.

Definition max_tetra_sizes (va : list VertAttr) (tets : list Vec4i) : float :=
  fold_left (fun max_size t => fmax (tet_size_of va t) max_size) tets 0%float.

(** The indices [0 .. size - 1] of a vector. *)
Definition indices {A : Type} (l : list A) : list Z :=
  map Z.of_nat (seq 0 (length l)).

(** The shell-id triple of face [j] of a tet with connectivity [c], sorted. *)
Definition mid_face (va : list VertAttr) (c : Vec4i) (j : Z) : Vec3i :=
  sort (map (fun k => vmid va (zth c ((j + k + 1) mod 4) 0)) [0; 1; 2]).

(** [prepare_tet_info]: the three stores built from a vertex matrix, a tet
    matrix and the shell-ids of the vertices. *)
Definition prepare_tet_info (p : PrismCage) (tet_v : list Vec3d) (tet_t : list Vec4i)
    (tet_v_pid : list Z) : list VertAttr * list TetAttr * list (list Z) :=
  let vert_info :=
    map (fun i => {| pos := zth tet_v i vec_zero; mid_id := zth tet_v_pid i 0 |})
        (indices tet_v) in
  let cell_finder :=
    fold_left (fun cf i => map_emplace cf (sort (zth (F p) i [0; 0; 0])) i)
              (indices (F p)) [] in
  let tet_info :=
    map (fun t =>
        {| prism_id :=
             fold_left (fun pr j =>
                 let face := mid_face vert_info t j in
                 if front face <? 0 then pr
                 else match map_find cell_finder face with
                      | Some f => zset pr j f
                      | None => pr
                      end)
               [0; 1; 2; 3] (prism_id TetAttr_default);
           is_removed := false;
           conn := map (fun j => zth t j 0) [0; 1; 2; 3] |}) tet_t in
  let vert_tet_conn :=
    map sort
      (fold_left (fun vt i =>
           fold_left (fun vt' j =>
               let v := zth (conn (zth tet_info i TetAttr_default)) j 0 in
               zset vt' v (zth vt' v [] ++ [i]))
             [0; 1; 2; 3] vt)
         (indices tet_info) (repeat [] (List.length vert_info))) in
  (vert_info, tet_info, vert_tet_conn).

(** One round of the install loop of [update_pc]; [f >= pc.F.size()] compares
    as [size_t], so a negative [f] also takes the resizing branch. *)
Definition update_pc_install (FT : list Vec3i * list (list Z)) (e : Z * (Vec3i * list Z))
  : list Vec3i * list (list Z) :=
  let '(Fs, Ts) := FT in
  let '(f, (c, tr)) := e in
  let '(Fs1, Ts1) :=
    if (f <? 0) || (zlen Fs <=? f)
    then (resize Fs (f + 1) [0; 0; 0], resize Ts (f + 1) [])
    else (Fs, Ts) in
  (zset Fs1 f c, zset Ts1 f tr).

(** [update_pc]; [new_conn] is taken by reference and comes back shifted. *)
Definition update_pc (p : PrismCage) (old_fid new_fid : list Z)
    (new_conn : list Vec3i) (new_tracks : list (list Z)) : PrismCage * list Vec3i :=
  let F0 := fold_left (fun Fs i => zset Fs i [-1; -1; -1]) old_fid (F p) in
  let new_conn' := triangle_shifts new_conn in
  let entries :=
    map (fun i => (zth new_fid i 0, (zth new_conn' i [0; 0; 0], zth new_tracks i [])))
        (indices new_fid) in
  let '(F1, T1) := fold_left update_pc_install entries (F0, track_ref p) in
  let grids' :=
    match grids p with
    | None => None
    | Some (tg, bg) =>
        let tg1 := fold_left remove_element old_fid tg in
        let bg1 := fold_left remove_element old_fid bg in
        Some (insert_triangles tg1 (top p) F1 new_fid,
              insert_triangles bg1 (base p) F1 new_fid)
    end in
  ({| base := base p; mid := mid p; top := top p; F := F1; track_ref := T1;
      grids := grids'; ref := ref p |}, new_conn').

Definition edge_adjacent_boundary_face (ta : list TetAttr) (vc : list (list Z))
    (v0 v1 : Z) : list Z :=
  let affected := set_inter (zth vc v0 []) (zth vc v1 []) in
  flat_map (fun t =>
    flat_map (fun j =>
      if negb (zth (tprism ta t) j 0 =? -1)
         && negb (zth (tconn ta t) j 0 =? v0)
         && negb (zth (tconn ta t) j 0 =? v1)
      then [zth (tprism ta t) j 0] else []) [0; 1; 2; 3]) affected.

(** *** [update_tetra_conn] *)

(** First loop: mark the affected tets removed and collect their tags. *)
Definition retire_tet (va : list VertAttr) (st : list TetAttr * face_map) (ti : Z)
  : list TetAttr * face_map :=
  let '(ta, mp) := st in
  let ta1 := zset ta ti (set_removed (zth ta ti TetAttr_default)) in
  let mp1 :=
    fold_left (fun m j =>
      let pid := zth (tprism ta1 ti) j 0 in
      if negb (pid =? -1) then map_emplace m (mid_face va (tconn ta1 ti) j) pid else m)
      [0; 1; 2; 3] mp in
  (ta1, mp1).

Definition assign_modified (modified_pids : list Z) (modified_tris : list Vec3i)
    (mp : face_map) : face_map :=
  fold_left (fun m i =>
      map_insert_or_assign m (sort (zth modified_tris i [0; 0; 0])) (zth modified_pids i 0))
    (indices modified_pids) mp.

(** Tags of a new tet, and how many were assigned. *)
Definition assign_tags (va : list VertAttr) (mp : face_map) (t : Vec4i) : Vec4i * Z :=
  let tet_mid := map (fun j => vmid va (zth t j 0)) [0; 1; 2; 3] in
  fold_left (fun (st : Vec4i * Z) j =>
      let '(pr, cnt) := st in
      let face := sorted_face tet_mid j in
      if front face =? -1 then (pr, cnt)
      else match map_find mp face with
           | Some pid => (zset pr j pid, cnt + 1)
           | None => (pr, cnt)
           end)
    [0; 1; 2; 3] (prism_id TetAttr_default, 0).

(** One round of the loop over [new_tets]. *)
Definition install_tet (va : list VertAttr) (affected : list Z) (mp : face_map)
    (st : list TetAttr * list (list Z) * Z) (t : Vec4i) : list TetAttr * list (list Z) * Z :=
  let '(ta, vc, cnt) := st in
  let n_tet := zlen ta in
  let vc1 :=
    fold_left (fun vc' i =>
        let v := zth t i 0 in
        zset vc' v (set_insert (set_minus (zth vc' v []) affected) n_tet))
      [0; 1; 2; 3] vc in
  let '(pr, c) := assign_tags va mp t in
  (ta ++ [{| prism_id := pr; is_removed := false; conn := t |}], vc1, cnt + c).

Definition update_tetra_conn (va : list VertAttr) (ta : list TetAttr)
    (vc : list (list Z)) (affected : list Z) (new_tets : list Vec4i)
    (modified_pids : list Z) (modified_tris : list Vec3i)
  : String.string + (list TetAttr * list (list Z)) :=
  let vc0 := resize vc (zlen va) [] in
  let '(ta1, mp0) := fold_left (retire_tet va) affected (ta, []) in
  let moved_pris_assigner := assign_modified modified_pids modified_tris mp0 in
  let affected_verts :=
    set_of Z.eqb (flat_map (fun t => map (fun i => zth (tconn ta1 t) i 0) [0; 1; 2; 3])
                           affected) in
  let vc1 :=
    fold_left (fun vc' v => zset vc' v (set_minus (zth vc' v []) affected))
              affected_verts vc0 in
  let '(ta2, vc2, cnt_assigned_prisms) :=
    fold_left (install_tet va affected moved_pris_assigner) new_tets (ta1, vc1, 0) in
  if negb (zlen modified_tris <=? cnt_assigned_prisms)
  then inl "Some new prisms are not assigned!"%string
  else if match modified_tris with [] => true | _ => false end
          && negb (zlen moved_pris_assigner =? cnt_assigned_prisms)
  then inl "Internal edge should not lose any tag."%string
  else inr (ta2, vc2).

(** *** [tetmesh_sanity] *)

Definition live_tets (ta : list TetAttr) : list TetAttr :=
  filter (fun t => negb (is_removed t)) ta.

(** First loop: every non-removed tet is valid. *)
Definition sanity_valid (ta : list TetAttr) (va : list VertAttr) : bool :=
  forallb (fun t => tetra_validity va (conn t)) (live_tets ta).

Definition face_count_add (fm : face_map) (face : Vec3i) : option face_map :=
  match map_find fm face with
  | None => Some (fm ++ [(face, 1)])
  | Some n => if 2 <? n + 1 then None else Some (map_insert_or_assign fm face (n + 1))
  end.

(** Second loop: no duplicate tet and no face on more than two tets. *)
Fixpoint sanity_duplicates (tets : list TetAttr) (tet_duplicate : list Vec4i)
    (face_duplicate : face_map) : bool :=
  match tets with
  | [] => true
  | t :: r =>
      let c := sort (conn t) in
      if existsb (list_eqb c) tet_duplicate then false
      else
        let step (st : option face_map) (j : Z) :=
          match st with
          | None => None
          | Some fm => face_count_add fm (sorted_face (conn t) j)
          end in
        match fold_left step [0; 1; 2; 3] (Some face_duplicate) with
        | None => false
        | Some fm => sanity_duplicates r (tet_duplicate ++ [c]) fm
        end
  end.

(** The set [boundary_faces] of the third loop. *)
Definition boundary_faces (ta : list TetAttr) : list Vec3i :=
  set_of list_eqb
    (flat_map (fun t =>
       flat_map (fun j =>
         if negb (zth (prism_id t) j 0 =? -1) then [sorted_face (conn t) j] else [])
         [0; 1; 2; 3]) (live_tets ta)).

Definition count_pc_faces (p : PrismCage) : Z :=
  zlen (filter (fun f => negb (zth f 0 0 =? -1)) (F p)).

Definition sanity_internal (ta : list TetAttr) (va : list VertAttr)
    (vtc : list (list Z)) : bool :=
  forallb (fun i =>
      if 0 <=? vmid va i then true
      else
        let nb := zth vtc i [] in
        match nb with
        | [] => true
        | _ =>
            let old_tets := map (tconn ta) nb in
            negb (existsb (fun face => existsb (Z.eqb i) face) (boundary_facets old_tets))
        end)
    (indices va).

Definition sanity_mid (va : list VertAttr) (p : PrismCage) : bool :=
  forallb (fun v =>
      if negb (mid_id v =? -1) then vec_eqb (pos v) (zth (mid p) (mid_id v) vec_zero)
      else true) va.

Definition tetmesh_sanity (ta : list TetAttr) (va : list VertAttr)
    (vtc : list (list Z)) (p : PrismCage) : bool :=
  if negb (sanity_valid ta va) then false
  else if negb (sanity_duplicates (live_tets ta) [] []) then false
  else if negb (zlen (boundary_faces ta) =? count_pc_faces p) then false
  else if negb (sanity_internal ta va vtc) then false
  else sanity_mid va p.

(** The last step of every editor: the sanity audit of the committed mesh;
    a failed audit throws. *)
Definition audited (m : Mesh) (msg : String.string) : outcome :=
  if tetmesh_sanity (tet_attrs m) (vert_attrs m) (vert_conn m) (pc m)
  then Returned true m
  else Thrown msg.

Definition is_nil {A : Type} (l : list A) : bool :=
  match l with [] => true | _ => false end.

(** ** [split_edge] *)

Definition split_affected (m : Mesh) (v0 v1 : Z) : list Z :=
  set_inter (zth (vert_conn m) v0 []) (zth (vert_conn m) v1 []).

(** The tets proposed by the first loop of [split_edge]. *)
Definition split_new_tets (ta : list TetAttr) (affected : list Z) (v0 v1 vx : Z)
  : list Vec4i :=
  flat_map (fun t => [replace (tconn ta t) v0 vx; replace (tconn ta t) v1 vx]) affected.

(** [vert_attrs.push_back({})] and the assignment of the midpoint. *)
Definition split_push_vertex (va : list VertAttr) (v0 v1 : Z) : list VertAttr :=
  let va1 := va ++ [VertAttr_default] in
  set_last va1 (set_pos VertAttr_default (midpoint (vpos va1 v0) (vpos va1 v1))).

(** The block guarded by the first [!bnd_pris.empty()]. *)
Definition split_push_shell (m : Mesh) (v0 v1 : Z) : Mesh :=
  let va := vert_attrs m in
  let p := pc m in
  let p_vx := zlen (mid p) in
  let pv0 := vmid va v0 in
  let pv1 := vmid va v1 in
  let va1 := set_last va (set_mid_id (last va VertAttr_default) p_vx) in
  let ta := target_adjustment (opt m) in
  {| pc := {| base := base p ++ [midpoint (zth (base p) pv0 vec_zero) (zth (base p) pv1 vec_zero)];
              mid := mid p ++ [pos (last va1 VertAttr_default)];
              top := top p ++ [midpoint (zth (top p) pv0 vec_zero) (zth (top p) pv1 vec_zero)];
              F := F p; track_ref := track_ref p; grids := grids p; ref := ref p |};
     opt := {| collapse_quality_threshold := collapse_quality_threshold (opt m);
               target_thickness := target_thickness (opt m);
               target_adjustment :=
                 ta ++ [((zth ta pv0 0 + zth ta pv1 0) / 2)%float] |};
     vert_attrs := va1;
     tet_attrs := tet_attrs m;
     vert_conn := vert_conn m |}.

(** The [rollback] lambda of [split_edge]: four [pop_back]s, whatever was
    pushed. *)
Definition split_rollback (m : Mesh) : outcome :=
  let p := pc m in
  Returned false
    {| pc := {| base := removelast (base p); mid := removelast (mid p);
                top := removelast (top p);
                F := F p; track_ref := track_ref p; grids := grids p; ref := ref p |};
       opt := opt m;
       vert_attrs := removelast (vert_attrs m);
       tet_attrs := tet_attrs m;
       vert_conn := vert_conn m |}.

Definition with_pc (m : Mesh) (p : PrismCage) : Mesh :=
  {| pc := p; opt := opt m; vert_attrs := vert_attrs m; tet_attrs := tet_attrs m;
     vert_conn := vert_conn m |}.

Definition with_vert_attrs (m : Mesh) (va : list VertAttr) : Mesh :=
  {| pc := pc m; opt := opt m; vert_attrs := va; tet_attrs := tet_attrs m;
     vert_conn := vert_conn m |}.

Definition with_conn (m : Mesh) (ta : list TetAttr) (vc : list (list Z)) : Mesh :=
  {| pc := pc m; opt := opt m; vert_attrs := vert_attrs m; tet_attrs := ta;
     vert_conn := vc |}.

(** [update_tetra_conn] on the stores of [m]; [require] may throw. *)
Definition rewrite_conn (m : Mesh) (affected : list Z) (new_tets : list Vec4i)
    (new_fid : list Z) (moved_tris : list Vec3i) : String.string + Mesh :=
  match update_tetra_conn (vert_attrs m) (tet_attrs m) (vert_conn m)
                          affected new_tets new_fid moved_tris with
  | inl msg => inl msg
  | inr (ta, vc) => inr (with_conn m ta vc)
  end.

Definition split_edge (m : Mesh) (v0 v1 : Z) : outcome :=
  let affected := split_affected m v0 v1 in
  let vx := zlen (vert_attrs m) in
  let bnd_pris := edge_adjacent_boundary_face (tet_attrs m) (vert_conn m) v0 v1 in
  let new_tets := split_new_tets (tet_attrs m) affected v0 v1 vx in
  let m1 := with_vert_attrs m (split_push_vertex (vert_attrs m) v0 v1) in
  let pv0 := vmid (vert_attrs m1) v0 in
  let pv1 := vmid (vert_attrs m1) v1 in
  let m2 := if is_nil bnd_pris then m1 else split_push_shell m1 v0 v1 in
  if negb (forallb (tetra_validity (vert_attrs m2)) new_tets) then split_rollback m2
  else
    let commit (m3 : Mesh) (new_fid : list Z) (moved_tris : list Vec3i) : outcome :=
      match rewrite_conn m3 affected new_tets new_fid moved_tris with
      | inl msg => Thrown msg
      | inr m4 => audited m4 "Sanity Error"
      end in
    if is_nil bnd_pris then commit m2 [] []
    else
      let pvx := zlen (mid (pc m2)) - 1 in
      let Fs := F (pc m2) in
      let f0 := hd 0 bnd_pris in
      let f1 := last bnd_pris 0 in
      let old_fids := [f0; f1] in
      let moved_tris :=
        [replace (zth Fs f0 [0; 0; 0]) pv0 pvx; replace (zth Fs f1 [0; 0; 0]) pv0 pvx;
         replace (zth Fs f0 [0; 0; 0]) pv1 pvx; replace (zth Fs f1 [0; 0; 0]) pv1 pvx] in
      let '(flag, new_tracks) :=
        attempt_shell_operation (pc m2) (opt m2) (-1)%float old_fids moved_tris in
      if negb (flag =? 0) then split_rollback m2
      else
        let new_fid := [f0; f1; zlen Fs; zlen Fs + 1] in
        let '(p3, moved_tris') := update_pc (pc m2) [f0; f1] new_fid moved_tris new_tracks in
        commit (with_pc m2 p3) new_fid moved_tris'.

(** ** [smooth_vertex] *)

Definition orient_preserve_tet_reorder (c : Vec4i) (v0 : Z) : Vec4i :=
  let vl_id := id_in_array c v0 in
  let reorder := [[0; 1; 2; 3]; [1; 0; 3; 2]; [2; 0; 1; 3]; [3; 1; 0; 2]] in
  map (fun j => zth c (zth (zth reorder vl_id [0; 0; 0; 0]) j 0) 0) [0; 1; 2; 3].

Definition get_newton_position (va : list VertAttr) (ta : list TetAttr)
    (nb : list Z) (v0 : Z) (old_pos : Vec3d) : Vec3d :=
  let assembles :=
    map (fun t =>
        let local_verts := orient_preserve_tet_reorder (tconn ta t) v0 in
        flat_map (fun i => map (fun j => vec_get (vpos va (zth local_verts i 0)) j) [0; 1; 2])
                 [0; 1; 2; 3]) nb in
  newton_position_from_stack assembles.

(** [std::set<int>::insert]: members are kept sorted and without repetition. *)
Fixpoint ordered_insert (x : Z) (s : list Z) : list Z :=
  match s with
  | [] => [x]
  | y :: r => if x <? y then x :: s else if x =? y then s else y :: ordered_insert x r
  end.

Definition get_snap_position (p : PrismCage) (neighbor_pris : list Z) (v0 : Z)
  : option Vec3d :=
  let total_trackee :=
    fold_left (fun s f => fold_left (fun s' x => ordered_insert x s') (zth (track_ref p) f []) s)
              neighbor_pris [] in
  let s := zth (top p) v0 vec_zero in
  let t := zth (base p) v0 vec_zero in
  let rV := ref_V (ref p) in
  let rF := ref_F (ref p) in
  fold_left (fun (found : option Vec3d) f =>
      match found with
      | Some _ => found
      | None =>
          let tri := zth rF f [0; 0; 0] in
          segment_triangle_intersection (s, t)
            (zth rV (zth tri 0 0) vec_zero, zth rV (zth tri 1 0) vec_zero,
             zth rV (zth tri 2 0) vec_zero)
      end) total_trackee None.

(** The shell faces around [v0] that do not face it. *)
Definition neighbor_prisms (ta : list TetAttr) (tet_nb : list Z) (v0 : Z) : list Z :=
  flat_map (fun t =>
    flat_map (fun j =>
      let pid := zth (tprism ta t) j 0 in
      if negb (pid =? -1) && negb (zth (tconn ta t) j 0 =? v0) then [pid] else [])
      [0; 1; 2; 3]) tet_nb.

Definition set_pillar (p : PrismCage) (i : Z) (b md t : Vec3d) : PrismCage :=
  {| base := zset (base p) i b; mid := zset (mid p) i md; top := zset (top p) i t;
     F := F p; track_ref := track_ref p; grids := grids p; ref := ref p |}.

Definition set_vertex_pos (m : Mesh) (v : Z) (x : Vec3d) : Mesh :=
  with_vert_attrs m (zset (vert_attrs m) v (set_pos (zth (vert_attrs m) v VertAttr_default) x)).

(** The pillar saved in [old_pillar]. *)
Definition pillar_of (p : PrismCage) (pv0 : Z) : Vec3d * Vec3d * Vec3d :=
  if negb (pv0 =? -1)
  then (zth (base p) pv0 vec_zero, zth (mid p) pv0 vec_zero, zth (top p) pv0 vec_zero)
  else (vec_zero, vec_zero, vec_zero).

(** The [rollback] lambda of [smooth_vertex], run on the mesh as it is then. *)
Definition smooth_rollback (v0 : Z) (old_pos : Vec3d) (pv0 : Z)
    (old_pillar : Vec3d * Vec3d * Vec3d) (m' : Mesh) : outcome :=
  let m1 := set_vertex_pos m' v0 old_pos in
  Returned false
    (if negb (pv0 =? -1)
     then let '(b, md, t) := old_pillar in with_pc m1 (set_pillar (pc m1) pv0 b md t)
     else m1).

(** The part of [smooth_vertex] after the position has moved: the size bound
    (interior vertices only), validity, and the shell attempt. *)
Definition smooth_finish (v0 pv0 : Z) (size_control : float)
    (rollback : Mesh -> outcome) (m' : Mesh) : outcome :=
  let ta := tet_attrs m' in
  let tet_nb := zth (vert_conn m') v0 [] in
  if (pv0 =? -1)
     && (size_control <? max_tetra_sizes (vert_attrs m') (map (tconn ta) tet_nb))%float
  then rollback m'
  else if negb (forallb (fun ti => tetra_validity (vert_attrs m') (tconn ta ti)) tet_nb)
  then rollback m'
  else if negb (pv0 =? -1) then
    let old_fids := neighbor_prisms ta tet_nb v0 in
    let moved_tris := map (fun f => zth (F (pc m')) f [0; 0; 0]) old_fids in
    let '(flag, new_tracks) :=
      attempt_shell_operation (pc m') (opt m') 1e10%float old_fids moved_tris in
    if negb (flag =? 0) then rollback m'
    else Returned true
           (with_pc m' (fst (update_pc (pc m') old_fids old_fids moved_tris new_tracks)))
  else Returned true m'.

(** [smooth_vertex]; the maximum [fmax] it takes over [pc.F] is never used and
    is left out. *)
Definition smooth_vertex (m : Mesh) (smooth_type : SmoothType) (v0 : Z)
    (size_control : float) : outcome :=
  let ta := tet_attrs m in
  let tet_nb := zth (vert_conn m) v0 [] in
  let old_pos := vpos (vert_attrs m) v0 in
  let pv0 := vmid (vert_attrs m) v0 in
  let neighbor_pris := neighbor_prisms ta tet_nb v0 in
  let p0 := pc m in
  let rollback := smooth_rollback v0 old_pos pv0 (pillar_of p0 pv0) in
  let finish := smooth_finish v0 pv0 size_control rollback in
  match smooth_type with
  | kInteriorNewton =>
      finish (set_vertex_pos m v0 (get_newton_position (vert_attrs m) ta tet_nb v0 old_pos))
  | _ =>
      let nbi := map (fun f => id_in_array (zth (F p0) f [0; 0; 0]) pv0) neighbor_pris in
      let snap (m' : Mesh) : outcome :=
        match get_snap_position (pc m') neighbor_pris pv0 with
        | None => rollback m'
        | Some snapped =>
            let m1 := set_vertex_pos m' v0 snapped in
            let p1 := pc m1 in
            finish (with_pc m1 (set_pillar p1 pv0 (zth (base p1) pv0 vec_zero)
                                           (vpos (vert_attrs m1) v0)
                                           (zth (top p1) pv0 vec_zero)))
        end in
      let inflate (func : list Vec3d -> list Vec3d -> list Vec3d -> list Vec3i ->
                          list Z -> list Z -> Z -> float -> option (Vec3d * Vec3d)) : outcome :=
        match func (base p0) (mid p0) (top p0) (F p0) neighbor_pris nbi pv0
                   (target_thickness (opt m)) with
        | None => rollback m
        | Some (b, t) =>
            finish (with_pc m (set_pillar p0 pv0 b (zth (mid p0) pv0 vec_zero) t))
        end in
      match smooth_type with
      | kShellPan =>
          match smoother_direction (base p0) (mid p0) (top p0) (F p0)
                  (num_freeze (ref p0)) neighbor_pris nbi pv0 with
          | None => rollback m
          | Some d =>
              snap (with_pc m (set_pillar p0 pv0
                                 (vec_add (zth (base p0) pv0 vec_zero) d)
                                 (vec_add (zth (mid p0) pv0 vec_zero) d)
                                 (vec_add (zth (top p0) pv0 vec_zero) d)))
          end
      | kSurfaceSnap => snap m
      | kShellRotate => inflate rotate
      | _ => inflate zoom
      end
  end.

(** What [smooth_vertex] may have written when it reaches a [rollback]: the
    position of [v0] and the pillar at [pv0], nothing else. *)
Definition touched_only (v0 pv0 : Z) (m m' : Mesh) : Prop :=
  opt m' = opt m /\ tet_attrs m' = tet_attrs m /\ vert_conn m' = vert_conn m /\
  F (pc m') = F (pc m) /\ track_ref (pc m') = track_ref (pc m) /\
  grids (pc m') = grids (pc m) /\ ref (pc m') = ref (pc m) /\
  (forall y, zset (vert_attrs m') v0 y = zset (vert_attrs m) v0 y) /\
  vmid (vert_attrs m') v0 = vmid (vert_attrs m) v0 /\
  (forall y, zset (base (pc m')) pv0 y = zset (base (pc m)) pv0 y) /\
  (forall y, zset (mid (pc m')) pv0 y = zset (mid (pc m)) pv0 y) /\
  (forall y, zset (top (pc m')) pv0 y = zset (top (pc m)) pv0 y).

(** ** [collapse_edge] *)

(** The replacement tets: every tet of [v1] without [v2], [v1] overwritten. *)
Definition collapse_new_tets (ta : list TetAttr) (old_tids : list Z) (v1_id v2_id : Z)
  : list Vec4i :=
  flat_map (fun t =>
      let line_tet := tconn ta t in
      let v1_i := id_in_array line_tet v1_id in
      let v2_i := id_in_array line_tet v2_id in
      if 0 <=? v2_i then [] else [zset line_tet v1_i v2_id]) old_tids.

(** [std::set<int>] filled with the vertices of a list of tets. *)
Definition vertex_set (tets : list Vec4i) : list Z := set_of Z.eqb (concat tets).

(** The test of the link-condition block ([size_t] arithmetic kept in [Z]). *)
Definition link_condition (old_tets new_tets : list Vec4i) : bool :=
  zlen (vertex_set new_tets) =? zlen (vertex_set old_tets) - 1.

(** The quality gate of [collapse_edge]: [true] when the collapse may go on. *)
Definition collapse_quality_gate (threshold before_quality after_quality : float) : bool :=
  negb ((threshold <? after_quality)%float && (before_quality <? after_quality)%float).

(** The [nb_pids] lambda. *)
Definition nb_pids (ta : list TetAttr) (vc : list (list Z)) (v_id : Z) : list Z :=
  sort (flat_map (fun t =>
    flat_map (fun j =>
      let pid := zth (tprism ta t) j 0 in
      if negb (zth (tconn ta t) j 0 =? v_id) && negb (pid =? -1) then [pid] else [])
      [0; 1; 2; 3]) (zth vc v_id [])).

(** The lambda that builds [old_fid], [new_fid] and [moved_tris]. *)
Definition collapse_shell_faces (Fs : list Vec3i) (neighbor0 : list Z) (u0 u1 : Z)
  : list Z * list Z * list Vec3i :=
  fold_left (fun (st : list Z * list Z * list Vec3i) f =>
      let '(old_fid, new_fid, moved_tris) := st in
      let new_tris := zth Fs f [0; 0; 0] in
      if negb (id_in_array new_tris u1 =? -1) then (old_fid ++ [f], new_fid, moved_tris)
      else (old_fid ++ [f], new_fid ++ [f], moved_tris ++ [replace new_tris u0 u1]))
    neighbor0 ([], [], []).

Definition collapse_edge (m : Mesh) (v1_id v2_id : Z) (size_control : float) : outcome :=
  let va := vert_attrs m in
  let ta := tet_attrs m in
  let vc := vert_conn m in
  let nb1 := zth vc v1_id [] in
  let affected := nb1 in
  if negb (vmid va v1_id =? -1) && (vmid va v2_id =? -1) then Returned false m
  else
  let bnd_faces := edge_adjacent_boundary_face ta vc v1_id v2_id in
  if is_nil bnd_faces && (negb (vmid va v1_id =? -1) && negb (vmid va v2_id =? -1))
  then Returned false m
  else
  let old_tets := map (tconn ta) affected in
  let before_quality := compute_quality va old_tets in
  let new_tets := collapse_new_tets ta nb1 v1_id v2_id in
  if negb (link_condition old_tets new_tets) then Returned false m
  else
  let after_quality := compute_quality va new_tets in
  if negb (collapse_quality_gate (collapse_quality_threshold (opt m))
                                 before_quality after_quality)
  then Returned false m
  else if (size_control <? max_tetra_sizes va new_tets)%float then Returned false m
  else if negb (forallb (tetra_validity va) new_tets) then Returned false m
  else
    let commit (m1 : Mesh) (new_fid : list Z) (moved_tris : list Vec3i) : outcome :=
      let m2 := with_conn m1 (tet_attrs m1) (zset (vert_conn m1) v1_id []) in
      match rewrite_conn m2 affected new_tets new_fid moved_tris with
      | inl msg => Thrown msg
      | inr m3 =>
          let dead := {| pos := vec_zero; mid_id := -1 |} in
          audited (with_vert_attrs m3 (zset (vert_attrs m3) v1_id dead)) "Sanity Error"
      end in
    if is_nil bnd_faces then commit m [] []
    else
      let neighbor0 := nb_pids ta vc v1_id in
      let neighbor1 := nb_pids ta vc v2_id in
      let u1 := vmid va v2_id in
      let u0 := vmid va v1_id in
      (* moved_tris.reserve(neighbor0.size() + neighbor1.size() - 4), in size_t *)
      if zlen neighbor0 + zlen neighbor1 <? 4 then Thrown "vector::reserve"
      else
      let '(old_fid, new_fid, moved_tris) := collapse_shell_faces (F (pc m)) neighbor0 u0 u1 in
      let '(flag, new_tracks) :=
        attempt_shell_operation (pc m) (opt m) (-1)%float old_fid moved_tris in
      if negb (flag =? 0) then Returned false m
      else
        let '(p1, moved_tris') := update_pc (pc m) old_fid new_fid moved_tris new_tracks in
        let va1 := zset va v1_id (set_mid_id (zth va v1_id VertAttr_default) (vmid va v2_id)) in
        commit (with_vert_attrs (with_pc m p1) va1) new_fid moved_tris'.

(** ** [swap_edge] (3-2) *)

(** The local [replace] of [swap_edge]: every entry equal to [v0]. *)
Definition replace_all (arr : list Z) (v0 v1 : Z) : list Z :=
  map (fun x => if x =? v0 then v1 else x) arr.

(** The loop that finds [n0_id], [n1_id], [n2_id]. *)
Definition swap_edge_ring (ta : list TetAttr) (affected : list Z) (v1_id v2_id : Z)
  : Z * Z * Z :=
  let t0 := tconn ta (zth affected 0 0) in
  let t1 := tconn ta (zth affected 1 0) in
  let t2 := tconn ta (zth affected 2 0) in
  fold_left (fun (st : Z * Z * Z) j =>
      let '(n0_id, n1_id, n2_id) := st in
      let v0j := zth t0 j 0 in
      let inner := negb (v0j =? v1_id) && negb (v0j =? v2_id) in
      let n1' := if inner && negb (id_in_array t1 v0j =? -1) then v0j else n1_id in
      let n2' := if inner && negb (id_in_array t2 v0j =? -1) then v0j else n2_id in
      let n0' := if id_in_array t0 (zth t1 j 0) =? -1 then zth t1 j 0 else n0_id in
      (n0', n1', n2'))
    [0; 1; 2; 3] (-1, -1, -1).

Definition swap_edge_new_tets (ta : list TetAttr) (affected : list Z) (v1_id v2_id : Z)
  : list Vec4i :=
  let '(n0_id, _, n2_id) := swap_edge_ring ta affected v1_id v2_id in
  [replace_all (tconn ta (zth affected 0 0)) v2_id n0_id;
   replace_all (tconn ta (zth affected 1 0)) v1_id n2_id].

Definition swap_edge (m : Mesh) (v1_id v2_id : Z) (size_control : float) : outcome :=
  let va := vert_attrs m in
  let ta := tet_attrs m in
  let vc := vert_conn m in
  let affected := set_inter (zth vc v1_id []) (zth vc v2_id []) in
  if negb (zlen affected =? 3) then Returned false m
  else
  let bnd_faces := edge_adjacent_boundary_face ta vc v1_id v2_id in
  if negb (is_nil bnd_faces) then Returned false m
  else
  let old_tets := map (tconn ta) affected in
  let before_quality := compute_quality va old_tets in
  let new_tets := swap_edge_new_tets ta affected v1_id v2_id in
  if (size_control <? max_tetra_sizes va new_tets)%float then Returned false m
  else if (before_quality <? compute_quality va new_tets)%float then Returned false m
  else if negb (forallb (tetra_validity va) new_tets) then Returned false m
  else
    match rewrite_conn m affected new_tets [] [] with
    | inl msg => Thrown msg
    | inr m1 => audited m1 "Sanity Error"
    end.

(** ** [swap_face] (2-3) *)

Definition find_other (tet : Vec4i) (tri : Vec3i) : Z :=
  fold_right (fun j rest => if id_in_array tri (zth tet j 0) =? -1 then zth tet j 0 else rest)
             (-1) [0; 1; 2; 3].

Definition swap_face_new_tets (ta : list TetAttr) (affected : list Z) (v0_id v1_id v2_id : Z)
  : list Vec4i :=
  let t0 := hd 0 affected in
  let t1 := last affected 0 in
  let u1 := find_other (tconn ta t1) [v0_id; v1_id; v2_id] in
  [replace (tconn ta t0) v0_id u1; replace (tconn ta t0) v1_id u1;
   replace (tconn ta t0) v2_id u1].

Definition swap_face (m : Mesh) (v0_id v1_id v2_id : Z) (size_control : float) : outcome :=
  let va := vert_attrs m in
  let ta := tet_attrs m in
  let vc := vert_conn m in
  let inter0_1 := set_inter (zth vc v0_id []) (zth vc v1_id []) in
  let affected := set_inter inter0_1 (zth vc v2_id []) in
  if negb (zlen affected =? 2) then Returned false m
  else
  let old_tets := map (tconn ta) affected in
  let before_quality := compute_quality va old_tets in
  let new_tets := swap_face_new_tets ta affected v0_id v1_id v2_id in
  if negb (forallb (tetra_validity va) new_tets) then Returned false m
  else if (before_quality <? compute_quality va new_tets)%float then Returned false m
  else if (size_control <? max_tetra_sizes va new_tets)%float then Returned false m
  else
    match rewrite_conn m affected new_tets [] [] with
    | inl msg => Thrown msg
    | inr m1 => audited m1 "Sanity Error."
    end.

(** ** The four editors behind one call type *)

Inductive editor_call : Type :=
  | SplitEdge (v0 v1 : Z)
  | CollapseEdge (v1_id v2_id : Z) (size_control : float)
  | SwapEdge (v1_id v2_id : Z) (size_control : float)
  | SwapFace (v0_id v1_id v2_id : Z) (size_control : float).

Definition run_editor (c : editor_call) (m : Mesh) : outcome :=
  match c with
  | SplitEdge v0 v1 => split_edge m v0 v1
  | CollapseEdge v1 v2 s => collapse_edge m v1 v2 s
  | SwapEdge v1 v2 s => swap_edge m v1 v2 s
  | SwapFace v0 v1 v2 s => swap_face m v0 v1 v2 s
  end.

(** The number of distinct faces of non-removed tets that carry a tag. *)
Definition tagged_face_count (m : Mesh) : Z := zlen (boundary_faces (tet_attrs m)).

(** The number of shell slots whose first component is not [-1]. *)
Definition shell_slot_count (m : Mesh) : Z := count_pc_faces (pc m).

(** The checks of [collapse_edge] other than its quality gate: the two
    shell-id guards, the link condition, the size bound, validity, and on a
    boundary edge the [reserve] and the verdict of the shell oracle. *)
Definition collapse_other_gates (m : Mesh) (v1_id v2_id : Z) (size_control : float) : bool :=
  let va := vert_attrs m in
  let ta := tet_attrs m in
  let vc := vert_conn m in
  let nb1 := zth vc v1_id [] in
  let bnd_faces := edge_adjacent_boundary_face ta vc v1_id v2_id in
  let new_tets := collapse_new_tets ta nb1 v1_id v2_id in
  negb (negb (vmid va v1_id =? -1) && (vmid va v2_id =? -1))
  && negb (is_nil bnd_faces && (negb (vmid va v1_id =? -1) && negb (vmid va v2_id =? -1)))
  && link_condition (map (tconn ta) nb1) new_tets
  && negb (size_control <? max_tetra_sizes va new_tets)%float
  && forallb (tetra_validity va) new_tets
  && (is_nil bnd_faces
      || (negb (zlen (nb_pids ta vc v1_id) + zlen (nb_pids ta vc v2_id) <? 4)
          && (fst (attempt_shell_operation (pc m) (opt m) (-1)%float
                     (fst (fst (collapse_shell_faces (F (pc m)) (nb_pids ta vc v1_id)
                                                     (vmid va v1_id) (vmid va v2_id))))
                     (snd (collapse_shell_faces (F (pc m)) (nb_pids ta vc v1_id)
                                                (vmid va v1_id) (vmid va v2_id)))) =? 0))).


End Shell.

(** ** AdaMesh: rounding and quality over exact coordinates *)

Module AdaMesh.

(** [apps::Rational] is an exact rational number. *)
Definition Rational : Type := Q.
Definition Vector3r : Type := (Rational * Rational * Rational)%type.

Record VertexAttributes : Type := mkVertexAttributes {
  m_posf : Vec3d;
  m_posr : Vector3r;
  rounded : bool;
  is_removed : bool;
  m_is_on_surface : bool;
  on_bbox_faces : list Z
}.

(** The default constructor [VertexAttributes()]. *)
Definition VertexAttributes_default : VertexAttributes :=
  {| m_posf := vec_zero; m_posr := (0%Q, 0%Q, 0%Q); rounded := false;
     is_removed := false; m_is_on_surface := false; on_bbox_faces := [] |}.

(** The base class [wmtk::TetMesh] (connectivity and tuples), the conversion
    of a [double] to [Rational], and the two AMIPS energies of wmtk. *)
Class TetMesh : Type := {
  Tuple : Type;
  tuple_from_vertex : Z -> Tuple;
  is_valid : Tuple -> bool;
  get_one_ring_tets_for_vertex : Tuple -> list Tuple;
  oriented_tet_vids : Tuple -> list Z;
  to_rational : float -> Rational;
  AMIPS_energy_rational_p3 : list Rational -> float;
  AMIPS_energy_stable_p3 : list float -> float
}.

Section WithMesh.
Context {TM : TetMesh}.

(** The attribute collection [vertex_attrs] is the part of the object that
    [round] writes and [quality] reads. *)
Definition VertAttCol : Type := list VertexAttributes.

Definition vattr (va : VertAttCol) (i : Z) : VertexAttributes :=
  zth va i VertexAttributes_default.

Definition is_invert (t : Tuple) : bool :=
  if negb (is_valid t) then false
  else true.

Definition set_posr (a : VertexAttributes) (r : Vector3r) : VertexAttributes :=
  {| m_posf := m_posf a; m_posr := r; rounded := rounded a; is_removed := is_removed a;
     m_is_on_surface := m_is_on_surface a; on_bbox_faces := on_bbox_faces a |}.

Definition set_rounded (a : VertexAttributes) (b : bool) : VertexAttributes :=
  {| m_posf := m_posf a; m_posr := m_posr a; rounded := b; is_removed := is_removed a;
     m_is_on_surface := m_is_on_surface a; on_bbox_faces := on_bbox_faces a |}.

Definition posf_as_rational (a : VertexAttributes) : Vector3r :=
  let '(x, y, z) := m_posf a in (to_rational x, to_rational y, to_rational z).

Definition round (va : VertAttCol) (i : Z) : bool * VertAttCol :=
  let v := tuple_from_vertex i in
  if negb (is_valid v) then (true, va)
  else if rounded (vattr va i) then (true, va)
  else
    let old_pos := m_posr (vattr va i) in
    let va1 := zset va i (set_posr (vattr va i) (posf_as_rational (vattr va i))) in
    let conn_tets := get_one_ring_tets_for_vertex v in
    let va2 := zset va1 i (set_rounded (vattr va1 i) true) in
    if existsb is_invert conn_tets
    then (false, zset va2 i (set_posr (set_rounded (vattr va2 i) false) old_pos))
    else (true, va2).

Definition vec3r_get (a : Vector3r) (k : Z) : Rational :=
  let '(x, y, z) := a in if k =? 0 then x else if k =? 1 then y else z.

(** The lambda [rational_energy_compute]. *)
Definition rational_coordinates (va : VertAttCol) (vs : list Z) : list Rational :=
  flat_map (fun j => map (fun k => vec3r_get (m_posr (vattr va (zth vs j 0))) k) [0; 1; 2])
           [0; 1; 2; 3].

Definition rational_energy_compute (va : VertAttCol) (vs : list Z) : float :=
  AMIPS_energy_rational_p3 (rational_coordinates va vs).

Definition float_coordinates (va : VertAttCol) (vs : list Z) : list float :=
  flat_map (fun j => map (fun k => vec_get (m_posf (vattr va (zth vs j 0))) k) [0; 1; 2])
           [0; 1; 2; 3].

(** The loop over the four vertices; [T] is the local array, [energy] starts
    at [-1.] and the loop stops at the first vertex that is not rounded. *)
Fixpoint quality_scan (va : VertAttCol) (vs : list Z) (js : list Z) (T : list float)
  : list float * float :=
  match js with
  | [] => (T, (-1)%float)
  | j :: r =>
      let a := vattr va (zth vs j 0) in
      if negb (rounded a) then (T, rational_energy_compute va vs)
      else quality_scan va vs r
             (fold_left (fun T' k => zset T' (j * 3 + k) (vec_get (m_posf a) k)) [0; 1; 2] T)
  end.

Definition min_valid_energy : float := (27 - 1e-3)%float.
Definition invalid_energy : float := 1e50%float.

(** The last two statements of [quality]. *)
Definition clamp_energy (energy : float) : float :=
  if is_infinity energy || is_nan energy || (energy <? min_valid_energy)%float
  then invalid_energy else energy.

(** [quality]; [T_init] is the content of the uninitialised local array. *)
Definition quality (va : VertAttCol) (t : Tuple) (T_init : list float) : float :=
  let vs := oriented_tet_vids t in
  let '(T, energy) := quality_scan va vs [0; 1; 2; 3] T_init in
  let energy1 := if (energy =? -1)%float then AMIPS_energy_stable_p3 T else energy in
  clamp_energy energy1.

End WithMesh.
End AdaMesh.

(** ** A concrete choice of collaborators, to run the model on small meshes *)

Module Reference.

(** The exact value of a finite [double]. *)
Definition float_to_Q (f : float) : option Q :=
  match Prim2SF f with
  | S754_zero _ => Some 0%Q
  | S754_finite s m e =>
      Some (Qmult (inject_Z (if s then Z.neg m else Z.pos m)) (Qpower 2%Q e))
  | _ => None
  end.

Definition vec_to_Q (a : Vec3d) : option (Q * Q * Q) :=
  let '(x, y, z) := a in
  match float_to_Q x, float_to_Q y, float_to_Q z with
  | Some qx, Some qy, Some qz => Some (qx, qy, qz)
  | _, _, _ => None
  end.

Definition Qsub3 (a b : Q * Q * Q) : Q * Q * Q :=
  let '(a0, a1, a2) := a in
  let '(b0, b1, b2) := b in
  (Qminus a0 b0, Qminus a1 b1, Qminus a2 b2).

Definition Qdet3 (u v w : Q * Q * Q) : Q :=
  let '(u0, u1, u2) := u in
  let '(v0, v1, v2) := v in
  let '(w0, w1, w2) := w in
  Qplus (Qminus (Qmult u0 (Qminus (Qmult v1 w2) (Qmult v2 w1)))
                (Qmult u1 (Qminus (Qmult v0 w2) (Qmult v2 w0))))
        (Qmult u2 (Qminus (Qmult v0 w1) (Qmult v1 w0))).

(** Exact orientation test: the signed volume of [(a, b, c, d)] is positive. *)
Definition orient3d_positive (a b c d : Vec3d) : bool :=
  match vec_to_Q a, vec_to_Q b, vec_to_Q c, vec_to_Q d with
  | Some qa, Some qb, Some qc, Some qd =>
      0 <? Qnum (Qdet3 (Qsub3 qb qa) (Qsub3 qc qa) (Qsub3 qd qa))
  | _, _, _, _ => false
  end.

Definition exact_validity (va : list VertAttr) (t : Vec4i) : bool :=
  let p i := pos (zth va (zth t i 0) VertAttr_default) in
  orient3d_positive (p 0) (p 1) (p 2) (p 3).

Definition list_minus (A B : list Z) : list Z :=
  filter (fun x => negb (existsb (Z.eqb x) B)) A.

(** Each triangle rotated so that its smallest index comes first. *)
Definition shift_triangle (f : Vec3i) : Vec3i :=
  match f with
  | [a; b; c] =>
      if (a <=? b) && (a <=? c) then [a; b; c]
      else if (b <=? a) && (b <=? c) then [b; c; a]
      else [c; a; b]
  | _ => f
  end.

(** The faces that belong to exactly one tet of the list. *)
Definition once_faces (tets : list Vec4i) : list Vec3i :=
  let faces := flat_map (fun t => map (sorted_face t) [0; 1; 2; 3]) tets in
  filter (fun f => Nat.eqb (List.length (filter (list_eqb f) faces)) 1) faces.

#[export] Instance no_grid : SpatialHash :=
  {| HashGrid := unit;
     remove_element := fun g _ => g;
     insert_triangles := fun g _ _ _ => g |}.

(** Validity is the exact orientation test; quality and size are constant, so
    that only the thresholds given to a call decide its gates; the shell
    oracle accepts and tracks nothing; the smoothing oracles find nothing and
    Newton's step lands on the origin. *)
#[export] Instance collaborators : Collaborators :=
  {| set_minus := list_minus;
     tetra_validity := exact_validity;
     tetra_quality := fun _ _ _ _ => 27%float;
     circumradi2 := fun _ _ _ _ => 1%float;
     attempt_shell_operation := fun _ _ _ _ moved_tris => (0, map (fun _ => []) moved_tris);
     triangle_shifts := map shift_triangle;
     boundary_facets := once_faces;
     newton_position_from_stack := fun _ => vec_zero;
     segment_triangle_intersection := fun _ _ => None;
     smoother_direction := fun _ _ _ _ _ _ _ _ => None;
     zoom := fun _ _ _ _ _ _ _ _ => None;
     rotate := fun _ _ _ _ _ _ _ _ => None |}.

(** Options for a shell of [n] vertices. *)
Definition options (n : nat) : RemeshOptions :=
  {| collapse_quality_threshold := 30%float; target_thickness := 0.1%float;
     target_adjustment := repeat 1%float n |}.

Definition no_ref : RefSurface := {| ref_V := []; ref_F := []; num_freeze := 0 |}.

Definition vertex (x y z : float) (shell : Z) : VertAttr := {| pos := (x, y, z); mid_id := shell |}.

Definition tet (c : Vec4i) (tags : Vec4i) : TetAttr :=
  {| prism_id := tags; is_removed := false; conn := c |}.

(** A shell whose three layers coincide with the given boundary positions. *)
Definition cage (ps : list Vec3d) (Fs : list Vec3i) : PrismCage :=
  {| base := ps; mid := ps; top := ps; F := Fs; track_ref := map (fun _ => []) Fs;
     grids := None; ref := no_ref |}.

(** *** Three tets around the interior edge (0, 1)

    Vertices 0 and 1 sit on the z axis one unit in the last place apart:
    [(1 + 0x1.0000000000001p+0) / 2] rounds to [1].  The ring 2, 3, 4 turns
    around the axis.  All five vertices and all six outer faces are on the
    shell; the edge (0, 1) is interior. *)
Definition ring_vertices : list VertAttr :=
  [vertex 0 0 1 0; vertex 0 0 0x1.0000000000001p+0 1;
   vertex 1 0 1 2; vertex 0 1 1 3; vertex (-1) (-1) 1 4].

Definition ring_tets : list TetAttr :=
  [tet [0; 1; 2; 3] [0; 1; -1; -1];
   tet [0; 1; 3; 4] [2; 3; -1; -1];
   tet [0; 1; 4; 2] [4; 5; -1; -1]].

Definition ring_shell_faces : list Vec3i :=
  [[1; 2; 3]; [0; 2; 3]; [1; 3; 4]; [0; 3; 4]; [1; 2; 4]; [0; 2; 4]].

Definition ring_mesh : Mesh :=
  {| pc := cage (map pos ring_vertices) ring_shell_faces;
     opt := options 5;
     vert_attrs := ring_vertices;
     tet_attrs := ring_tets;
     vert_conn := [[0; 1; 2]; [0; 1; 2]; [0; 2]; [0; 1]; [1; 2]] |}.

(** *** Three tets around the interior edge (0, 1), well shaped

    The edge runs from [(0, 0, -1)] to [(0, 0, 1)] through the triangle of the
    ring 2, 3, 4. *)
Definition spindle_vertices : list VertAttr :=
  [vertex 0 0 (-1) 0; vertex 0 0 1 1;
   vertex 1 0 0 2; vertex 0 1 0 3; vertex (-1) (-1) 0 4].

Definition spindle_mesh : Mesh :=
  {| pc := cage (map pos spindle_vertices) ring_shell_faces;
     opt := options 5;
     vert_attrs := spindle_vertices;
     tet_attrs := ring_tets;
     vert_conn := [[0; 1; 2]; [0; 1; 2]; [0; 2]; [0; 1]; [1; 2]] |}.

(** *** A tet (0, 1, 2, 3) with an interior vertex 4

    The four outer faces are on the shell; vertex 4 has no shell-id. *)
Definition star_vertices : list VertAttr :=
  [vertex 0 0 0 0; vertex 1 0 0 1; vertex 0 1 0 2; vertex 0 0 1 3;
   vertex 0.25 0.25 0.25 (-1)].

Definition star_tets : list TetAttr :=
  [tet [4; 1; 2; 3] [0; -1; -1; -1];
   tet [0; 4; 2; 3] [-1; 1; -1; -1];
   tet [0; 1; 4; 3] [-1; -1; 2; -1];
   tet [0; 1; 2; 4] [-1; -1; -1; 3]].

Definition star_mesh : Mesh :=
  {| pc := cage (map pos (firstn 4 star_vertices))
                [[1; 2; 3]; [0; 2; 3]; [0; 1; 3]; [0; 1; 2]];
     opt := options 4;
     vert_attrs := star_vertices;
     tet_attrs := star_tets;
     vert_conn := [[1; 2; 3]; [0; 2; 3]; [0; 1; 3]; [0; 1; 2]; [0; 1; 2; 3]] |}.

(** *** A single tet, all of it on the shell *)
Definition simplex_mesh : Mesh :=
  {| pc := cage (map pos (firstn 4 star_vertices))
                [[1; 2; 3]; [0; 2; 3]; [0; 1; 3]; [0; 1; 2]];
     opt := options 4;
     vert_attrs := firstn 4 star_vertices;
     tet_attrs := [tet [0; 1; 2; 3] [0; 1; 2; 3]];
     vert_conn := [[0]; [0]; [0]; [0]] |}.


(** The stores of [m] are the ones [prepare_tet_info] builds from its
    positions, connectivity and shell-ids, and [m] passes the audit. *)
Definition well_prepared (m : Mesh) : Prop :=
  prepare_tet_info (pc m) (map pos (vert_attrs m)) (map conn (tet_attrs m))
                   (map mid_id (vert_attrs m))
  = (vert_attrs m, tet_attrs m, vert_conn m) /\
  tetmesh_sanity (tet_attrs m) (vert_attrs m) (vert_conn m) (pc m) = true.


(** *** One positively oriented tet for AdaMesh

    Tuples are (vertex, tet) pairs over the single tet [0; 1; 2; 3]; the tet
    component is [-1] when there is none.  The two AMIPS energies are
    constants above the minimum. *)
#[export] Instance one_tet_mesh : AdaMesh.TetMesh :=
  {| AdaMesh.Tuple := (Z * Z)%type;
     AdaMesh.tuple_from_vertex := fun i => (i, if (0 <=? i) && (i <? 4) then 0 else -1);
     AdaMesh.is_valid := fun t => snd t =? 0;
     AdaMesh.get_one_ring_tets_for_vertex := fun t => if snd t =? 0 then [(fst t, 0)] else [];
     AdaMesh.oriented_tet_vids := fun _ => [0; 1; 2; 3];
     AdaMesh.to_rational := fun f => match float_to_Q f with Some q => q | None => 0%Q end;
     AdaMesh.AMIPS_energy_rational_p3 := fun _ => 30%float;
     AdaMesh.AMIPS_energy_stable_p3 := fun _ => 28%float |}.

Definition exact_vertex (x y z : float) (qx qy qz : Q) : AdaMesh.VertexAttributes :=
  {| AdaMesh.m_posf := (x, y, z); AdaMesh.m_posr := (qx, qy, qz);
     AdaMesh.rounded := false; AdaMesh.is_removed := false;
     AdaMesh.m_is_on_surface := false; AdaMesh.on_bbox_faces := [] |}.

(** The unit simplex, every vertex still unrounded, both positions equal. *)
Definition simplex_attrs : AdaMesh.VertAttCol :=
  [exact_vertex 0 0 0 0 0 0; exact_vertex 1 0 0 1 0 0;
   exact_vertex 0 1 0 0 1 0; exact_vertex 0 0 1 0 0 1].


End Reference.

(** ** Notions used to state further properties of the editors *)

Section ShellNotions.
Context {SH : SpatialHash} {CO : Collaborators}.

(** The four entries of a tet, as the loops over [j < 4] read them. *)
Definition tet_vertices (t : Vec4i) : list Z := map (fun i => zth t i 0) [0; 1; 2; 3].

(** The state of the adjacency in the middle of [update_tetra_conn]: [vc0] is
    the adjacency after the initial [resize], [S] the vertices whose list has
    been rewritten so far and [N] the (vertex, tet) pairs inserted so far. *)
Definition rewrite_invariant (affected : list Z) (vc0 vc : list (list Z))
    (S : list Z) (N : list (Z * Z)) : Prop :=
  List.length vc = List.length vc0 /\
  (forall v, In v S -> forall a, In a affected -> ~ In a (zth vc v [])) /\
  (forall v, ~ In v S -> zth vc v [] = zth vc0 v []) /\
  (forall v n, In (v, n) N -> 0 <= v < zlen vc -> In n (zth vc v [])) /\
  (forall v n, In (v, n) N -> ~ In n affected).

(** The pairs inserted for the tets appended from index [n0] on. *)
Fixpoint tet_pairs (n0 : Z) (tets : list Vec4i) : list (Z * Z) :=
  match tets with
  | [] => []
  | t :: r => map (fun v => (v, n0)) (tet_vertices t) ++ tet_pairs (n0 + 1) r
  end.

(** The counters of [face_duplicate] count the faces seen so far. *)
Definition counts_faces (fm : face_map) (seen : list (list Z)) : Prop :=
  forall k : list Z,
    map_find fm k = match List.length (filter (list_eqb k) seen) with
            | O => None
            | S n => Some (Z.of_nat (S n))
            end.

End ShellNotions.


(** Six times the signed volume of the tet [c] when vertex [v] sits at the
    exact position [P v]. *)
Definition signed_volume (P : Z -> Q * Q * Q) (c : Vec4i) : Q :=
  Reference.Qdet3 (Reference.Qsub3 (P (zth c 1 0)) (P (zth c 0 0)))
                  (Reference.Qsub3 (P (zth c 2 0)) (P (zth c 0 0)))
                  (Reference.Qsub3 (P (zth c 3 0)) (P (zth c 0 0))).


(** ** The drivers of tests/sphere_refine.cpp *)

Section Drivers.
Context {SH : SpatialHash} {CO : Collaborators}.

(** [convert_to_VT]: the vertex matrix, the rows of the tets that are not
    removed, and the shell-ids. *)
Definition convert_to_VT (va : list VertAttr) (ta : list TetAttr)
  : list Vec3d * list Vec4i * list Z :=
  (map pos va,
   map (fun t => map (fun j => zth (conn t) j 0) [0; 1; 2; 3]) (live_tets ta),
   map mid_id va).

(** The loops [while (!queue.empty())] of the tests "sphere-tet-swap" and
    "reload-swap": every entry that leaves the queue is offered to the
    editor and the flag it returns is ignored; an exception ends the run.
    [queue] is the sequence in which the priority queue releases its
    entries. *)
Fixpoint swap_face_pass (queue : list (Z * Z * Z)) (sizing : float) (m : Mesh)
  : String.string + Mesh :=
  match queue with
  | [] => inr m
  | (v0, v1, v2) :: r =>
      match swap_face m v0 v1 v2 sizing with
      | Returned _ m' => swap_face_pass r sizing m'
      | Thrown msg => inl msg
      end
  end.

Fixpoint swap_edge_pass (queue : list (Z * Z)) (sizing : float) (m : Mesh)
  : String.string + Mesh :=
  match queue with
  | [] => inr m
  | (v0, v1) :: r =>
      match swap_edge m v0 v1 sizing with
      | Returned _ m' => swap_edge_pass r sizing m'
      | Thrown msg => inl msg
      end
  end.

(** The collapse loop skips an edge that no tet has any more. *)
Fixpoint collapse_pass (queue : list (Z * Z)) (sizing : float) (m : Mesh)
  : String.string + Mesh :=
  match queue with
  | [] => inr m
  | (v0, v1) :: r =>
      if is_nil (set_inter (zth (vert_conn m) v0 []) (zth (vert_conn m) v1 []))
      then collapse_pass r sizing m
      else
        match collapse_edge m v0 v1 sizing with
        | Returned _ m' => collapse_pass r sizing m'
        | Thrown msg => inl msg
        end
  end.

(** The three passes of "reload-swap"; each queue is built from the mesh as
    it is when its pass starts. *)
Definition reload_swap (face_queue : Mesh -> list (Z * Z * Z))
    (edge_queue collapse_queue : Mesh -> list (Z * Z)) (sizing : float) (m : Mesh)
  : String.string + Mesh :=
  match swap_face_pass (face_queue m) sizing m with
  | inl msg => inl msg
  | inr m1 =>
      match swap_edge_pass (edge_queue m1) sizing m1 with
      | inl msg => inl msg
      | inr m2 => collapse_pass (collapse_queue m2) sizing m2
      end
  end.

End Drivers.


(** ** [compact_tetmesh] *)

Section Compaction.
Context {SH : SpatialHash}.

(** One round of the first loop: a vertex with a non-empty adjacency list
    moves down to slot [real_vnum]. *)
Definition compact_vertex (vc : list (list Z)) (st : list VertAttr * list Z * Z) (i : Z)
  : list VertAttr * list Z * Z :=
  let '(va, vert_map_old2new, real_vnum) := st in
  if is_nil (zth vc i []) then st
  else
    (if negb (real_vnum =? i) then zset va real_vnum (zth va i VertAttr_default) else va,
     zset vert_map_old2new i real_vnum,
     real_vnum + 1).

(** [vi = vert_map_old2new[vi]; new_vt_conn[vi].push_back(real_tnum)] on entry
    [j] of the tet in slot [real_tnum]. *)
Definition renumber_entry (vert_map_old2new : list Z) (real_tnum : Z)
    (st : list TetAttr * list (list Z)) (j : Z) : list TetAttr * list (list Z) :=
  let '(ta, new_vt_conn) := st in
  let t := zth ta real_tnum TetAttr_default in
  let vi := zth vert_map_old2new (zth (conn t) j 0) 0 in
  (zset ta real_tnum
        {| prism_id := prism_id t; is_removed := is_removed t; conn := zset (conn t) j vi |},
   zset new_vt_conn vi (zth new_vt_conn vi [] ++ [real_tnum])).

(** One round of the second loop; [tet_map_old2new] is written and never
    read, and is left out. *)
Definition compact_tet (vert_map_old2new : list Z)
    (st : list TetAttr * list (list Z) * Z) (i : Z) : list TetAttr * list (list Z) * Z :=
  let '(ta, new_vt_conn, real_tnum) := st in
  if is_removed (zth ta i TetAttr_default) then st
  else
    let ta1 :=
      if negb (real_tnum =? i) then zset ta real_tnum (zth ta i TetAttr_default) else ta in
    let '(ta2, conn2) :=
      fold_left (renumber_entry vert_map_old2new real_tnum) [0; 1; 2; 3] (ta1, new_vt_conn) in
    (ta2, conn2, real_tnum + 1).

(** [compact_tetmesh]; [cleanup_empty_faces] is the method of the shell, which
    hands back the shell and the maps [vid_map] and [face_map_o2n], and [p] is
    [None] for a null [pc]. *)
Definition compact_tetmesh (cleanup_empty_faces : PrismCage -> PrismCage * list Z * list Z)
    (va : list VertAttr) (ta : list TetAttr) (vc : list (list Z)) (p : option PrismCage)
  : list VertAttr * list TetAttr * list (list Z) * option PrismCage :=
  let '(va1, vert_map_old2new, real_vnum) :=
    fold_left (compact_vertex vc) (indices va) (va, repeat (-1) (List.length va), 0) in
  let va2 := resize va1 real_vnum VertAttr_default in
  let '(ta1, new_vt_conn, real_tnum) :=
    fold_left (compact_tet vert_map_old2new) (indices ta)
              (ta, repeat [] (Z.to_nat real_vnum), 0) in
  let ta2 := resize ta1 real_tnum TetAttr_default in
  match p with
  | None => (va2, ta2, new_vt_conn, None)
  | Some p0 =>
      let '(p1, vid_map, face_map_o2n) := cleanup_empty_faces p0 in
      (map (fun v =>
              if negb (mid_id v =? -1) then set_mid_id v (zth vid_map (mid_id v) 0) else v) va2,
       map (fun t =>
              {| prism_id :=
                   fold_left (fun pr j =>
                       if negb (zth pr j 0 =? -1)
                       then zset pr j (zth face_map_o2n (zth pr j 0) 0) else pr)
                     [0; 1; 2; 3] (prism_id t);
                 is_removed := is_removed t;
                 conn := conn t |}) ta2,
       new_vt_conn, Some p1)
  end.

(** The indices below [k] that satisfy [keep], in ascending order, and the
    number of them: the new index of the entry at [k]. *)
Definition kept_below (keep : Z -> bool) (k : nat) : list Z :=
  filter keep (map Z.of_nat (seq 0 k)).

Definition new_index (keep : Z -> bool) (i : Z) : Z := zlen (kept_below keep (Z.to_nat i)).

(** A tet whose four entries have gone through the old-to-new vertex map. *)
Definition renumber_conn (old2new : list Z) (c : Vec4i) : Vec4i :=
  fold_left (fun c' j => zset c' j (zth old2new (zth c' j 0) 0)) [0; 1; 2; 3] c.

Definition renumbered (old2new : list Z) (t : TetAttr) : TetAttr :=
  {| prism_id := prism_id t; is_removed := is_removed t;
     conn := renumber_conn old2new (conn t) |}.

End Compaction.


(** ** AdaMesh: the face attributes across an operation *)

Module AdaMeshFaces.
Import AdaMesh.

Record FaceAttributes : Type := mkFaceAttributes {
  track_prisms : list Z;
  m_is_surface_fs : bool;
  m_is_bbox_fs : Z;
  m_surface_tags : Z
}.

Definition FaceAttributes_default : FaceAttributes :=
  {| track_prisms := []; m_is_surface_fs := false; m_is_bbox_fs := -1; m_surface_tags := -1 |}.

(** [FaceAttributes::reset]: the tracked prisms stay. *)
Definition reset (a : FaceAttributes) : FaceAttributes :=
  {| track_prisms := track_prisms a; m_is_surface_fs := false; m_is_bbox_fs := -1;
     m_surface_tags := -1 |}.

(** The face queries of [wmtk::TetMesh] on the mesh as it is at the call:
    for face [j] of the tet of a tuple, the global face id
    ([tuple_from_face(t.tid(m), j).fid(m)]) and the three vertex ids
    ([get_face_vertices]). *)
Class FaceQueries {TM : TetMesh} : Type := {
  face_fid : Tuple -> Z -> Z;
  face_vids : Tuple -> Z -> list Z
}.

Definition FaceAttCol : Type := list FaceAttributes.

(** [std::map<std::array<size_t, 3>, FaceAttributes>], on which only
    [clear], [emplace], [erase] and [find] are used. *)
Definition changed_map : Type := list (list Z * FaceAttributes).

Fixpoint changed_find (m : changed_map) (k : list Z) : option FaceAttributes :=
  match m with
  | [] => None
  | (k', a) :: r => if list_eqb k' k then Some a else changed_find r k
  end.

Definition changed_erase (m : changed_map) (k : list Z) : changed_map :=
  filter (fun e => negb (list_eqb (fst e) k)) m.

Section WithFaces.
Context {TM : TetMesh}.

(** The pairs (tet, local face) in the order of the two nested loops. *)
Definition tet_faces (incident_tets : list Tuple) : list (Tuple * Z) :=
  flat_map (fun t => map (fun j => (t, j)) [0; 1; 2; 3]) incident_tets.

Context {FQ : FaceQueries}.

(** The sorted vertex triple of a face: the key of the map. *)
Definition face_key (tj : Tuple * Z) : list Z := sort (face_vids (fst tj) (snd tj)).

(** One round of the loop of [face_attribute_tracker]: [emplace], and
    [erase] when the key was already there. *)
Definition tracker_visit (fa : FaceAttCol) (changed_faces : changed_map) (tj : Tuple * Z)
  : changed_map :=
  match changed_find changed_faces (face_key tj) with
  | None =>
      changed_faces ++
      [(face_key tj, zth fa (face_fid (fst tj) (snd tj)) FaceAttributes_default)]
  | Some _ => changed_erase changed_faces (face_key tj)
  end.

(** [face_attribute_tracker]: the flag and [changed_faces]; the set
    [middle_face] is filled and never read (the loop over it is commented
    out), and is left out. *)
Definition face_attribute_tracker (incident_tets : list Tuple) (fa : FaceAttCol)
  : bool * changed_map :=
  (true, fold_left (tracker_visit fa) (tet_faces incident_tets) []).

(** One round of the first loop of [tracker_assign_after]. *)
Definition assign_visit (changed_faces : changed_map) (st : FaceAttCol * list Z)
    (tj : Tuple * Z) : FaceAttCol * list Z :=
  let '(fa, middle_face) := st in
  match changed_find changed_faces (face_key tj) with
  | None => (fa, middle_face ++ [face_fid (fst tj) (snd tj)])
  | Some a => (zset fa (face_fid (fst tj) (snd tj)) a, middle_face)
  end.

Definition tracker_assign_after (incident_tets : list Tuple) (changed_faces : changed_map)
    (fa : FaceAttCol) : FaceAttCol :=
  let '(fa1, middle_face) :=
    fold_left (assign_visit changed_faces) (tet_faces incident_tets) (fa, []) in
  fold_left (fun fa' f => zset fa' f (reset (zth fa' f FaceAttributes_default)))
            middle_face fa1.

End WithFaces.
End AdaMeshFaces.


(** ** Further sample inputs *)

Module Samples.
Import Reference.

(** *** Two tets across the face (2, 3, 4)

    The vertices of [spindle_mesh], with the apexes 0 and 1 on either side of
    the triangle 2, 3, 4; all six outer faces are on the shell. *)
Definition lens_mesh : Mesh :=
  {| pc := cage (map pos spindle_vertices) ring_shell_faces;
     opt := options 5;
     vert_attrs := spindle_vertices;
     tet_attrs := [tet [0; 4; 2; 3] [-1; 1; 3; 5]; tet [2; 1; 3; 4] [2; -1; 4; 0]];
     vert_conn := [[0]; [1]; [0; 1]; [0; 1]; [0; 1]] |}.

(** *** A tet (0, 1, 2, 3) around the origin with an interior vertex 4

    The origin, where Newton's step of the reference collaborators lands, is
    inside the outer tet. *)
Definition hub_vertices : list VertAttr :=
  [vertex 1 1 1 0; vertex (-1) 1 (-1) 1; vertex 1 (-1) (-1) 2; vertex (-1) (-1) 1 3;
   vertex 0.25 0.25 0.25 (-1)].

Definition hub_mesh : Mesh :=
  {| pc := cage (map pos (firstn 4 hub_vertices))
                [[1; 2; 3]; [0; 2; 3]; [0; 1; 3]; [0; 1; 2]];
     opt := options 4;
     vert_attrs := hub_vertices;
     tet_attrs := star_tets;
     vert_conn := [[1; 2; 3]; [0; 2; 3]; [0; 1; 3]; [0; 1; 2]; [0; 1; 2; 3]] |}.

(** *** Stores with a removed tet and a vertex that no tet uses

    Tet 0 is removed; vertex 1 is used by no other tet. *)
Definition sparse_tets : list TetAttr :=
  [{| prism_id := [-1; -1; -1; -1]; is_removed := true; conn := [0; 1; 2; 3] |};
   tet [0; 4; 2; 3] [-1; -1; -1; -1]].

Definition sparse_conn : list (list Z) := [[1]; []; [1]; [1]; [1]].

(** A shell that has nothing to clean up. *)
Definition no_cleanup (p : PrismCage) : PrismCage * list Z * list Z := (p, [], []).

(** The faces of the single tet of [one_tet_mesh]: face [j] is opposite to
    vertex [j] and has the global id [j]. *)
Definition one_tet_faces : AdaMeshFaces.FaceQueries :=
  {| AdaMeshFaces.face_fid := fun _ j => j;
     AdaMeshFaces.face_vids := fun _ j => sorted_face [0; 1; 2; 3] j |}.

(** Collaborators whose circumradius is never a number; the rest is that of
    [Reference.collaborators]. *)
Definition nan_sizes : Collaborators :=
  {| set_minus := list_minus;
     tetra_validity := exact_validity;
     tetra_quality := fun _ _ _ _ => 27%float;
     circumradi2 := fun _ _ _ _ => nan;
     attempt_shell_operation := fun _ _ _ _ moved_tris => (0, map (fun _ => []) moved_tris);
     triangle_shifts := map shift_triangle;
     boundary_facets := once_faces;
     newton_position_from_stack := fun _ => vec_zero;
     segment_triangle_intersection := fun _ _ => None;
     smoother_direction := fun _ _ _ _ _ _ _ _ => None;
     zoom := fun _ _ _ _ _ _ _ _ => None;
     rotate := fun _ _ _ _ _ _ _ _ => None |}.

(** Collaborators whose quality energy and squared circumradius depend on
    the positions: the energy of a tet is [40 - 16 * (sum of x * y)] and its
    size [2 + (sum of z + x * x)] over its four vertices; the rest is that of
    [Reference.collaborators]. *)
Definition graded : Collaborators :=
  {| set_minus := list_minus;
     tetra_validity := exact_validity;
     tetra_quality := fun p0 p1 p2 p3 =>
       let xy := fun p : Vec3d => (vec_get p 0 * vec_get p 1)%float in
       (40 - 16 * (xy p0 + xy p1 + xy p2 + xy p3))%float;
     circumradi2 := fun p0 p1 p2 p3 =>
       let w := fun p : Vec3d => (vec_get p 2 + vec_get p 0 * vec_get p 0)%float in
       (2 + (w p0 + w p1 + w p2 + w p3))%float;
     attempt_shell_operation := fun _ _ _ _ moved_tris => (0, map (fun _ => []) moved_tris);
     triangle_shifts := map shift_triangle;
     boundary_facets := once_faces;
     newton_position_from_stack := fun _ => vec_zero;
     segment_triangle_intersection := fun _ _ => None;
     smoother_direction := fun _ _ _ _ _ _ _ _ => None;
     zoom := fun _ _ _ _ _ _ _ _ => None;
     rotate := fun _ _ _ _ _ _ _ _ => None |}.

(** *** Two tets across the face (2, 3, 4), the lower apex off the axis

    [lens_mesh] with vertex 0 moved to [(1, 1, -4)]; the segment between the
    apexes still crosses the triangle 2, 3, 4. *)
Definition steep_vertices : list VertAttr :=
  [vertex 1 1 (-4) 0; vertex 0 0 1 1;
   vertex 1 0 0 2; vertex 0 1 0 3; vertex (-1) (-1) 0 4].

Definition steep_lens_mesh : Mesh :=
  {| pc := cage (map pos steep_vertices) ring_shell_faces;
     opt := options 5;
     vert_attrs := steep_vertices;
     tet_attrs := tet_attrs lens_mesh;
     vert_conn := vert_conn lens_mesh |}.

(** [star_mesh] with a quality threshold that is not a number. *)
Definition lax_star_mesh : Mesh :=
  {| pc := pc star_mesh;
     opt := {| collapse_quality_threshold := nan; target_thickness := 0.1%float;
               target_adjustment := repeat 1%float 4 |};
     vert_attrs := vert_attrs star_mesh;
     tet_attrs := tet_attrs star_mesh;
     vert_conn := vert_conn star_mesh |}.

(** The single tet of [one_tet_mesh] with energies that read their
    argument: the rational energy is [30] when the twelve exact coordinates
    sum up to 3 and [-1] otherwise, the floating-point energy is 28 plus the
    sum of the twelve entries of the array. *)
Definition weighing_mesh : AdaMesh.TetMesh :=
  {| AdaMesh.Tuple := (Z * Z)%type;
     AdaMesh.tuple_from_vertex := fun i => (i, if (0 <=? i) && (i <? 4) then 0 else -1);
     AdaMesh.is_valid := fun t => snd t =? 0;
     AdaMesh.get_one_ring_tets_for_vertex := fun t => if snd t =? 0 then [(fst t, 0)] else [];
     AdaMesh.oriented_tet_vids := fun _ => [0; 1; 2; 3];
     AdaMesh.to_rational := fun f => match float_to_Q f with Some q => q | None => 0%Q end;
     AdaMesh.AMIPS_energy_rational_p3 := fun l =>
       if Qeq_bool (fold_right Qplus 0%Q l) 3%Q then 30%float else (-1)%float;
     AdaMesh.AMIPS_energy_stable_p3 := fun l => fold_right PrimFloat.add 28%float l |}.

(** Vertex 0 rounded at [(1, 1, 1)], the other three as in [simplex_attrs]:
    the twelve exact coordinates sum up to 6. *)
Definition half_rounded_attrs : AdaMesh.VertAttCol :=
  [{| AdaMesh.m_posf := (1, 1, 1)%float; AdaMesh.m_posr := (1%Q, 1%Q, 1%Q);
      AdaMesh.rounded := true; AdaMesh.is_removed := false;
      AdaMesh.m_is_on_surface := false; AdaMesh.on_bbox_faces := [] |};
   exact_vertex 1 0 0 1 0 0; exact_vertex 0 1 0 0 1 0; exact_vertex 0 0 1 0 0 1].

End Samples.



(** * Properties *)

(** ** Comparisons of doubles *)

Lemma SFcompare_antisym (x y : spec_float) :
  SFcompare y x = option_map CompOpp (SFcompare x y).
Proof.
  destruct x as [sx|sx| |sx mx ex], y as [sy|sy| |sy my ey]; simpl; try reflexivity;
    try (destruct sx; reflexivity); try (destruct sy; reflexivity);
    try (destruct sx, sy; reflexivity).
  destruct sx, sy; simpl; try reflexivity;
    rewrite (Z.compare_antisym ex ey);
    destruct (ex ?= ey)%Z; simpl; try reflexivity;
    change (Pos.compare_cont Eq my mx) with (Pos.compare my mx);
    change (Pos.compare_cont Eq mx my) with (Pos.compare mx my);
    rewrite (Pos.compare_antisym mx my); destruct (mx ?= my)%positive; reflexivity.
Qed.

Lemma is_nan_compare (x : float) :
  is_nan x = false <-> SFcompare (Prim2SF x) (Prim2SF x) = Some Eq.
Proof.
  unfold is_nan. rewrite FloatAxioms.eqb_spec. unfold SFeqb.
  destruct (SFcompare (Prim2SF x) (Prim2SF x)) as [[]|]; simpl; split; congruence.
Qed.

Lemma SFcompare_defined (x y : spec_float) :
  SFcompare x x = Some Eq -> SFcompare y y = Some Eq -> SFcompare x y <> None.
Proof.
  destruct x, y; simpl; congruence.
Qed.

Lemma SFcompare_none_left (x y : spec_float) :
  SFcompare x y <> None -> SFcompare x x <> None /\ SFcompare y y <> None.
Proof.
  destruct x, y; simpl; split; congruence.
Qed.

Lemma SFcompare_refl_eq (x : spec_float) :
  SFcompare x x <> None -> SFcompare x x = Some Eq.
Proof.
  intros H. pose proof (SFcompare_antisym x x) as A.
  destruct (SFcompare x x) as [[]|]; simpl in A; congruence.
Qed.

(** A true comparison has no NaN operand. *)
Lemma ltb_true_not_nan (x y : float) :
  (x <? y)%float = true -> is_nan x = false /\ is_nan y = false.
Proof.
  rewrite FloatAxioms.ltb_spec. unfold SFltb. intros H.
  destruct (SFcompare_none_left (Prim2SF x) (Prim2SF y)) as [Hx Hy].
  - destruct (SFcompare (Prim2SF x) (Prim2SF y)); congruence.
  - split; apply is_nan_compare; apply SFcompare_refl_eq; assumption.
Qed.

Lemma nan_ltb_false (x y : float) : is_nan x = true -> (x <? y)%float = false.
Proof.
  intros H. destruct (x <? y)%float eqn:E; [|reflexivity].
  apply ltb_true_not_nan in E. destruct E as [E _]. congruence.
Qed.

Lemma ltb_nan_false (x y : float) : is_nan y = true -> (x <? y)%float = false.
Proof.
  intros H. destruct (x <? y)%float eqn:E; [|reflexivity].
  apply ltb_true_not_nan in E. destruct E as [_ E]. congruence.
Qed.

(** Without NaN, [not (x < y)] is [y <= x]. *)
Lemma not_ltb_leb (x y : float) :
  is_nan x = false -> is_nan y = false ->
  (x <? y)%float = false -> (y <=? x)%float = true.
Proof.
  intros Hx Hy. rewrite FloatAxioms.ltb_spec, FloatAxioms.leb_spec. unfold SFltb, SFleb.
  apply is_nan_compare in Hx. apply is_nan_compare in Hy.
  pose proof (SFcompare_defined _ _ Hx Hy) as D.
  rewrite (SFcompare_antisym (Prim2SF x) (Prim2SF y)).
  destruct (SFcompare (Prim2SF x) (Prim2SF y)) as [[]|]; simpl; congruence.
Qed.

Lemma leb_not_ltb (x y : float) :
  (y <=? x)%float = true -> (x <? y)%float = false.
Proof.
  rewrite FloatAxioms.ltb_spec, FloatAxioms.leb_spec. unfold SFltb, SFleb.
  rewrite (SFcompare_antisym (Prim2SF x) (Prim2SF y)).
  destruct (SFcompare (Prim2SF x) (Prim2SF y)) as [[]|]; simpl; congruence.
Qed.

Lemma Pcompare_cont_spec (a b : positive) :
  CompareSpec (a = b) (a < b)%positive (b < a)%positive (Pos.compare_cont Eq a b).
Proof. apply Pos.compare_spec. Qed.

Lemma SFleb_trans (x y z : spec_float) :
  SFleb x y = true -> SFleb y z = true -> SFleb x z = true.
Proof.
  unfold SFleb.
  destruct x as [sx|sx| |sx mx ex], y as [sy|sy| |sy my ey], z as [sz|sz| |sz mz ez];
    simpl; try discriminate; try reflexivity;
    repeat match goal with s : bool |- _ => destruct s end;
    simpl; try discriminate; try reflexivity;
    repeat match goal with
           | |- context [(?a ?= ?b)%Z] => destruct (Z.compare_spec a b)
           | |- context [Pos.compare_cont Eq ?a ?b] => destruct (Pcompare_cont_spec a b)
           end; simpl; try discriminate; try reflexivity; intros; exfalso; lia.
Qed.

Lemma leb_trans (x y z : float) :
  (x <=? y)%float = true -> (y <=? z)%float = true -> (x <=? z)%float = true.
Proof. rewrite !FloatAxioms.leb_spec. apply SFleb_trans. Qed.

Lemma leb_refl (x : float) : is_nan x = false -> (x <=? x)%float = true.
Proof.
  intros H. apply is_nan_compare in H. rewrite FloatAxioms.leb_spec. unfold SFleb.
  now rewrite H.
Qed.

Lemma ltb_leb (x y : float) : (x <? y)%float = true -> (x <=? y)%float = true.
Proof.
  rewrite FloatAxioms.ltb_spec, FloatAxioms.leb_spec. unfold SFltb, SFleb.
  destruct (SFcompare (Prim2SF x) (Prim2SF y)) as [[]|]; congruence.
Qed.

Lemma fmax_ge_l (a b : float) : is_nan a = false -> (a <=? fmax a b)%float = true.
Proof.
  intros Ha. unfold fmax. destruct (a <? b)%float eqn:E.
  - now apply ltb_leb.
  - now apply leb_refl.
Qed.

Lemma fmax_ge_r (a b : float) :
  is_nan a = false -> is_nan b = false -> (b <=? fmax a b)%float = true.
Proof.
  intros Ha Hb. unfold fmax. destruct (a <? b)%float eqn:E.
  - now apply leb_refl.
  - now apply not_ltb_leb.
Qed.


Lemma fmax_not_nan_l (a b : float) : is_nan a = false -> is_nan (fmax a b) = false.
Proof.
  intros Ha. unfold fmax. destruct (a <? b)%float eqn:E; [|assumption].
  apply ltb_true_not_nan in E. tauto.
Qed.

(** ** Vectors by index *)

Lemma set_nth_length {A : Type} (l : list A) (n : nat) (x : A) :
  List.length (set_nth l n x) = List.length l.
Proof.
  revert n; induction l as [|y r IH]; intros [|n]; simpl; auto.
Qed.

Lemma set_nth_set_nth {A : Type} (l : list A) (n : nat) (x y : A) :
  set_nth (set_nth l n x) n y = set_nth l n y.
Proof.
  revert n; induction l as [|z r IH]; intros [|n]; simpl; auto. now rewrite IH.
Qed.

Lemma set_nth_same {A : Type} (l : list A) (n : nat) (d : A) :
  set_nth l n (nth n l d) = l.
Proof.
  revert n; induction l as [|z r IH]; intros [|n]; simpl; auto. now rewrite IH.
Qed.

Lemma nth_set_nth {A : Type} (l : list A) (n : nat) (x d : A) :
  (n < List.length l)%nat -> nth n (set_nth l n x) d = x.
Proof.
  revert n; induction l as [|z r IH]; intros [|n] H; simpl in *; try lia; auto.
  apply IH. lia.
Qed.

Lemma set_nth_beyond {A : Type} (l : list A) (n : nat) (x : A) :
  (List.length l <= n)%nat -> set_nth l n x = l.
Proof.
  revert n; induction l as [|z r IH]; intros [|n] H; simpl in *; try lia; auto.
  now rewrite IH by lia.
Qed.

Lemma zset_zset {A : Type} (l : list A) (i : Z) (x y : A) :
  zset (zset l i x) i y = zset l i y.
Proof.
  unfold zset. destruct (i <? 0); [reflexivity|apply set_nth_set_nth].
Qed.

Lemma zset_same {A : Type} (l : list A) (i : Z) (d : A) :
  zset l i (zth l i d) = l.
Proof.
  unfold zset, zth. destruct (i <? 0); [reflexivity|apply set_nth_same].
Qed.

Lemma zset_length {A : Type} (l : list A) (i : Z) (x : A) :
  List.length (zset l i x) = List.length l.
Proof.
  unfold zset. destruct (i <? 0); [reflexivity|apply set_nth_length].
Qed.

(** Writing then reading back, or nothing was written at all. *)
Lemma zth_zset_cases {A : Type} (l : list A) (i : Z) (x d : A) :
  zth (zset l i x) i d = x \/ zset l i x = l.
Proof.
  unfold zset, zth. destruct (i <? 0); [now right|].
  destruct (Nat.lt_ge_cases (Z.to_nat i) (List.length l)) as [H|H].
  - left. now apply nth_set_nth.
  - right. now apply set_nth_beyond.
Qed.

Lemma zth_app_l {A : Type} (l r : list A) (i : Z) (d : A) :
  0 <= i < zlen l -> zth (l ++ r) i d = zth l i d.
Proof.
  unfold zth, zlen. intros H. destruct (i <? 0) eqn:E; [lia|].
  apply app_nth1. lia.
Qed.

Lemma removelast_snoc {A : Type} (l : list A) (x : A) : removelast (l ++ [x]) = l.
Proof. apply removelast_last. Qed.

Lemma set_last_snoc {A : Type} (l : list A) (x y : A) : set_last (l ++ [x]) y = l ++ [y].
Proof.
  unfold set_last. destruct (l ++ [x]) eqn:E.
  - destruct l; discriminate.
  - rewrite <- E, removelast_snoc. reflexivity.
Qed.

(** ** The editors *)

Section ShellProperties.
Context {SH : SpatialHash} {CO : Collaborators}.

(** Case analysis along the control flow of an embedded function. *)
Ltac break_flow H :=
  cbv beta zeta in H;
  repeat (match type of H with
          | context [match ?c with _ => _ end] => destruct c eqn:?
          end; try discriminate H).

Lemma compute_quality_fold_not_nan (va : list VertAttr) (tets : list Vec4i) (q0 : float) :
  is_nan q0 = false ->
  is_nan (fold_left (fun maxqual t => fmax maxqual (tet_quality_of va t)) tets q0) = false.
Proof.
  revert q0; induction tets as [|t r IH]; intros q0 H; simpl; [assumption|].
  apply IH. now apply fmax_not_nan_l.
Qed.

(** [compute_quality] never yields NaN: a NaN quality never wins [std::max]. *)
Lemma compute_quality_not_nan (va : list VertAttr) (tets : list Vec4i) :
  is_nan (compute_quality va tets) = false.
Proof. apply compute_quality_fold_not_nan. reflexivity. Qed.

Lemma compute_quality_fold_upper (va : list VertAttr) (tets : list Vec4i) (q0 : float) :
  is_nan q0 = false ->
  (q0 <=? fold_left (fun maxqual t => fmax maxqual (tet_quality_of va t)) tets q0)%float
    = true /\
  forall t, In t tets -> is_nan (tet_quality_of va t) = false ->
    (tet_quality_of va t
     <=? fold_left (fun maxqual t => fmax maxqual (tet_quality_of va t)) tets q0)%float = true.
Proof.
  revert q0; induction tets as [|t r IH]; intros q0 H0; simpl.
  - split; [now apply leb_refl|]. intros t [].
  - destruct (IH (fmax q0 (tet_quality_of va t)) (fmax_not_nan_l _ _ H0)) as [B U].
    split.
    + eapply leb_trans; [apply fmax_ge_l; exact H0|exact B].
    + intros t' [E|Ht'] Hq; [subst t'|now apply U].
      apply (leb_trans _ (fmax q0 (tet_quality_of va t))); [|exact B].
      apply fmax_ge_r; assumption.
Qed.

(** [compute_quality] bounds the quality energy of every listed tet (a NaN
    energy apart, which [std::max] lets pass). *)
Lemma compute_quality_upper (va : list VertAttr) (tets : list Vec4i) (t : Vec4i) :
  In t tets -> is_nan (tet_quality_of va t) = false ->
  (tet_quality_of va t <=? compute_quality va tets)%float = true.
Proof.
  intros Ht Hq. unfold compute_quality.
  destruct (compute_quality_fold_upper va tets 0%float eq_refl) as [_ U]. now apply U.
Qed.

Lemma compute_quality_fold_attained (va : list VertAttr) (tets : list Vec4i) (q0 : float) :
  fold_left (fun maxqual t => fmax maxqual (tet_quality_of va t)) tets q0 = q0 \/
  exists t, In t tets /\
    fold_left (fun maxqual t => fmax maxqual (tet_quality_of va t)) tets q0 =
    tet_quality_of va t.
Proof.
  revert q0; induction tets as [|t r IH]; intros q0; simpl; [now left|].
  destruct (IH (fmax q0 (tet_quality_of va t))) as [E|(t' & Ht' & E)].
  - rewrite E. unfold fmax. destruct (q0 <? tet_quality_of va t)%float; [|now left].
    right. exists t. auto.
  - right. exists t'. auto.
Qed.

(** ... and it is the energy of one of them, or the initial [0.]. *)
Lemma compute_quality_attained (va : list VertAttr) (tets : list Vec4i) :
  compute_quality va tets = 0%float \/
  exists t, In t tets /\ compute_quality va tets = tet_quality_of va t.
Proof. apply compute_quality_fold_attained. Qed.


Lemma audited_true (m m' : Mesh) (msg : String.string) (b : bool) :
  audited m msg = Returned b m' ->
  b = true /\ m' = m /\
  tetmesh_sanity (tet_attrs m) (vert_attrs m) (vert_conn m) (pc m) = true.
Proof.
  unfold audited. destruct (tetmesh_sanity _ _ _ _); intros H; inversion H; auto.
Qed.

(** The third check of the audit is the boundary-count equation. *)
Lemma sanity_counts (ta : list TetAttr) (va : list VertAttr) (vtc : list (list Z))
    (p : PrismCage) :
  tetmesh_sanity ta va vtc p = true -> zlen (boundary_faces ta) = count_pc_faces p.
Proof.
  unfold tetmesh_sanity.
  destruct (sanity_valid ta va); simpl; [|discriminate].
  destruct (sanity_duplicates _ _ _); simpl; [|discriminate].
  destruct (zlen (boundary_faces ta) =? count_pc_faces p) eqn:E; simpl; [|discriminate].
  intros _. now apply Z.eqb_eq.
Qed.

Lemma rewrite_conn_stores (m m1 : Mesh) affected new_tets new_fid moved_tris :
  rewrite_conn m affected new_tets new_fid moved_tris = inr m1 ->
  pc m1 = pc m /\ opt m1 = opt m /\ vert_attrs m1 = vert_attrs m.
Proof.
  unfold rewrite_conn. destruct (update_tetra_conn _ _ _ _ _ _ _) as [|[ta vc]];
    intros H; inversion H; subst; auto.
Qed.

(** A rejected [swap_edge] has touched nothing. *)
Lemma swap_edge_false_unchanged (m m' : Mesh) (v1 v2 : Z) (sc : float) :
  swap_edge m v1 v2 sc = Returned false m' -> m' = m.
Proof.
  unfold swap_edge. intros H. break_flow H;
    try (inversion H; subst; reflexivity).
  apply audited_true in H. destruct H as [H _]. discriminate.
Qed.

Lemma swap_face_false_unchanged (m m' : Mesh) (v0 v1 v2 : Z) (sc : float) :
  swap_face m v0 v1 v2 sc = Returned false m' -> m' = m.
Proof.
  unfold swap_face. intros H. break_flow H;
    try (inversion H; subst; reflexivity).
  apply audited_true in H. destruct H as [H _]. discriminate.
Qed.

Lemma collapse_edge_false_unchanged (m m' : Mesh) (v1 v2 : Z) (sc : float) :
  collapse_edge m v1 v2 sc = Returned false m' -> m' = m.
Proof.
  unfold collapse_edge. intros H. break_flow H;
    try (inversion H; subst; reflexivity);
    apply audited_true in H; destruct H as [H _]; discriminate.
Qed.

Lemma audited_sane (m m' : Mesh) (msg : String.string) :
  audited m msg = Returned true m' ->
  tetmesh_sanity (tet_attrs m') (vert_attrs m') (vert_conn m') (pc m') = true.
Proof.
  intros H. apply audited_true in H. destruct H as (_ & -> & H). exact H.
Qed.

Lemma split_edge_true_sane (m m' : Mesh) (v0 v1 : Z) :
  split_edge m v0 v1 = Returned true m' ->
  tetmesh_sanity (tet_attrs m') (vert_attrs m') (vert_conn m') (pc m') = true.
Proof.
  unfold split_edge, split_rollback. intros H. break_flow H;
    solve [eapply audited_sane; eassumption].
Qed.

Lemma collapse_edge_true_sane (m m' : Mesh) (v1 v2 : Z) (sc : float) :
  collapse_edge m v1 v2 sc = Returned true m' ->
  tetmesh_sanity (tet_attrs m') (vert_attrs m') (vert_conn m') (pc m') = true.
Proof.
  unfold collapse_edge. intros H. break_flow H;
    solve [eapply audited_sane; eassumption].
Qed.

Lemma swap_edge_true_sane (m m' : Mesh) (v1 v2 : Z) (sc : float) :
  swap_edge m v1 v2 sc = Returned true m' ->
  tetmesh_sanity (tet_attrs m') (vert_attrs m') (vert_conn m') (pc m') = true.
Proof.
  unfold swap_edge. intros H. break_flow H;
    solve [eapply audited_sane; eassumption].
Qed.

Lemma swap_face_true_sane (m m' : Mesh) (v0 v1 v2 : Z) (sc : float) :
  swap_face m v0 v1 v2 sc = Returned true m' ->
  tetmesh_sanity (tet_attrs m') (vert_attrs m') (vert_conn m') (pc m') = true.
Proof.
  unfold swap_face. intros H. break_flow H;
    solve [eapply audited_sane; eassumption].
Qed.

(** C2 (boundary-count invariant).  Whenever an editor ([split_edge],
    [collapse_edge], [swap_edge], [swap_face]) returns [true], the number of
    distinct faces of non-removed tets that carry a tag other than [-1] equals
    the number of entries of [pc.F] whose first component is not [-1]: every
    path to [return true] goes through [tetmesh_sanity], whose third check is
    this equation. *)
Theorem editor_true_boundary_count (c : editor_call) (m m' : Mesh) :
  run_editor c m = Returned true m' ->
  tagged_face_count m' = shell_slot_count m'.
Proof.
  intros H. unfold tagged_face_count, shell_slot_count.
  apply (sanity_counts _ (vert_attrs m') (vert_conn m')).
  destruct c; simpl in H.
  - eapply split_edge_true_sane; eassumption.
  - eapply collapse_edge_true_sane; eassumption.
  - eapply swap_edge_true_sane; eassumption.
  - eapply swap_face_true_sane; eassumption.
Qed.

(** ** Sets as lists without repetition *)

Lemma set_add_In {A : Type} (eqb : A -> A -> bool)
    (Heqb : forall a b, eqb a b = true <-> a = b) (s : list A) (x y : A) :
  In y (set_add eqb s x) <-> In y s \/ y = x.
Proof.
  unfold set_add. destruct (existsb (eqb x) s) eqn:E.
  - apply existsb_exists in E. destruct E as (z & Hz & Hxz). apply Heqb in Hxz. subst z.
    split; [auto|]. intros [H| ->]; assumption.
  - rewrite in_app_iff. simpl. split; intros [H|H]; auto.
    + destruct H as [H|[]]; auto.
Qed.

Lemma set_add_NoDup {A : Type} (eqb : A -> A -> bool)
    (Heqb : forall a b, eqb a b = true <-> a = b) (s : list A) (x : A) :
  NoDup s -> NoDup (set_add eqb s x).
Proof.
  intros H. unfold set_add. destruct (existsb (eqb x) s) eqn:E; [assumption|].
  apply NoDup_app; [assumption|repeat constructor; simpl; tauto|].
  intros a Ha [Hx|[]]. subst a.
  assert (existsb (eqb x) s = true) as C; [|congruence].
  apply existsb_exists. exists x. split; [assumption|now apply Heqb].
Qed.

Lemma set_of_fold {A : Type} (eqb : A -> A -> bool)
    (Heqb : forall a b, eqb a b = true <-> a = b) (l s : list A) :
  NoDup s ->
  NoDup (fold_left (set_add eqb) l s) /\
  forall y, In y (fold_left (set_add eqb) l s) <-> In y s \/ In y l.
Proof.
  revert s; induction l as [|x r IH]; intros s Hs; simpl.
  - split; [assumption|]. intros y; tauto.
  - destruct (IH (set_add eqb s x) (set_add_NoDup eqb Heqb s x Hs)) as [N I].
    split; [assumption|]. intros y. rewrite I, (set_add_In eqb Heqb). intuition.
Qed.

(** [vertex_set] is the set of the vertices that occur in the tets. *)
Lemma vertex_set_spec (tets : list Vec4i) :
  NoDup (vertex_set tets) /\
  forall x, In x (vertex_set tets) <-> exists t, In t tets /\ In x t.
Proof.
  unfold vertex_set, set_of.
  destruct (set_of_fold Z.eqb Z.eqb_eq (concat tets) [] (NoDup_nil Z)) as [N I].
  split; [assumption|]. intros x. rewrite I, in_concat. simpl. split.
  - intros [[]|(t & Ht & Hx)]. now exists t.
  - intros (t & Ht & Hx). right. now exists t.
Qed.

Lemma list_eqb_eq (a b : list Z) : list_eqb a b = true <-> a = b.
Proof.
  unfold list_eqb. destruct (list_eq_dec Z.eq_dec a b); split; congruence.
Qed.

(** [boundary_faces] lists every tagged face of a non-removed tet once. *)
Lemma boundary_faces_spec (ta : list TetAttr) :
  NoDup (boundary_faces ta) /\
  forall f, In f (boundary_faces ta) <->
    exists t j, In t ta /\ is_removed t = false /\ In j [0; 1; 2; 3] /\
                zth (prism_id t) j 0 <> -1 /\ f = sorted_face (conn t) j.
Proof.
  unfold boundary_faces, set_of.
  match goal with |- context [fold_left _ ?l []] =>
    destruct (set_of_fold list_eqb list_eqb_eq l [] (NoDup_nil _)) as [N I] end.
  split; [assumption|]. intros f. rewrite I. split.
  - intros [[]|H]. apply in_flat_map in H. destruct H as (t & Ht & H).
    apply filter_In in Ht. destruct Ht as [Ht Hr]. apply negb_true_iff in Hr.
    apply in_flat_map in H. destruct H as (j & Hj & H).
    destruct (zth (prism_id t) j 0 =? -1) eqn:E; simpl in H; [contradiction|].
    destruct H as [<-|[]]. apply Z.eqb_neq in E. exists t, j. auto.
  - intros (t & j & Ht & Hr & Hj & Hp & ->). right.
    apply in_flat_map. exists t. split.
    + apply filter_In. split; [assumption|]. now rewrite Hr.
    + apply in_flat_map. exists j. split; [assumption|].
      apply Z.eqb_neq in Hp. rewrite Hp. simpl. now left.
Qed.

(** ** [collapse_edge] *)

Lemma id_in_array_from_replace (c : list Z) (a b i : Z) :
  0 <= i ->
  (id_in_array_from c a i = -1 /\ replace c a b = c) \/
  (i <= id_in_array_from c a i /\
   set_nth c (Z.to_nat (id_in_array_from c a i - i)) b = replace c a b).
Proof.
  revert i; induction c as [|x r IH]; intros i Hi; simpl.
  - left. auto.
  - destruct (x =? a) eqn:E.
    + right. split; [lia|]. replace (i - i) with 0 by lia. reflexivity.
    + destruct (IH (i + 1) ltac:(lia)) as [[H1 H2]|[H1 H2]].
      * left. rewrite H1, H2. auto.
      * right. split; [lia|].
        replace (Z.to_nat (id_in_array_from r a (i + 1) - i))
          with (S (Z.to_nat (id_in_array_from r a (i + 1) - (i + 1)))) by lia.
        simpl. now rewrite H2.
Qed.

(** Overwriting the slot found by [id_in_array] is [replace]. *)
Lemma zset_id_in_array (c : list Z) (a b : Z) :
  zset c (id_in_array c a) b = replace c a b.
Proof.
  unfold zset, id_in_array.
  destruct (id_in_array_from_replace c a b 0 ltac:(lia)) as [[H1 H2]|[H1 H2]].
  - rewrite H1. simpl. now rewrite H2.
  - destruct (id_in_array_from c a 0 <? 0) eqn:E; [lia|].
    now rewrite Z.sub_0_r in H2.
Qed.

Lemma id_in_array_from_In (c : list Z) (a i : Z) :
  0 <= i -> (0 <=? id_in_array_from c a i) = existsb (Z.eqb a) c.
Proof.
  revert i; induction c as [|x r IH]; intros i Hi; simpl; [reflexivity|].
  rewrite (Z.eqb_sym a x). destruct (x =? a); simpl.
  - apply Z.leb_le. lia.
  - apply IH. lia.
Qed.

(** The replacement tets in the words of the specification: the tets of
    [v1] that do not contain [v2], with [v1] replaced by [v2]. *)
Lemma collapse_new_tets_spec (ta : list TetAttr) (nb1 : list Z) (v1 v2 : Z) :
  collapse_new_tets ta nb1 v1 v2 =
  map (fun c => replace c v1 v2)
      (filter (fun c => negb (existsb (Z.eqb v2) c)) (map (tconn ta) nb1)).
Proof.
  unfold collapse_new_tets. induction nb1 as [|t r IH]; simpl; [reflexivity|].
  rewrite IH, zset_id_in_array. unfold id_in_array.
  rewrite (id_in_array_from_In (tconn ta t) v2 0) by lia.
  destruct (existsb (Z.eqb v2) (tconn ta t)); reflexivity.
Qed.

(** C3 (link condition).  [collapse_edge(v1, v2)] returns [false] and leaves
    every store as it was whenever the set of vertices spanned by the
    replacement tets (the tets of [v1] that do not contain [v2], with [v1]
    replaced by [v2]) does not have exactly one element fewer than the set of
    vertices spanned by all tets incident to [v1]. *)
Theorem collapse_edge_link_condition (m : Mesh) (v1 v2 : Z) (sc : float) :
  let old_tets := map (tconn (tet_attrs m)) (zth (vert_conn m) v1 []) in
  let new_tets :=
    map (fun c => replace c v1 v2)
        (filter (fun c => negb (existsb (Z.eqb v2) c)) old_tets) in
  zlen (vertex_set new_tets) <> zlen (vertex_set old_tets) - 1 ->
  collapse_edge m v1 v2 sc = Returned false m.
Proof.
  intros old_tets new_tets H. unfold collapse_edge. cbv zeta.
  destruct (negb (vmid (vert_attrs m) v1 =? -1) && (vmid (vert_attrs m) v2 =? -1));
    [reflexivity|].
  destruct (is_nil _ && _); [reflexivity|].
  rewrite collapse_new_tets_spec. fold old_tets. fold new_tets.
  unfold link_condition. apply Z.eqb_neq in H. rewrite H. reflexivity.
Qed.

(** C7, as the code has it.  [collapse_edge(v1, v2)] returns [false] and
    leaves every store as it was whenever [v1] has a shell-id and [v2] has
    none. *)
Theorem collapse_edge_boundary_into_interior (m : Mesh) (v1 v2 : Z) (sc : float) :
  vmid (vert_attrs m) v1 <> -1 ->
  vmid (vert_attrs m) v2 = -1 ->
  collapse_edge m v1 v2 sc = Returned false m.
Proof.
  intros H1 H2. unfold collapse_edge. cbv zeta.
  apply Z.eqb_neq in H1. rewrite H1, H2. reflexivity.
Qed.

Lemma collapse_quality_gate_leb (thr before after : float) :
  is_nan thr = false -> is_nan before = false -> is_nan after = false ->
  (collapse_quality_gate thr before after = true <->
   (after <=? thr)%float = true \/ (after <=? before)%float = true).
Proof.
  intros Ht Hb Ha. unfold collapse_quality_gate. rewrite negb_true_iff, andb_false_iff.
  split; intros [H|H].
  - left. now apply not_ltb_leb.
  - right. now apply not_ltb_leb.
  - left. now apply leb_not_ltb.
  - right. now apply leb_not_ltb.
Qed.

(** What [compute_quality] returns: a number, the greatest of the initial
    [0.] and the energies that are numbers. *)
Lemma compute_quality_greatest (va : list VertAttr) (tets : list Vec4i) :
  is_nan (compute_quality va tets) = false /\
  (0 <=? compute_quality va tets)%float = true /\
  (forall t, In t tets -> is_nan (tet_quality_of va t) = false ->
     (tet_quality_of va t <=? compute_quality va tets)%float = true) /\
  (compute_quality va tets = 0%float \/
   exists t, In t tets /\ compute_quality va tets = tet_quality_of va t).
Proof.
  split; [apply compute_quality_not_nan|]. split.
  - exact (proj1 (compute_quality_fold_upper va tets 0%float eq_refl)).
  - split; [intros t; apply compute_quality_upper|apply compute_quality_attained].
Qed.

(** The quality gate inside [collapse_edge]: a collapse that fails it is
    rejected untouched, and when every other check passes, the call returns
    [false] exactly when the gate fails. *)
Lemma collapse_edge_gate_flow (m : Mesh) (v1 v2 : Z) (sc : float) :
  let thr := collapse_quality_threshold (opt m) in
  let nb1 := zth (vert_conn m) v1 [] in
  let before := compute_quality (vert_attrs m) (map (tconn (tet_attrs m)) nb1) in
  let after := compute_quality (vert_attrs m) (collapse_new_tets (tet_attrs m) nb1 v1 v2) in
  (collapse_quality_gate thr before after = false ->
   collapse_edge m v1 v2 sc = Returned false m) /\
  (collapse_other_gates m v1 v2 sc = true ->
   ((exists m', collapse_edge m v1 v2 sc = Returned false m') <->
    (thr <? after)%float = true /\ (before <? after)%float = true)).
Proof.
  intros thr nb1 before after. split.
  - intros G. unfold collapse_edge. cbv zeta.
    destruct (negb (vmid (vert_attrs m) v1 =? -1) && (vmid (vert_attrs m) v2 =? -1));
      [reflexivity|].
    destruct (is_nil _ && _); [reflexivity|].
    destruct (link_condition _ _); [|reflexivity]. simpl.
    fold nb1. fold before. fold after. fold thr. rewrite G. reflexivity.
  - intros O. unfold collapse_other_gates in O. cbv zeta in O.
    repeat (apply andb_prop in O; destruct O as [O ?]).
    apply negb_true_iff in O.
    repeat match goal with H : negb _ = true |- _ => apply negb_true_iff in H end.
    assert (collapse_quality_gate thr before after = false <->
            (thr <? after)%float = true /\ (before <? after)%float = true) as G.
    { unfold collapse_quality_gate. rewrite negb_false_iff. apply andb_true_iff. }
    rewrite <- G. clear G. subst thr before after nb1.
    unfold collapse_edge. cbv zeta.
    rewrite O.
    match goal with H : (is_nil _ && _) = false |- _ => rewrite H end.
    match goal with H : link_condition _ _ = true |- _ => rewrite H end.
    simpl negb. cbv iota.
    destruct (collapse_quality_gate _ _ _); simpl negb; cbv iota.
    + match goal with H : (sc <? _)%float = false |- _ => rewrite H end.
      match goal with H : forallb _ _ = true |- _ => rewrite H end.
      simpl negb. cbv iota.
      split; [|discriminate]. intros [m' Hm']. exfalso.
      match goal with H : (is_nil _ || _) = true |- _ => rename H into B end.
      destruct (is_nil (edge_adjacent_boundary_face _ _ v1 v2)).
      * destruct (rewrite_conn _ _ _ _ _); [discriminate|].
        apply audited_true in Hm'. destruct Hm' as [? _]. discriminate.
      * simpl in B. apply andb_prop in B. destruct B as [B1 B2].
        apply negb_true_iff in B1. rewrite B1 in Hm'.
        destruct (collapse_shell_faces _ _ _ _) as [[old_fid new_fid] moved_tris].
        simpl in B2. destruct (attempt_shell_operation _ _ _ _ _) as [flag new_tracks].
        simpl in B2. rewrite B2 in Hm'. simpl in Hm'.
        destruct (update_pc _ _ _ _ _) as [p1 moved_tris'].
        destruct (rewrite_conn _ _ _ _ _); [discriminate|].
        apply audited_true in Hm'. destruct Hm' as [? _]. discriminate.
    + split; [reflexivity|]. intros _. exists m. reflexivity.
Qed.

(** C4 (quality gate of [collapse_edge]), as the code has it.  [before] is
    the greatest of [0.] and the quality energies, where they are numbers, of
    the tets of [v1] before the edit, and [after] the same over the
    replacement tets (the tets of [v1] without [v2], [v1] replaced by [v2]).
    A collapse with [after > threshold] and [before < after] returns [false]
    with every store as it was.  When every other check of [collapse_edge]
    passes: the call returns [false] exactly when [after > threshold] and
    [before < after]; for a threshold that is a number it is not rejected
    iff [after <= threshold] or [after <= before]; and for a threshold that
    is not a number it is never rejected. *)
Theorem collapse_edge_quality_gate (m : Mesh) (v1 v2 : Z) (sc : float) :
  let va := vert_attrs m in
  let thr := collapse_quality_threshold (opt m) in
  let energy := fun t : Vec4i =>
    tetra_quality (vpos va (zth t 0 0)) (vpos va (zth t 1 0))
                  (vpos va (zth t 2 0)) (vpos va (zth t 3 0)) in
  let greatest := fun (tets : list Vec4i) (q : float) =>
    is_nan q = false /\ (0 <=? q)%float = true /\
    (forall t, In t tets -> is_nan (energy t) = false -> (energy t <=? q)%float = true) /\
    (q = 0%float \/ exists t, In t tets /\ q = energy t) in
  let old_tets := map (tconn (tet_attrs m)) (zth (vert_conn m) v1 []) in
  let new_tets :=
    map (fun c => replace c v1 v2)
        (filter (fun c => negb (existsb (Z.eqb v2) c)) old_tets) in
  let before := compute_quality va old_tets in
  let after := compute_quality va new_tets in
  greatest old_tets before /\ greatest new_tets after /\
  ((thr <? after)%float = true -> (before <? after)%float = true ->
   collapse_edge m v1 v2 sc = Returned false m) /\
  (collapse_other_gates m v1 v2 sc = true ->
   ((exists m', collapse_edge m v1 v2 sc = Returned false m') <->
    (thr <? after)%float = true /\ (before <? after)%float = true) /\
   (is_nan thr = false ->
    ((forall m', collapse_edge m v1 v2 sc <> Returned false m') <->
     (after <=? thr)%float = true \/ (after <=? before)%float = true)) /\
   (is_nan thr = true -> forall m', collapse_edge m v1 v2 sc <> Returned false m')).
Proof.
  intros va thr energy greatest old_tets new_tets before after.
  pose proof (collapse_edge_gate_flow m v1 v2 sc) as [G1 G2]. cbv zeta in G1, G2.
  rewrite collapse_new_tets_spec in G1, G2.
  fold va old_tets new_tets before after thr in G1, G2.
  split; [exact (compute_quality_greatest va old_tets)|].
  split; [exact (compute_quality_greatest va new_tets)|].
  split.
  - intros Ht Hb. apply G1. unfold collapse_quality_gate. now rewrite Ht, Hb.
  - intros O. specialize (G2 O). split; [exact G2|]. split.
    + intros Hthr.
      rewrite <- (collapse_quality_gate_leb thr before after Hthr
                    (compute_quality_not_nan va old_tets)
                    (compute_quality_not_nan va new_tets)).
      unfold collapse_quality_gate. rewrite negb_true_iff. split.
      * intros N. destruct ((thr <? after)%float && (before <? after)%float) eqn:E;
          [|reflexivity].
        apply andb_prop in E. apply G2 in E. destruct E as [m' E].
        exfalso. exact (N m' E).
      * intros E m' R. assert (exists m'', collapse_edge m v1 v2 sc = Returned false m'')
          as X by (exists m'; exact R).
        apply G2 in X. destruct X as [X1 X2]. rewrite X1, X2 in E. discriminate.
    + intros Hthr m' R.
      assert (exists m'', collapse_edge m v1 v2 sc = Returned false m'')
        as X by (exists m'; exact R).
      apply G2 in X. destruct X as [X1 _].
      rewrite (nan_ltb_false thr after Hthr) in X1. discriminate.
Qed.

(** ** [swap_edge] *)

Lemma max_tetra_sizes_fold_not_nan (va : list VertAttr) (tets : list Vec4i) (s0 : float) :
  is_nan s0 = false ->
  (forall t, In t tets -> is_nan (tet_size_of va t) = false) ->
  is_nan (fold_left (fun max_size t => fmax (tet_size_of va t) max_size) tets s0) = false.
Proof.
  revert s0; induction tets as [|t r IH]; intros s0 H0 H; simpl; [assumption|].
  apply IH.
  - apply fmax_not_nan_l. apply H. now left.
  - intros t' Ht'. apply H. now right.
Qed.

Lemma max_tetra_sizes_not_nan (va : list VertAttr) (tets : list Vec4i) :
  (forall t, In t tets -> is_nan (tet_size_of va t) = false) ->
  is_nan (max_tetra_sizes va tets) = false.
Proof. apply max_tetra_sizes_fold_not_nan. reflexivity. Qed.

Lemma max_tetra_sizes_fold_upper (va : list VertAttr) (tets : list Vec4i) (s0 : float) :
  is_nan s0 = false ->
  (forall t, In t tets -> is_nan (tet_size_of va t) = false) ->
  (s0 <=? fold_left (fun max_size t => fmax (tet_size_of va t) max_size) tets s0)%float
    = true /\
  forall t, In t tets ->
    (tet_size_of va t
     <=? fold_left (fun max_size t => fmax (tet_size_of va t) max_size) tets s0)%float = true.
Proof.
  revert s0; induction tets as [|t r IH]; intros s0 H0 Hn; simpl.
  - split; [now apply leb_refl|]. intros t [].
  - assert (is_nan (tet_size_of va t) = false) as Ht by (apply Hn; now left).
    destruct (IH (fmax (tet_size_of va t) s0) (fmax_not_nan_l _ _ Ht)) as [B U].
    { intros t' Ht'. apply Hn. now right. }
    split.
    + apply (leb_trans _ (fmax (tet_size_of va t) s0)); [|exact B].
      apply fmax_ge_r; assumption.
    + intros t' [E|Ht']; [subst t'|now apply U].
      apply (leb_trans _ (fmax (tet_size_of va t) s0)); [|exact B].
      apply fmax_ge_l; exact Ht.
Qed.

Lemma max_tetra_sizes_fold_attained (va : list VertAttr) (tets : list Vec4i) (s0 : float) :
  fold_left (fun max_size t => fmax (tet_size_of va t) max_size) tets s0 = s0 \/
  exists t, In t tets /\
    fold_left (fun max_size t => fmax (tet_size_of va t) max_size) tets s0 =
    tet_size_of va t.
Proof.
  revert s0; induction tets as [|t r IH]; intros s0; simpl; [now left|].
  destruct (IH (fmax (tet_size_of va t) s0)) as [E|(t' & Ht' & E)].
  - rewrite E. unfold fmax. destruct (tet_size_of va t <? s0)%float; [now left|].
    right. exists t. auto.
  - right. exists t'. auto.
Qed.

(** What [max_tetra_sizes] returns when no listed tet has a size that is
    not a number: the greatest of the initial [0.] and the sizes. *)
Lemma max_tetra_sizes_greatest (va : list VertAttr) (tets : list Vec4i) :
  (forall t, In t tets -> is_nan (tet_size_of va t) = false) ->
  is_nan (max_tetra_sizes va tets) = false /\
  (0 <=? max_tetra_sizes va tets)%float = true /\
  (forall t, In t tets -> is_nan (tet_size_of va t) = false ->
     (tet_size_of va t <=? max_tetra_sizes va tets)%float = true) /\
  (max_tetra_sizes va tets = 0%float \/
   exists t, In t tets /\ max_tetra_sizes va tets = tet_size_of va t).
Proof.
  intros Hn. split; [now apply max_tetra_sizes_not_nan|].
  destruct (max_tetra_sizes_fold_upper va tets 0%float eq_refl Hn) as [B U].
  split; [exact B|]. split; [intros t Ht _; now apply U|].
  apply max_tetra_sizes_fold_attained.
Qed.

(** What passing the size test [after_size > size_control] means for the
    listed tets. *)
Lemma size_test_bounds (va : list VertAttr) (tets : list Vec4i) (sc : float) :
  (sc <? max_tetra_sizes va tets)%float = false ->
  (forall t, In t tets -> is_nan (tet_size_of va t) = false) ->
  (forall t, In t tets -> (sc <? tet_size_of va t)%float = false) /\
  (is_nan sc = false ->
   (max_tetra_sizes va tets <=? sc)%float = true /\
   forall t, In t tets -> (tet_size_of va t <=? sc)%float = true).
Proof.
  intros S Hn. destruct (max_tetra_sizes_greatest va tets Hn) as (N & _ & U & _).
  assert (is_nan sc = false ->
          (max_tetra_sizes va tets <=? sc)%float = true /\
          forall t, In t tets -> (tet_size_of va t <=? sc)%float = true) as K.
  { intros Hsc. assert ((max_tetra_sizes va tets <=? sc)%float = true) as L
      by (apply not_ltb_leb; assumption).
    split; [exact L|]. intros t Ht. eapply leb_trans; [|exact L].
    apply U; [exact Ht|now apply Hn]. }
  split; [|exact K].
  intros t Ht. destruct (is_nan sc) eqn:Hsc; [now apply nan_ltb_false|].
  apply leb_not_ltb. now apply K.
Qed.

Lemma swap_edge_new_tets_length (ta : list TetAttr) (affected : list Z) (v1 v2 : Z) :
  List.length (swap_edge_new_tets ta affected v1 v2) = 2%nat.
Proof.
  unfold swap_edge_new_tets. destruct (swap_edge_ring ta affected v1 v2) as [[n0 n1] n2].
  reflexivity.
Qed.

Lemma is_nil_false {A : Type} (l : list A) : l <> [] -> is_nil l = false.
Proof. destruct l; [congruence|reflexivity]. Qed.

Lemma is_nil_true {A : Type} (l : list A) : is_nil l = true -> l = [].
Proof. destruct l; [reflexivity|discriminate]. Qed.

(** On strictly increasing adjacency lists, [set_inter] keeps exactly the
    tets that are on both. *)
Lemma set_inter_In (A B : list Z) (x : Z) :
  StronglySorted Z.lt A -> StronglySorted Z.lt B ->
  (In x (set_inter A B) <-> In x A /\ In x B).
Proof.
  intros HA. revert B. induction HA as [|a A' HA' IHA Ha]; intros B HB.
  - simpl. tauto.
  - induction HB as [|b B' HB' IHB Hb].
    + simpl. tauto.
    + rewrite Forall_forall in Ha, Hb.
      change (set_inter (a :: A') (b :: B'))
        with (if a <? b then set_inter A' (b :: B')
              else if b <? a then set_inter (a :: A') B'
              else a :: set_inter A' B').
      destruct (a <? b) eqn:E1; [|destruct (b <? a) eqn:E2].
      * apply Z.ltb_lt in E1. rewrite (IHA (b :: B')) by (constructor; [assumption|now apply Forall_forall]).
        simpl. split; [tauto|]. intros [[->|H1] [->|H2]]; try tauto; try lia.
        specialize (Hb _ H2). lia.
      * apply Z.ltb_lt in E2. rewrite IHB. simpl.
        split; [tauto|]. intros [[->|H1] [->|H2]]; try tauto; try lia.
        specialize (Ha _ H1). lia.
      * apply Z.ltb_ge in E1, E2. assert (a = b) by lia. subst b.
        simpl. rewrite (IHA B' HB'). tauto.
Qed.

(** ** [update_tetra_conn] and [split_edge] *)

Lemma retire_tet_length (va : list VertAttr) (affected : list Z) (ta : list TetAttr)
    (mp : face_map) :
  List.length (fst (fold_left (retire_tet va) affected (ta, mp))) = List.length ta.
Proof.
  revert ta mp; induction affected as [|t r IH]; intros ta mp; simpl; [reflexivity|].
  rewrite IH. apply zset_length.
Qed.

Lemma install_tet_appends (va : list VertAttr) (affected : list Z) (mp : face_map)
    (new_tets : list Vec4i) (ta : list TetAttr) (vc : list (list Z)) (cnt : Z) :
  exists added,
    fst (fst (fold_left (install_tet va affected mp) new_tets (ta, vc, cnt))) = ta ++ added /\
    map conn added = new_tets /\
    Forall (fun t => is_removed t = false) added.
Proof.
  revert ta vc cnt; induction new_tets as [|t r IH]; intros ta vc cnt.
  - exists []. simpl. rewrite app_nil_r. auto.
  - change (fold_left (install_tet va affected mp) (t :: r) (ta, vc, cnt))
      with (fold_left (install_tet va affected mp) r
              (install_tet va affected mp (ta, vc, cnt) t)).
    unfold install_tet at 2. cbv zeta. destruct (assign_tags va mp t) as [pr c].
    match goal with |- context [fold_left _ r (?a ++ [?x], ?v, ?k)] =>
      destruct (IH (a ++ [x]) v k) as (added & E & C & R); exists (x :: added) end.
    rewrite E, <- app_assoc. simpl. rewrite C. auto.
Qed.

(** The connectivity rewrite keeps the slots of the old tets and appends one
    live tet per proposed connectivity, in order. *)
Lemma update_tetra_conn_appends va ta vc affected new_tets pids tris ta' vc' :
  update_tetra_conn va ta vc affected new_tets pids tris = inr (ta', vc') ->
  exists kept added,
    ta' = kept ++ added /\ List.length kept = List.length ta /\
    map conn added = new_tets /\ Forall (fun t => is_removed t = false) added.
Proof.
  unfold update_tetra_conn. cbv zeta.
  destruct (fold_left (retire_tet va) affected (ta, [])) as [ta1 mp0] eqn:F0.
  assert (List.length ta1 = List.length ta) as L.
  { change ta1 with (fst (ta1, mp0)). rewrite <- F0. apply retire_tet_length. }
  match goal with |- context [fold_left (install_tet va affected ?mp) new_tets (ta1, ?v, 0)] =>
    destruct (install_tet_appends va affected mp new_tets ta1 v 0) as (added & E & C & R);
    destruct (fold_left (install_tet va affected mp) new_tets (ta1, v, 0)) as [[ta2 vc2] cnt]
  end.
  simpl in E. intros H.
  destruct (negb _); [discriminate|]. destruct (_ && _); [discriminate|].
  inversion H; subst. exists ta1, added. repeat split; auto.
Qed.

Lemma split_push_vertex_eq (va : list VertAttr) (v0 v1 : Z) :
  0 <= v0 < zlen va -> 0 <= v1 < zlen va ->
  split_push_vertex va v0 v1 =
  va ++ [set_pos VertAttr_default (midpoint (vpos va v0) (vpos va v1))].
Proof.
  intros H0 H1. unfold split_push_vertex. cbv zeta. rewrite set_last_snoc.
  unfold vpos. now rewrite !zth_app_l.
Qed.

Lemma split_push_shell_vertices (m : Mesh) (v0 v1 : Z) (va : list VertAttr) (x : VertAttr) :
  vert_attrs m = va ++ [x] ->
  exists y, vert_attrs (split_push_shell m v0 v1) = va ++ [y] /\ pos y = pos x.
Proof.
  intros E. unfold split_push_shell. cbv zeta. simpl. rewrite E, set_last_snoc, last_last.
  eexists. split; reflexivity.
Qed.

Lemma split_new_tets_length (ta : list TetAttr) (affected : list Z) (v0 v1 vx : Z) :
  List.length (split_new_tets ta affected v0 v1 vx) = (2 * List.length affected)%nat.
Proof.
  unfold split_new_tets. induction affected as [|t r IH]; simpl; [reflexivity|].
  rewrite IH. lia.
Qed.

(** In a tet whose vertices are distinct, [replace] overwrites the one slot
    that holds [a] and leaves the others. *)
Lemma replace_NoDup (c : list Z) (a b : Z) :
  NoDup c -> replace c a b = map (fun x => if x =? a then b else x) c.
Proof.
  induction 1 as [|x r Hx Hr IH]; simpl; [reflexivity|].
  destruct (x =? a) eqn:E.
  - apply Z.eqb_eq in E. subst x. f_equal. symmetry.
    rewrite <- (map_id r) at 2. apply map_ext_in. intros y Hy.
    destruct (y =? a) eqn:E; [|reflexivity]. apply Z.eqb_eq in E. subst y. contradiction.
  - now rewrite IH.
Qed.

Lemma split_edge_commit (m3 m' : Mesh) (b : bool) affected new_tets new_fid moved_tris :
  match rewrite_conn m3 affected new_tets new_fid moved_tris with
  | inl msg => Thrown msg
  | inr m4 => audited m4 "Sanity Error"
  end = Returned b m' ->
  b = true /\ vert_attrs m' = vert_attrs m3 /\
  exists kept added,
    tet_attrs m' = kept ++ added /\ List.length kept = List.length (tet_attrs m3) /\
    map conn added = new_tets /\ Forall (fun t => is_removed t = false) added.
Proof.
  unfold rewrite_conn.
  destruct (update_tetra_conn _ _ _ _ _ _ _) as [msg|[ta' vc']] eqn:U; [discriminate|].
  intros H. apply audited_true in H. destruct H as (-> & -> & _).
  split; [reflexivity|]. split; [reflexivity|].
  apply update_tetra_conn_appends in U. exact U.
Qed.

(** The flow of [split_edge]: a call that returns [true] has appended one
    vertex at the midpoint and the proposed children; a call that returns
    [false] hands the vertex store back. *)
Lemma split_edge_children_flow (m : Mesh) (v0 v1 : Z) :
  let va := vert_attrs m in
  let ta := tet_attrs m in
  let vx := zlen va in
  let affected := set_inter (zth (vert_conn m) v0 []) (zth (vert_conn m) v1 []) in
  let children := flat_map (fun t => [replace (tconn ta t) v0 vx; replace (tconn ta t) v1 vx])
                           affected in
  0 <= v0 < vx -> 0 <= v1 < vx ->
  List.length children = (2 * List.length affected)%nat /\
  forall b m', split_edge m v0 v1 = Returned b m' ->
    if b then
      (exists x, vert_attrs m' = va ++ [x] /\ pos x = midpoint (vpos va v0) (vpos va v1)) /\
      (exists kept added,
         tet_attrs m' = kept ++ added /\ List.length kept = List.length ta /\
         map conn added = children /\ Forall (fun t => is_removed t = false) added)
    else vert_attrs m' = va.
Proof.
  intros va ta vx affected children H0 H1. split.
  - apply (split_new_tets_length ta affected v0 v1 vx).
  - intros b m'. unfold split_edge. cbv zeta.
    unfold split_affected. fold affected. fold va. fold ta. fold vx.
    change (split_new_tets ta affected v0 v1 vx) with children.
    rewrite (split_push_vertex_eq va v0 v1 H0 H1).
    set (x0 := set_pos VertAttr_default (midpoint (vpos va v0) (vpos va v1))).
    set (m1 := with_vert_attrs m (va ++ [x0])).
    assert (exists x, vert_attrs
              (if is_nil (edge_adjacent_boundary_face ta (vert_conn m) v0 v1)
               then m1 else split_push_shell m1 v0 v1) = va ++ [x] /\
            pos x = midpoint (vpos va v0) (vpos va v1) /\
            tet_attrs (if is_nil (edge_adjacent_boundary_face ta (vert_conn m) v0 v1)
               then m1 else split_push_shell m1 v0 v1) = ta) as (x & Ex & Px & Tx).
    { destruct (is_nil _).
      - exists x0. auto.
      - destruct (split_push_shell_vertices m1 v0 v1 va x0 eq_refl) as (y & Ey & Py).
        exists y. rewrite Ey, Py. auto. }
    revert Ex Tx.
    generalize (if is_nil (edge_adjacent_boundary_face ta (vert_conn m) v0 v1)
                then m1 else split_push_shell m1 v0 v1).
    intros m2 Ex Tx.
    assert (forall bb mm, split_rollback m2 = Returned bb mm ->
              if bb then False else vert_attrs mm = va) as RB.
    { unfold split_rollback. intros bb mm E. inversion E; subst. simpl.
      rewrite Ex. apply removelast_snoc. }
    assert (forall m3 fid tris bb mm,
              vert_attrs m3 = vert_attrs m2 -> tet_attrs m3 = tet_attrs m2 ->
              match rewrite_conn m3 affected children fid tris with
              | inl msg => Thrown msg
              | inr m4 => audited m4 "Sanity Error"
              end = Returned bb mm ->
              if bb then
                (exists x, vert_attrs mm = va ++ [x] /\
                           pos x = midpoint (vpos va v0) (vpos va v1)) /\
                (exists kept added,
                   tet_attrs mm = kept ++ added /\ List.length kept = List.length ta /\
                   map conn added = children /\
                   Forall (fun t => is_removed t = false) added)
              else vert_attrs mm = va) as CM.
    { intros m3 fid tris bb mm Ev Et E. apply split_edge_commit in E.
      destruct E as (-> & Ev' & kept & added & E1 & E2 & E3 & E4).
      split.
      - exists x. rewrite Ev', Ev. auto.
      - exists kept, added. rewrite E2, Et, Tx. auto. }
    match goal with |- context [negb (forallb ?f children)] =>
      destruct (negb (forallb f children)) end.
    { intros E. specialize (RB _ _ E). destruct b; [contradiction|assumption]. }
    destruct (is_nil _).
    { apply CM; reflexivity. }
    destruct (attempt_shell_operation _ _ _ _ _) as [flag new_tracks].
    destruct (negb (flag =? 0)).
    { intros E. specialize (RB _ _ E). destruct b; [contradiction|assumption]. }
    destruct (update_pc _ _ _ _ _) as [p3 tris'].
    apply CM; reflexivity.
Qed.

Lemma flat_map_ext_in {A B : Type} (f g : A -> list B) (l : list A) :
  (forall a, In a l -> f a = g a) -> flat_map f l = flat_map g l.
Proof.
  induction l as [|a r IH]; intros H; simpl; [reflexivity|].
  rewrite (H a (or_introl eq_refl)), IH; [reflexivity|].
  intros a' Ha'. apply H. now right.
Qed.


(** What a rejected [split_edge] hands back: the vertex, tet and adjacency
    stores, [pc.F] and the tracked sets are those of before; after a boundary
    edge the three layers are restored too (the entry pushed on
    [target_adjustment] stays), after an interior edge each layer has lost
    its last entry. *)
Lemma split_edge_false_stores (m m' : Mesh) (v0 v1 : Z) :
  0 <= v0 < zlen (vert_attrs m) -> 0 <= v1 < zlen (vert_attrs m) ->
  split_edge m v0 v1 = Returned false m' ->
  vert_attrs m' = vert_attrs m /\ tet_attrs m' = tet_attrs m /\
  vert_conn m' = vert_conn m /\ F (pc m') = F (pc m) /\
  track_ref (pc m') = track_ref (pc m) /\
  if is_nil (edge_adjacent_boundary_face (tet_attrs m) (vert_conn m) v0 v1)
  then top (pc m') = removelast (top (pc m)) /\
       base (pc m') = removelast (base (pc m)) /\
       mid (pc m') = removelast (mid (pc m)) /\
       opt m' = opt m
  else top (pc m') = top (pc m) /\ base (pc m') = base (pc m) /\
       mid (pc m') = mid (pc m) /\
       List.length (target_adjustment (opt m')) =
       S (List.length (target_adjustment (opt m))).
Proof.
  intros H0 H1. unfold split_edge. cbv zeta.
  rewrite (split_push_vertex_eq (vert_attrs m) v0 v1 H0 H1).
  set (x0 := set_pos VertAttr_default
               (midpoint (vpos (vert_attrs m) v0) (vpos (vert_attrs m) v1))).
  set (m1 := with_vert_attrs m (vert_attrs m ++ [x0])).
  set (bnd := edge_adjacent_boundary_face (tet_attrs m) (vert_conn m) v0 v1).
  set (m2 := if is_nil bnd then m1 else split_push_shell m1 v0 v1).
  assert (split_rollback m2 = Returned false m' ->
          vert_attrs m' = vert_attrs m /\ tet_attrs m' = tet_attrs m /\
          vert_conn m' = vert_conn m /\ F (pc m') = F (pc m) /\
          track_ref (pc m') = track_ref (pc m) /\
          if is_nil bnd
          then top (pc m') = removelast (top (pc m)) /\
               base (pc m') = removelast (base (pc m)) /\
               mid (pc m') = removelast (mid (pc m)) /\
               opt m' = opt m
          else top (pc m') = top (pc m) /\ base (pc m') = base (pc m) /\
               mid (pc m') = mid (pc m) /\
               List.length (target_adjustment (opt m')) =
               S (List.length (target_adjustment (opt m)))) as RB.
  { unfold split_rollback, m2. intros E. inversion E; subst m'; clear E.
    destruct (is_nil bnd); simpl.
    - rewrite removelast_snoc. repeat split; reflexivity.
    - rewrite !removelast_snoc, set_last_snoc, removelast_snoc, length_app. simpl.
      repeat split; try reflexivity. lia. }
  assert (forall m3 fid tris,
            match rewrite_conn m3 (split_affected m v0 v1)
                    (split_new_tets (tet_attrs m) (split_affected m v0 v1) v0 v1
                       (zlen (vert_attrs m))) fid tris with
            | inl msg => Thrown msg
            | inr m4 => audited m4 "Sanity Error"
            end <> Returned false m') as CM.
  { intros m3 fid tris E. apply split_edge_commit in E. destruct E as [E _]. discriminate. }
  match goal with |- context [negb (forallb ?f ?l)] => destruct (negb (forallb f l)) end;
    [exact RB|].
  destruct (is_nil bnd) eqn:B.
  { intros E. exfalso. exact (CM _ _ _ E). }
  destruct (attempt_shell_operation _ _ _ _ _) as [flag new_tracks].
  destruct (negb (flag =? 0)); [exact RB|].
  destruct (update_pc _ _ _ _ _) as [p3 tris'].
  intros E. exfalso. exact (CM _ _ _ E).
Qed.


Lemma flat_map_nil {A B : Type} (f : A -> list B) (l : list A) :
  flat_map f l = [] <-> forall x, In x l -> f x = [].
Proof.
  induction l as [|a r IH]; simpl.
  - split; [intros _ x []|reflexivity].
  - split.
    + intros H. apply app_eq_nil in H. destruct H as [Ha Hr].
      intros x [<-|Hx]; [exact Ha|]. now apply IH.
    + intros H. rewrite (H a (or_introl eq_refl)). simpl. apply IH.
      intros x Hx. apply H. now right.
Qed.

(** [edge_adjacent_boundary_face] finds nothing exactly when every tagged
    face of a tet on both adjacency lists is opposite to [v0] or to [v1],
    that is, does not contain both. *)
Lemma edge_adjacent_boundary_face_nil (ta : list TetAttr) (vc : list (list Z)) (v0 v1 : Z) :
  edge_adjacent_boundary_face ta vc v0 v1 = [] <->
  forall t j, In t (set_inter (zth vc v0 []) (zth vc v1 [])) -> In j [0; 1; 2; 3] ->
    zth (prism_id (zth ta t TetAttr_default)) j 0 <> -1 ->
    zth (conn (zth ta t TetAttr_default)) j 0 = v0 \/
    zth (conn (zth ta t TetAttr_default)) j 0 = v1.
Proof.
  unfold edge_adjacent_boundary_face. cbv zeta. rewrite flat_map_nil.
  split.
  - intros H t j Ht Hj Hp. specialize (H t Ht). rewrite flat_map_nil in H.
    specialize (H j Hj). unfold tprism, tconn in H.
    apply Z.eqb_neq in Hp. rewrite Hp in H. simpl in H.
    destruct (zth (conn (zth ta t TetAttr_default)) j 0 =? v0) eqn:E0;
      [left; now apply Z.eqb_eq|].
    destruct (zth (conn (zth ta t TetAttr_default)) j 0 =? v1) eqn:E1;
      [right; now apply Z.eqb_eq|].
    discriminate H.
  - intros H t Ht. rewrite flat_map_nil. intros j Hj. unfold tprism, tconn.
    destruct (zth (prism_id (zth ta t TetAttr_default)) j 0 =? -1) eqn:Ep;
      [reflexivity|].
    apply Z.eqb_neq in Ep. destruct (H t j Ht Hj Ep) as [E|E]; rewrite E.
    + rewrite Z.eqb_refl. reflexivity.
    + rewrite Z.eqb_refl. simpl. now rewrite andb_false_r.
Qed.

(** An accepted connectivity rewrite on the untouched mesh, as [swap_edge]
    and [swap_face] end: the vertex store is the one before and the new tets
    are appended in order. *)
Lemma swap_commit_appends (m m' : Mesh) (affected : list Z) (new_tets : list Vec4i)
    (msg : String.string) :
  match rewrite_conn m affected new_tets [] [] with
  | inl e => Thrown e
  | inr m1 => audited m1 msg
  end = Returned true m' ->
  vert_attrs m' = vert_attrs m /\
  exists kept added,
    tet_attrs m' = kept ++ added /\
    List.length kept = List.length (tet_attrs m) /\
    map conn added = new_tets.
Proof.
  intros E. unfold rewrite_conn in E.
  destruct (update_tetra_conn _ _ _ _ _ _ _) as [e|[ta' vc']] eqn:U; [discriminate|].
  apply audited_true in E. destruct E as (_ & -> & _). simpl.
  split; [reflexivity|].
  destruct (update_tetra_conn_appends _ _ _ _ _ _ _ _ _ U)
    as (kept & added & A1 & A2 & A3 & _).
  exists kept, added. auto.
Qed.


(** ** [smooth_vertex] *)

Lemma touched_only_refl (v0 pv0 : Z) (m : Mesh) : touched_only v0 pv0 m m.
Proof. unfold touched_only. repeat split; reflexivity. Qed.

Lemma touched_only_pos (v0 pv0 : Z) (m m' : Mesh) (x : Vec3d) :
  touched_only v0 pv0 m m' -> touched_only v0 pv0 m (set_vertex_pos m' v0 x).
Proof.
  unfold touched_only, set_vertex_pos, with_vert_attrs. simpl.
  intros (? & ? & ? & ? & ? & ? & ? & Hv & Hm & ? & ? & ?).
  repeat split; try assumption.
  - intros y. rewrite zset_zset. apply Hv.
  - rewrite <- Hm. unfold vmid.
    destruct (zth_zset_cases (vert_attrs m') v0
                (set_pos (zth (vert_attrs m') v0 VertAttr_default) x) VertAttr_default)
      as [E|E]; rewrite E; reflexivity.
Qed.

Lemma touched_only_pillar (v0 pv0 : Z) (m m' : Mesh) (b md t : Vec3d) :
  touched_only v0 pv0 m m' ->
  touched_only v0 pv0 m (with_pc m' (set_pillar (pc m') pv0 b md t)).
Proof.
  unfold touched_only, with_pc, set_pillar. simpl.
  intros (? & ? & ? & ? & ? & ? & ? & Hv & Hm & Hb & Hd & Ht).
  repeat split; try assumption; intros y; rewrite zset_zset; auto.
Qed.

Lemma zset_negative {A : Type} (l : list A) (i : Z) (x : A) : i < 0 -> zset l i x = l.
Proof. unfold zset. intros H. destruct (i <? 0) eqn:E; [reflexivity|lia]. Qed.

(** The [rollback] of [smooth_vertex] gives the mesh of before the call. *)
Lemma smooth_rollback_restores (v0 : Z) (m m' : Mesh) :
  let pv0 := vmid (vert_attrs m) v0 in
  touched_only v0 pv0 m m' ->
  smooth_rollback v0 (vpos (vert_attrs m) v0) pv0 (pillar_of (pc m) pv0) m' =
  Returned false m.
Proof.
  intros pv0 (Ho & Ht & Hc & HF & HT & HG & HR & Hv & Hm & Hb & Hd & Htop).
  unfold smooth_rollback. cbv zeta. f_equal.
  assert (vert_attrs (set_vertex_pos m' v0 (vpos (vert_attrs m) v0)) = vert_attrs m) as Ev.
  { unfold set_vertex_pos, with_vert_attrs. simpl. rewrite Hv.
    replace (set_pos (zth (vert_attrs m') v0 VertAttr_default) (vpos (vert_attrs m) v0))
      with (zth (vert_attrs m) v0 VertAttr_default).
    - apply zset_same.
    - unfold set_pos, vpos. unfold vmid in Hm. rewrite Hm.
      destruct (zth (vert_attrs m) v0 VertAttr_default). reflexivity. }
  unfold pillar_of. destruct (pv0 =? -1) eqn:E; simpl negb; cbv iota.
  - apply Z.eqb_eq in E.
    specialize (Hb vec_zero). specialize (Hd vec_zero). specialize (Htop vec_zero).
    rewrite !zset_negative in Hb, Hd, Htop by lia.
    unfold set_vertex_pos, with_vert_attrs in *. simpl in *.
    destruct m as [[] ? ? ? ?], m' as [[] ? ? ? ?]. simpl in *. subst.
    rewrite Ev. reflexivity.
  - unfold with_pc, set_pillar. rewrite Ev.
    replace (pc (set_vertex_pos m' v0 (vpos (vert_attrs m) v0))) with (pc m') by reflexivity.
    replace (opt (set_vertex_pos m' v0 (vpos (vert_attrs m) v0))) with (opt m') by reflexivity.
    replace (tet_attrs (set_vertex_pos m' v0 (vpos (vert_attrs m) v0)))
      with (tet_attrs m') by reflexivity.
    replace (vert_conn (set_vertex_pos m' v0 (vpos (vert_attrs m) v0)))
      with (vert_conn m') by reflexivity.
    rewrite Hb, Hd, Htop, !zset_same, Ho, Ht, Hc, HF, HT, HG, HR.
    destruct m as [[] ? ? ? ?]. reflexivity.
Qed.

Lemma smooth_finish_outcome (v0 pv0 : Z) (sc : float) (m m' m'' : Mesh) (b : bool)
    (rollback : Mesh -> outcome) :
  (forall x, touched_only v0 pv0 m x -> rollback x = Returned false m) ->
  touched_only v0 pv0 m m' ->
  smooth_finish v0 pv0 sc rollback m' = Returned b m'' ->
  (tet_attrs m'' = tet_attrs m /\ vert_conn m'' = vert_conn m) /\ (b = false -> m'' = m).
Proof.
  intros R T. pose proof T as (_ & Ht & Hc & _). unfold smooth_finish. cbv zeta.
  repeat match goal with
         | |- context [if ?c then _ else _] => destruct c
         | |- context [let '(_, _) := ?c in _] => destruct c
         end;
    intros H; try rewrite (R _ T) in H; inversion H; subst; simpl;
    repeat split; auto; discriminate.
Qed.

(** What a call of [smooth_vertex] can have done when it returns: the tet
    store and the adjacency are those of before, and on [false] the whole
    mesh is. *)
Lemma smooth_vertex_outcome (m m' : Mesh) (ty : SmoothType) (v0 : Z) (sc : float) (b : bool) :
  smooth_vertex m ty v0 sc = Returned b m' ->
  (tet_attrs m' = tet_attrs m /\ vert_conn m' = vert_conn m) /\ (b = false -> m' = m).
Proof.
  unfold smooth_vertex. cbv zeta.
  set (pv0 := vmid (vert_attrs m) v0).
  set (rollback := smooth_rollback v0 (vpos (vert_attrs m) v0) pv0 (pillar_of (pc m) pv0)).
  set (P := fun (o : outcome) =>
              o = Returned b m' ->
              (tet_attrs m' = tet_attrs m /\ vert_conn m' = vert_conn m) /\
              (b = false -> m' = m)).
  assert (forall x, touched_only v0 pv0 m x -> rollback x = Returned false m) as R.
  { intros x Hx. apply smooth_rollback_restores. exact Hx. }
  pose proof (touched_only_refl v0 pv0 m) as T0.
  assert (forall x, touched_only v0 pv0 m x -> P (rollback x)) as RB.
  { intros x Hx E. rewrite (R x Hx) in E. inversion E. auto. }
  assert (forall x, touched_only v0 pv0 m x -> P (smooth_finish v0 pv0 sc rollback x)) as FN.
  { intros x Hx E. eapply smooth_finish_outcome; eassumption. }
  assert (forall x, touched_only v0 pv0 m x ->
            P (match get_snap_position (pc x) (neighbor_prisms (tet_attrs m)
                     (zth (vert_conn m) v0 []) v0) pv0 with
               | None => rollback x
               | Some snapped =>
                   smooth_finish v0 pv0 sc rollback
                     (with_pc (set_vertex_pos x v0 snapped)
                        (set_pillar (pc (set_vertex_pos x v0 snapped)) pv0
                           (zth (base (pc (set_vertex_pos x v0 snapped))) pv0 vec_zero)
                           (vpos (vert_attrs (set_vertex_pos x v0 snapped)) v0)
                           (zth (top (pc (set_vertex_pos x v0 snapped))) pv0 vec_zero)))
               end)) as SN.
  { intros x Hx. destruct (get_snap_position _ _ _).
    - apply FN. apply touched_only_pillar. apply touched_only_pos. exact Hx.
    - apply RB. exact Hx. }
  destruct ty.
  - apply FN. apply touched_only_pos. exact T0.
  - apply SN. exact T0.
  - destruct (smoother_direction _ _ _ _ _ _ _ _).
    + apply SN. apply touched_only_pillar. exact T0.
    + apply RB. exact T0.
  - destruct (zoom _ _ _ _ _ _ _ _) as [[bb t]|].
    + apply FN. apply touched_only_pillar. exact T0.
    + apply RB. exact T0.
  - destruct (rotate _ _ _ _ _ _ _ _) as [[bb t]|].
    + apply FN. apply touched_only_pillar. exact T0.
    + apply RB. exact T0.
Qed.

(** C10 ([smooth_vertex]).  When a call returns [false], the position of the
    smoothed vertex and, for a boundary vertex ([mid_id != -1]), the base, mid
    and top entries at its shell-id are what they were before the call; and
    no call, accepted or not, changes tet connectivity or the vertex-to-tet
    adjacency. *)
Theorem smooth_vertex_rejection_restores (m m' : Mesh) (ty : SmoothType) (v0 : Z)
    (sc : float) (b : bool) :
  smooth_vertex m ty v0 sc = Returned b m' ->
  let pv0 := vmid (vert_attrs m) v0 in
  (tet_attrs m' = tet_attrs m /\ vert_conn m' = vert_conn m) /\
  (b = false ->
   vpos (vert_attrs m') v0 = vpos (vert_attrs m) v0 /\
   (pv0 <> -1 ->
    zth (base (pc m')) pv0 vec_zero = zth (base (pc m)) pv0 vec_zero /\
    zth (mid (pc m')) pv0 vec_zero = zth (mid (pc m)) pv0 vec_zero /\
    zth (top (pc m')) pv0 vec_zero = zth (top (pc m)) pv0 vec_zero) /\
   m' = m).
Proof.
  intros H pv0. apply smooth_vertex_outcome in H. destruct H as [C U].
  split; [exact C|]. intros E. rewrite (U E). auto.
Qed.

End ShellProperties.

(** ** AdaMesh *)

Section AdaMeshProperties.
Context {TM : AdaMesh.TetMesh}.
Import AdaMesh.

Lemma zth_zset_in {A : Type} (l : list A) (i : Z) (x d : A) :
  0 <= i < zlen l -> zth (zset l i x) i d = x.
Proof.
  unfold zth, zset, zlen. intros H. destruct (i <? 0) eqn:E; [lia|].
  apply nth_set_nth. lia.
Qed.

Lemma zset_out {A : Type} (l : list A) (i : Z) (x : A) :
  ~ 0 <= i < zlen l -> zset l i x = l.
Proof.
  unfold zset, zlen. intros H. destruct (i <? 0) eqn:E; [reflexivity|].
  apply set_nth_beyond. apply Z.ltb_ge in E. lia.
Qed.

Lemma zlen_zset {A : Type} (l : list A) (i : Z) (x : A) : zlen (zset l i x) = zlen l.
Proof. unfold zlen. now rewrite zset_length. Qed.

(** [round], path by path, with [is_invert] as the code has it: the revert
    branch gives back the attributes of before the call. *)
Lemma round_paths (va : VertAttCol) (i : Z) :
  round va i =
  if negb (is_valid (tuple_from_vertex i)) then (true, va)
  else if rounded (vattr va i) then (true, va)
  else if existsb is_invert (get_one_ring_tets_for_vertex (tuple_from_vertex i))
  then (false, va)
  else (true, zset va i (set_rounded (set_posr (vattr va i) (posf_as_rational (vattr va i)))
                                     true)).
Proof.
  unfold round. cbv zeta.
  destruct (negb (is_valid (tuple_from_vertex i))); [reflexivity|].
  destruct (rounded (vattr va i)) eqn:R; [reflexivity|].
  set (a := vattr va i) in *.
  set (r := posf_as_rational a).
  destruct (Z_le_dec 0 i) as [L0|L0]; [destruct (Z_lt_dec i (zlen va)) as [L1|L1]|].
  - assert (0 <= i < zlen va) as In by lia.
    unfold vattr.
    rewrite ?zset_zset, (zth_zset_in va) by assumption.
    rewrite ?zset_zset, ?(zth_zset_in va) by assumption.
    destruct (existsb is_invert _); [|reflexivity].
    f_equal.
    replace (set_posr (set_rounded (set_rounded (set_posr a r) true) false) (m_posr a))
      with a by (destruct a; simpl in *; subst; reflexivity).
    apply zset_same.
  - rewrite !zset_out by (rewrite ?zlen_zset; lia).
    destruct (existsb is_invert _); reflexivity.
  - rewrite !zset_out by (rewrite ?zlen_zset; lia).
    destruct (existsb is_invert _); reflexivity.
Qed.

(** As [is_invert] answers [true] on every valid tuple, a valid, unrounded
    vertex with a valid incident tet is never rounded. *)
Lemma round_never_rounds (va : VertAttCol) (i : Z) :
  is_valid (tuple_from_vertex i) = true ->
  rounded (vattr va i) = false ->
  (exists t, In t (get_one_ring_tets_for_vertex (tuple_from_vertex i)) /\ is_valid t = true) ->
  round va i = (false, va).
Proof.
  intros V R (t & Ht & Vt). rewrite round_paths, V, R. simpl.
  replace (existsb is_invert (get_one_ring_tets_for_vertex (tuple_from_vertex i)))
    with true; [reflexivity|].
  symmetry. apply existsb_exists. exists t. split; [assumption|].
  unfold is_invert. now rewrite Vt.
Qed.

Lemma quality_scan_unrounded (va : VertAttCol) (vs js : list Z) (T : list float) :
  existsb (fun j => negb (rounded (vattr va (zth vs j 0)))) js = true ->
  snd (quality_scan va vs js T) = rational_energy_compute va vs.
Proof.
  revert T; induction js as [|j r IH]; intros T; simpl; [discriminate|].
  destruct (negb (rounded (vattr va (zth vs j 0)))); simpl; [reflexivity|].
  apply IH.
Qed.

Lemma quality_scan_rounded (va : VertAttCol) (vs : list Z) (T : list float) :
  List.length T = 12%nat ->
  forallb (fun j => rounded (vattr va (zth vs j 0))) [0; 1; 2; 3] = true ->
  quality_scan va vs [0; 1; 2; 3] T = (float_coordinates va vs, (-1)%float).
Proof.
  intros L R. simpl in R.
  repeat (apply andb_prop in R; destruct R as [?R R]).
  do 13 (destruct T as [|? T]; try discriminate L).
  unfold quality_scan. rewrite R0, R1, R2, R3. reflexivity.
Qed.

(** The twelve entries that [rational_energy_compute] hands over: the three
    exact coordinates of each of the four vertices, in order. *)
Lemma rational_coordinates_spelled (va : VertAttCol) (vs : list Z) :
  rational_coordinates va vs =
  flat_map (fun j => let '(x, y, z) := m_posr (zth va (zth vs j 0) VertexAttributes_default)
                     in [x; y; z]) [0; 1; 2; 3].
Proof.
  unfold rational_coordinates, vattr. simpl.
  destruct (m_posr (zth va (zth vs 0 0) VertexAttributes_default)) as [[x0 y0] z0].
  destruct (m_posr (zth va (zth vs 1 0) VertexAttributes_default)) as [[x1 y1] z1].
  destruct (m_posr (zth va (zth vs 2 0) VertexAttributes_default)) as [[x2 y2] z2].
  destruct (m_posr (zth va (zth vs 3 0) VertexAttributes_default)) as [[x3 y3] z3].
  reflexivity.
Qed.

Lemma float_coordinates_spelled (va : VertAttCol) (vs : list Z) :
  float_coordinates va vs =
  flat_map (fun j => let '(x, y, z) := m_posf (zth va (zth vs j 0) VertexAttributes_default)
                     in [x; y; z]) [0; 1; 2; 3].
Proof.
  unfold float_coordinates, vattr. simpl.
  destruct (m_posf (zth va (zth vs 0 0) VertexAttributes_default)) as [[x0 y0] z0].
  destruct (m_posf (zth va (zth vs 1 0) VertexAttributes_default)) as [[x1 y1] z1].
  destruct (m_posf (zth va (zth vs 2 0) VertexAttributes_default)) as [[x2 y2] z2].
  destruct (m_posf (zth va (zth vs 3 0) VertexAttributes_default)) as [[x3 y3] z3].
  reflexivity.
Qed.


End AdaMeshProperties.

(** ** The model run on the concrete meshes *)

Section Runs.
Import Reference.

(** The four sample meshes are inputs as the loader hands them over. *)
Lemma reference_meshes_well_prepared :
  well_prepared ring_mesh /\ well_prepared spindle_mesh /\
  well_prepared star_mesh /\ well_prepared simplex_mesh.
Proof.
  repeat split; vm_compute; reflexivity.
Qed.


(** C1 (idempotent rejection), where the code departs from it.  On the
    well-formed mesh [ring_mesh] the edge (0, 1) is interior; its midpoint
    rounds onto vertex 0, so a child tet is degenerate and [split_edge]
    returns [false] through [rollback], which pops [pc.top], [pc.base] and
    [pc.mid] although nothing was pushed on them: the three layers lose the
    entry of shell vertex 4, which [pc.F] still names. *)
Theorem split_edge_rejection_pops_shell :
  well_prepared ring_mesh /\
  edge_adjacent_boundary_face (tet_attrs ring_mesh) (vert_conn ring_mesh) 0 1 = [] /\
  exists m',
    run_editor (SplitEdge 0 1) ring_mesh = Returned false m' /\
    vert_attrs m' = vert_attrs ring_mesh /\
    tet_attrs m' = tet_attrs ring_mesh /\
    vert_conn m' = vert_conn ring_mesh /\
    F (pc m') = F (pc ring_mesh) /\
    top (pc m') = removelast (top (pc ring_mesh)) /\
    base (pc m') = removelast (base (pc ring_mesh)) /\
    mid (pc m') = removelast (mid (pc ring_mesh)) /\
    List.length (top (pc ring_mesh)) = 5%nat /\
    List.length (top (pc m')) = 4%nat /\
    m' <> ring_mesh.
Proof.
  split; [split; vm_compute; reflexivity|]. split; [vm_compute; reflexivity|].
  eexists. split; [vm_compute; reflexivity|].
  repeat (split; [vm_compute; reflexivity|]).
  intros E. apply (f_equal (fun m => List.length (top (pc m)))) in E.
  vm_compute in E. discriminate E.
Qed.

(** [swap_edge] is accepted on [spindle_mesh], and the counts agree. *)
Lemma editor_true_boundary_count_witness :
  exists m',
    run_editor (SwapEdge 0 1 10) spindle_mesh = Returned true m' /\
    tagged_face_count m' = shell_slot_count m'.
Proof.
  eexists. split.
  - vm_compute. reflexivity.
  - apply (editor_true_boundary_count (SwapEdge 0 1 10) spindle_mesh).
    vm_compute. reflexivity.
Defined.

(** Collapsing an edge of the single tet would leave vertex 0 without a tet:
    the replacement set is empty, not one vertex smaller. *)
Lemma collapse_edge_link_condition_witness :
  collapse_edge simplex_mesh 0 1 10 = Returned false simplex_mesh.
Proof.
  apply (collapse_edge_link_condition simplex_mesh 0 1 10).
  vm_compute. discriminate.
Defined.

Lemma collapse_edge_boundary_into_interior_witness :
  collapse_edge star_mesh 0 4 10 = Returned false star_mesh.
Proof.
  apply (collapse_edge_boundary_into_interior star_mesh 0 4 10).
  - vm_compute. discriminate.
  - vm_compute. reflexivity.
Defined.

(** C7, as stated, fails on the code: vertex 4 of [star_mesh] has no shell-id,
    vertex 0 has one, and collapsing 4 into 0 is accepted. *)
Lemma collapse_edge_interior_into_boundary_accepted :
  well_prepared star_mesh /\
  vmid (vert_attrs star_mesh) 4 = -1 /\
  vmid (vert_attrs star_mesh) 0 <> -1 /\
  (exists m', collapse_edge star_mesh 4 0 10 = Returned true m') /\
  collapse_edge star_mesh 4 0 10 <> Returned false star_mesh.
Proof.
  split; [split; vm_compute; reflexivity|].
  split; [vm_compute; reflexivity|]. split; [vm_compute; discriminate|].
  split.
  - eexists. vm_compute. reflexivity.
  - vm_compute. discriminate.
Qed.

(** C4, where the code departs from it.  On [lax_star_mesh], whose quality
    threshold is not a number, with the position-dependent energies of
    [Samples.graded]: collapsing the interior vertex 4 into vertex 0 replaces
    tets of energy 39 by one of energy 40 and is accepted, although the
    energy after is neither [<=] the threshold nor [<=] the energy before. *)
Lemma collapse_edge_nan_threshold_accepted :
  exists m',
    collapse_edge (CO := Samples.graded) Samples.lax_star_mesh 4 0 10 = Returned true m' /\
    compute_quality (CO := Samples.graded) (vert_attrs Samples.lax_star_mesh)
      (map (tconn (tet_attrs Samples.lax_star_mesh))
           (zth (vert_conn Samples.lax_star_mesh) 4 [])) = 39%float /\
    compute_quality (CO := Samples.graded) (vert_attrs Samples.lax_star_mesh)
      (map (fun c => replace c 4 0)
           (filter (fun c => negb (existsb (Z.eqb 0) c))
                   (map (tconn (tet_attrs Samples.lax_star_mesh))
                        (zth (vert_conn Samples.lax_star_mesh) 4 [])))) = 40%float /\
    (40 <=? collapse_quality_threshold (opt Samples.lax_star_mesh))%float = false /\
    (40 <=? 39)%float = false.
Proof.
  destruct (collapse_edge (CO := Samples.graded) Samples.lax_star_mesh 4 0 10)
    as [b m'|msg] eqn:E; [destruct b|]; try (vm_compute in E; discriminate E).
  exists m'. repeat apply conj; vm_compute; reflexivity.
Qed.

(** With the energies of [Samples.graded] and the threshold 30 of
    [star_mesh], the same collapse is rejected: the energy 40 of the
    replacement tet bounds [after] from below. *)
Lemma collapse_edge_quality_gate_witness :
  collapse_edge (CO := Samples.graded) star_mesh 4 0 10 = Returned false star_mesh /\
  PrimFloat.leb 40
    (compute_quality (CO := Samples.graded) (vert_attrs star_mesh) [[0; 1; 2; 3]]) = true /\
  collapse_other_gates (CO := Samples.graded) star_mesh 4 0 10 = true /\
  PrimFloat.ltb 30
    (compute_quality (CO := Samples.graded) (vert_attrs star_mesh) [[0; 1; 2; 3]]) = true.
Proof.
  pose proof (collapse_edge_quality_gate (CO := Samples.graded) star_mesh 4 0 10) as A.
  cbv zeta in A. destruct A as (_ & (_ & _ & U & _) & R & G).
  assert (collapse_other_gates (CO := Samples.graded) star_mesh 4 0 10 = true) as O
    by (vm_compute; reflexivity).
  assert (collapse_edge (CO := Samples.graded) star_mesh 4 0 10 = Returned false star_mesh)
    as F by (apply R; vm_compute; reflexivity).
  split; [exact F|]. split.
  - exact (U [0; 1; 2; 3] (or_introl eq_refl) eq_refl).
  - split; [exact O|].
    exact (proj1 (proj1 (proj1 (G O)) (ex_intro _ star_mesh F))).
Defined.




(** Newton's step of the reference collaborators moves the interior vertex of
    [star_mesh] onto vertex 0; the tets degenerate and the call is rejected. *)
Lemma smooth_vertex_rejection_restores_witness :
  smooth_vertex star_mesh kInteriorNewton 4 10 = Returned false star_mesh /\
  vpos (vert_attrs star_mesh) 4 = (0.25, 0.25, 0.25)%float.
Proof.
  destruct (smooth_vertex star_mesh kInteriorNewton 4 10) as [b m'|msg] eqn:E;
    [destruct b|]; try (vm_compute in E; discriminate E).
  destruct (smooth_vertex_rejection_restores star_mesh m' kInteriorNewton 4 10 false E)
    as (_ & R).
  destruct (R eq_refl) as (_ & _ & ->).
  split; reflexivity.
Defined.

(** C8, where the code departs from it.  The single tet of [simplex_attrs]
    is positively oriented in its floating-point coordinates, which equal its
    exact ones, so rounding vertex 0 inverts nothing; [round] nevertheless
    returns [false] and leaves the vertex unrounded, because [is_invert]
    answers [true] for every valid tuple. *)
Theorem round_rejects_sound_vertex :
  orient3d_positive (0, 0, 0)%float (1, 0, 0)%float (0, 1, 0)%float (0, 0, 1)%float
    = true /\
  AdaMesh.is_valid (AdaMesh.tuple_from_vertex 0) = true /\
  AdaMesh.rounded (AdaMesh.vattr simplex_attrs 0) = false /\
  AdaMesh.posf_as_rational (AdaMesh.vattr simplex_attrs 0)
    = AdaMesh.m_posr (AdaMesh.vattr simplex_attrs 0) /\
  AdaMesh.get_one_ring_tets_for_vertex (AdaMesh.tuple_from_vertex 0) = [(0, 0)] /\
  AdaMesh.is_invert (0, 0) = true /\
  AdaMesh.round simplex_attrs 0 = (false, simplex_attrs).
Proof.
  repeat split; vm_compute; reflexivity.
Qed.



End Runs.

(** * Further properties of the code *)

From Stdlib Require Import Permutation.

(** ** The helper lambdas *)

Lemma set_inter_cons (a b : Z) (A' B' : list Z) :
  set_inter (a :: A') (b :: B') =
  if a <? b then set_inter A' (b :: B')
  else if b <? a then set_inter (a :: A') B'
  else a :: set_inter A' B'.
Proof. reflexivity. Qed.

(** [set_inter] on two strictly increasing adjacency lists is strictly
    increasing and holds exactly the tets that are on both. *)
Theorem set_inter_sorted_both (A B : list Z) :
  StronglySorted Z.lt A -> StronglySorted Z.lt B ->
  StronglySorted Z.lt (set_inter A B) /\
  forall x, In x (set_inter A B) <-> In x A /\ In x B.
Proof.
  intros HA HB. split; [|intros x; now apply set_inter_In].
  revert B HB. induction HA as [|a A' HA' IHA Ha]; intros B HB.
  - simpl. constructor.
  - induction HB as [|b B' HB' IHB Hb].
    + simpl. constructor.
    + rewrite set_inter_cons.
      destruct (a <? b) eqn:E1; [|destruct (b <? a) eqn:E2].
      * apply IHA. now constructor.
      * exact IHB.
      * constructor; [now apply IHA|].
        apply Forall_forall. intros y Hy.
        apply (set_inter_In A' B' y HA' HB') in Hy. destruct Hy as [Hy _].
        rewrite Forall_forall in Ha. now apply Ha.
Qed.

Lemma set_insert_In (A : list Z) (a y : Z) :
  In y (set_insert A a) <-> y = a \/ In y A.
Proof.
  induction A as [|x r IH]; simpl.
  - intuition.
  - destruct (x <? a); simpl; rewrite ?IH; intuition.
Qed.

Lemma set_insert_sorted (A : list Z) (a : Z) :
  StronglySorted Z.le A -> StronglySorted Z.le (set_insert A a).
Proof.
  intros HA. induction HA as [|x r Hr IH Hx]; simpl.
  - repeat constructor.
  - destruct (x <? a) eqn:E.
    + apply Z.ltb_lt in E. constructor; [exact IH|].
      apply Forall_forall. intros y Hy. apply set_insert_In in Hy.
      rewrite Forall_forall in Hx. destruct Hy as [->|Hy]; [lia|now apply Hx].
    + apply Z.ltb_ge in E. constructor; [now constructor|].
      constructor; [exact E|].
      rewrite Forall_forall in Hx |- *. intros y Hy. specialize (Hx y Hy). lia.
Qed.

Lemma set_insert_length (A : list Z) (a : Z) :
  List.length (set_insert A a) = S (List.length A).
Proof.
  induction A as [|x r IH]; simpl; [reflexivity|].
  destruct (x <? a); simpl; [now rewrite IH|reflexivity].
Qed.

(** [set_insert] adds one entry, also when the value is already there; on an
    ordered list the result is ordered. *)
Theorem set_insert_ordered (A : list Z) (a : Z) :
  StronglySorted Z.le A ->
  StronglySorted Z.le (set_insert A a) /\
  List.length (set_insert A a) = S (List.length A) /\
  forall y, In y (set_insert A a) <-> y = a \/ In y A.
Proof.
  intros HA. split; [now apply set_insert_sorted|].
  split; [apply set_insert_length|intros y; apply set_insert_In].
Qed.

Lemma id_in_array_from_spec (v : list Z) (k i : Z) :
  (id_in_array_from v k i = -1 /\ ~ In k v /\ True) \/
  (i <= id_in_array_from v k i < i + zlen v /\
   zth v (id_in_array_from v k i - i) 0 = k /\
   forall j, 0 <= j < id_in_array_from v k i - i -> zth v j 0 <> k) \/
  (i < 0).
Proof.
  destruct (Z_lt_dec i 0) as [Hi|Hi]; [now right; right|].
  revert i Hi; induction v as [|x r IH]; intros i Hi; simpl.
  - left. intuition.
  - destruct (x =? k) eqn:E.
    + apply Z.eqb_eq in E. right. left. unfold zlen. simpl length.
      split; [lia|]. rewrite Z.sub_diag. split; [exact E|]. intros j Hj. lia.
    + apply Z.eqb_neq in E.
      destruct (IH (i + 1) ltac:(lia)) as [(H1 & H2 & _)|[(H1 & H2 & H3)|H]]; [| |lia].
      * left. split; [exact H1|]. split; [|exact I]. intros [C|C]; auto.
      * right. left. unfold zlen in *. simpl length. split; [lia|].
        set (r0 := id_in_array_from r k (i + 1)) in *.
        assert (zth (x :: r) (r0 - i) 0 = zth r (r0 - (i + 1)) 0) as Z1.
        { unfold zth. destruct (r0 - i <? 0) eqn:E1; [lia|].
          destruct (r0 - (i + 1) <? 0) eqn:E2; [lia|].
          replace (Z.to_nat (r0 - i)) with (S (Z.to_nat (r0 - (i + 1)))) by lia.
          reflexivity. }
        split; [now rewrite Z1|].
        intros j Hj. destruct (Z.eq_dec j 0) as [->|Hj0]; [exact E|].
        assert (zth (x :: r) j 0 = zth r (j - 1) 0) as Z2.
        { unfold zth. destruct (j <? 0) eqn:E1; [lia|].
          destruct (j - 1 <? 0) eqn:E2; [lia|].
          replace (Z.to_nat j) with (S (Z.to_nat (j - 1))) by lia. reflexivity. }
        rewrite Z2. apply H3. lia.
Qed.

(** [id_in_array] answers [-1] exactly when the key is absent, and otherwise
    the index of its first occurrence. *)
Theorem id_in_array_first (v : list Z) (k : Z) :
  (id_in_array v k = -1 /\ ~ In k v) \/
  (0 <= id_in_array v k < zlen v /\
   zth v (id_in_array v k) 0 = k /\
   forall j, 0 <= j < id_in_array v k -> zth v j 0 <> k).
Proof.
  unfold id_in_array.
  destruct (id_in_array_from_spec v k 0) as [(H1 & H2 & _)|[(H1 & H2 & H3)|H]]; [| |lia].
  - left. auto.
  - right. rewrite Z.sub_0_r in *. simpl in H1. auto.
Qed.

Lemma replace_length (arr : list Z) (a b : Z) :
  List.length (replace arr a b) = List.length arr.
Proof.
  induction arr as [|x r IH]; simpl; [reflexivity|].
  destruct (x =? a); simpl; [reflexivity|now rewrite IH].
Qed.

Lemma replace_absent (arr : list Z) (a b : Z) : ~ In a arr -> replace arr a b = arr.
Proof.
  induction arr as [|x r IH]; simpl; [reflexivity|]. intros H.
  destruct (x =? a) eqn:E.
  - apply Z.eqb_eq in E. tauto.
  - rewrite IH; tauto.
Qed.

(** [replace] keeps the length of the array, writes the slot that
    [id_in_array] finds, does nothing when the value is absent, and in an
    array without repetition it is the substitution of [a] by [b]. *)
Theorem replace_first_slot (arr : list Z) (a b : Z) :
  List.length (replace arr a b) = List.length arr /\
  replace arr a b = zset arr (id_in_array arr a) b /\
  (~ In a arr -> replace arr a b = arr) /\
  (NoDup arr -> replace arr a b = map (fun x => if x =? a then b else x) arr).
Proof.
  split; [apply replace_length|]. split; [symmetry; apply zset_id_in_array|].
  split; [apply replace_absent|apply replace_NoDup].
Qed.

Lemma sort_insert_perm (x : Z) (l : list Z) : Permutation (sort_insert x l) (x :: l).
Proof.
  induction l as [|y r IH]; simpl; [reflexivity|].
  destruct (x <=? y); [reflexivity|].
  rewrite IH. apply perm_swap.
Qed.

Lemma sort_perm (l : list Z) : Permutation (sort l) l.
Proof.
  induction l as [|x r IH]; simpl; [reflexivity|].
  unfold sort in *. simpl. rewrite sort_insert_perm. now constructor.
Qed.

Lemma sort_insert_sorted (x : Z) (l : list Z) :
  StronglySorted Z.le l -> StronglySorted Z.le (sort_insert x l).
Proof.
  induction 1 as [|y r Hr IH Hy]; simpl.
  - repeat constructor.
  - destruct (x <=? y) eqn:E.
    + apply Z.leb_le in E. constructor; [now constructor|].
      constructor; [exact E|]. rewrite Forall_forall in Hy |- *.
      intros z Hz. specialize (Hy z Hz). lia.
    + apply Z.leb_gt in E. constructor; [exact IH|].
      apply Forall_forall. intros z Hz.
      apply (Permutation_in _ (sort_insert_perm x r)) in Hz.
      rewrite Forall_forall in Hy. destruct Hz as [<-|Hz]; [lia|now apply Hy].
Qed.

Lemma sort_sorted (l : list Z) : StronglySorted Z.le (sort l).
Proof.
  induction l as [|x r IH]; [constructor|]. apply sort_insert_sorted. exact IH.
Qed.

Lemma sorted_perm_eq (l l' : list Z) :
  StronglySorted Z.le l -> StronglySorted Z.le l' -> Permutation l l' -> l = l'.
Proof.
  intros Hl. revert l'. induction Hl as [|x r Hr IH Hx]; intros l' Hl' P.
  - apply Permutation_nil in P. now subst.
  - destruct Hl' as [|y r' Hr' Hy].
    + symmetry in P. apply Permutation_nil in P. discriminate.
    + rewrite Forall_forall in Hx, Hy.
      assert (x = y) as ->.
      { assert (In x (y :: r')) as I1 by (apply (Permutation_in _ P); now left).
        assert (In y (x :: r)) as I2
          by (apply (Permutation_in _ (Permutation_sym P)); now left).
        destruct I1 as [->|I1]; [reflexivity|]. destruct I2 as [->|I2]; [reflexivity|].
        specialize (Hx _ I2). specialize (Hy _ I1). lia. }
      f_equal. apply IH; [assumption|]. now apply Permutation_cons_inv in P.
Qed.

(** [sorted_face(conn, j)] is the ordered triple of the vertices of the tet
    other than its [j]-th, so two faces with the same three vertices get the
    same key, in whatever order and from whichever tet they are read. *)
Theorem sorted_face_key (c : Vec4i) (j : Z) :
  List.length c = 4%nat -> 0 <= j < 4 ->
  Permutation (zth c j 0 :: sorted_face c j) c /\
  StronglySorted Z.le (sorted_face c j) /\
  forall c' j', List.length c' = 4%nat -> 0 <= j' < 4 ->
    Permutation (sorted_face c j) (sorted_face c' j') ->
    sorted_face c j = sorted_face c' j'.
Proof.
  intros L Hj. split; [|split].
  - unfold sorted_face. rewrite sort_perm.
    destruct c as [|a [|b [|c0 [|d [|]]]]]; try discriminate L.
    assert (j = 0 \/ j = 1 \/ j = 2 \/ j = 3) as [->|[->|[->| ->]]] by lia;
      vm_compute zth; simpl.
    + reflexivity.
    + apply Permutation_sym.
      apply (Permutation_trans (l' := [b; a; c0; d])); [apply perm_swap|].
      constructor. apply (Permutation_cons_app [c0; d] [] a). rewrite app_nil_r. reflexivity.
    + apply Permutation_sym.
      change [a; b; c0; d] with ([a; b] ++ c0 :: [d]).
      apply Permutation_sym, Permutation_cons_app. simpl.
      apply Permutation_sym. change [a; b; d] with ([a; b] ++ [d]).
      apply Permutation_app_comm.
    + apply Permutation_sym. change [a; b; c0; d] with ([a; b; c0] ++ [d]).
      apply Permutation_sym. apply (Permutation_app_comm [d] [a; b; c0]).
  - apply sort_sorted.
  - intros c' j' _ _ P. apply sorted_perm_eq; [apply sort_sorted ..|exact P].
Qed.

(** ** Maxima of doubles *)

Section MoreShellProperties.
Context {SH : SpatialHash} {CO : Collaborators}.

Ltac walk_flow H :=
  cbv beta zeta in H;
  repeat (match type of H with
          | context [match ?c with _ => _ end] => destruct c eqn:?
          end; try discriminate H).

(** The two maxima treat NaN differently, because [std::max] is called with
    its arguments in opposite orders: [compute_quality] skips a tet whose
    energy is NaN, while [max_tetra_sizes] returns NaN when the size of the
    last tet is NaN, and then no bound [size_control] is ever exceeded. *)
Theorem max_tetra_sizes_last_nan (va : list VertAttr) (tets : list Vec4i) (t : Vec4i)
    (size_control : float) :
  is_nan (tet_size_of va t) = true ->
  max_tetra_sizes va (tets ++ [t]) = tet_size_of va t /\
  (size_control <? max_tetra_sizes va (tets ++ [t]))%float = false /\
  (is_nan (tet_quality_of va t) = true ->
   compute_quality va (tets ++ [t]) = compute_quality va tets).
Proof.
  intros H. unfold max_tetra_sizes, compute_quality. rewrite !fold_left_app. simpl.
  assert (forall acc, fmax (tet_size_of va t) acc = tet_size_of va t) as E.
  { intros acc. unfold fmax. now rewrite nan_ltb_false. }
  rewrite E. split; [reflexivity|]. split; [now apply ltb_nan_false|].
  intros Hq. unfold fmax. now rewrite ltb_nan_false.
Qed.

(** ** What the editors leave alone *)

(** A [collapse_edge], [swap_edge] or [swap_face] that returns [false] has
    written nothing: every [return false] of these three precedes the first
    write. *)
Theorem rejected_edit_unchanged (c : editor_call) (m m' : Mesh) :
  (forall v0 v1, c <> SplitEdge v0 v1) ->
  run_editor c m = Returned false m' -> m' = m.
Proof.
  intros Hc H. destruct c; simpl in H.
  - exfalso. exact (Hc _ _ eq_refl).
  - eapply collapse_edge_false_unchanged; eassumption.
  - eapply swap_edge_false_unchanged; eassumption.
  - eapply swap_face_false_unchanged; eassumption.
Qed.

Lemma max_tetra_sizes_not_nan_valid (va : list VertAttr) (tets : list Vec4i) :
  (forall t, tetra_validity va t = true -> is_nan (tet_size_of va t) = false) ->
  forallb (tetra_validity va) tets = true ->
  is_nan (max_tetra_sizes va tets) = false.
Proof.
  intros Hs V. apply max_tetra_sizes_not_nan. intros t Ht. apply Hs.
  rewrite forallb_forall in V. now apply V.
Qed.

Lemma replace_In (arr : list Z) (a b x : Z) :
  In x (replace arr a b) -> x = b \/ In x arr.
Proof.
  induction arr as [|y r IH]; simpl; [tauto|].
  destruct (y =? a); simpl; intuition.
Qed.

(** ** The connectivity rewrite *)

Lemma nth_set_nth_other {A : Type} (l : list A) (n k : nat) (x d : A) :
  n <> k -> nth k (set_nth l n x) d = nth k l d.
Proof.
  revert n k. induction l as [|y r IH]; intros [|n] [|k] N; simpl;
    try reflexivity; try congruence.
  apply IH. congruence.
Qed.

Lemma zth_zset_other {A : Type} (l : list A) (i j : Z) (x d : A) :
  i <> j -> zth (zset l i x) j d = zth l j d.
Proof.
  unfold zth, zset. intros H. destruct (j <? 0) eqn:Ej; [reflexivity|].
  destruct (i <? 0) eqn:Ei; [reflexivity|].
  apply nth_set_nth_other. lia.
Qed.

Lemma retire_tet_slots (va : list VertAttr) (affected : list Z) (ta : list TetAttr)
    (mp : face_map) (i : Z) :
  0 <= i < zlen ta ->
  zth (fst (fold_left (retire_tet va) affected (ta, mp))) i TetAttr_default =
  if existsb (Z.eqb i) affected
  then set_removed (zth ta i TetAttr_default) else zth ta i TetAttr_default.
Proof.
  revert ta mp. induction affected as [|t r IH]; intros ta mp Hi; [reflexivity|].
  change (fold_left (retire_tet va) (t :: r) (ta, mp))
    with (fold_left (retire_tet va) r (retire_tet va (ta, mp) t)).
  unfold retire_tet at 2. cbv zeta.
  rewrite IH by (rewrite zlen_zset; exact Hi).
  simpl existsb. destruct (i =? t) eqn:E.
  - apply Z.eqb_eq in E. subst t. rewrite zth_zset_in by exact Hi. simpl.
    destruct (existsb (Z.eqb i) r); reflexivity.
  - apply Z.eqb_neq in E. rewrite zth_zset_other by congruence. reflexivity.
Qed.

Lemma resize_length {A : Type} (l : list A) (n : Z) (d : A) :
  List.length (resize l n d) = Z.to_nat n.
Proof.
  unfold resize. rewrite length_app, length_firstn, repeat_length. lia.
Qed.

Lemma install_tet_adjacency_length (va : list VertAttr) (affected : list Z) (mp : face_map)
    (new_tets : list Vec4i) (ta : list TetAttr) (vc : list (list Z)) (cnt : Z) :
  List.length (snd (fst (fold_left (install_tet va affected mp) new_tets (ta, vc, cnt)))) =
  List.length vc.
Proof.
  revert ta vc cnt; induction new_tets as [|t r IH]; intros ta vc cnt; [reflexivity|].
  change (fold_left (install_tet va affected mp) (t :: r) (ta, vc, cnt))
    with (fold_left (install_tet va affected mp) r
            (install_tet va affected mp (ta, vc, cnt) t)).
  unfold install_tet at 2. cbv zeta. destruct (assign_tags va mp t) as [pr c].
  rewrite IH. simpl. now rewrite !zset_length.
Qed.

Lemma update_tetra_conn_slots va ta vc affected new_tets pids tris ta' vc' :
  update_tetra_conn va ta vc affected new_tets pids tris = inr (ta', vc') ->
  exists kept added,
    ta' = kept ++ added /\
    List.length kept = List.length ta /\
    (forall i, 0 <= i < zlen ta ->
       zth kept i TetAttr_default =
       if existsb (Z.eqb i) affected
       then set_removed (zth ta i TetAttr_default) else zth ta i TetAttr_default) /\
    map conn added = new_tets /\
    Forall (fun t => is_removed t = false) added.
Proof.
  unfold update_tetra_conn. cbv zeta.
  destruct (fold_left (retire_tet va) affected (ta, [])) as [ta1 mp0] eqn:F0.
  assert (List.length ta1 = List.length ta) as L.
  { change ta1 with (fst (ta1, mp0)). rewrite <- F0. apply retire_tet_length. }
  assert (forall i, 0 <= i < zlen ta ->
            zth ta1 i TetAttr_default =
            if existsb (Z.eqb i) affected
            then set_removed (zth ta i TetAttr_default) else zth ta i TetAttr_default) as S.
  { intros i Hi. change ta1 with (fst (ta1, mp0)). rewrite <- F0.
    now apply retire_tet_slots. }
  match goal with |- context [fold_left (install_tet va affected ?mp) new_tets (ta1, ?v, 0)] =>
    destruct (install_tet_appends va affected mp new_tets ta1 v 0) as (added & E & C & R);
    destruct (fold_left (install_tet va affected mp) new_tets (ta1, v, 0)) as [[ta2 vc2] cnt]
  end.
  simpl in E. intros H.
  destruct (negb _); [discriminate|]. destruct (_ && _); [discriminate|].
  inversion H; subst. exists ta1, added. repeat split; auto.
Qed.

Lemma update_tetra_conn_adjacency_length va ta vc affected new_tets pids tris ta' vc' :
  update_tetra_conn va ta vc affected new_tets pids tris = inr (ta', vc') ->
  List.length vc' = List.length va.
Proof.
  unfold update_tetra_conn. cbv zeta.
  destruct (fold_left (retire_tet va) affected (ta, [])) as [ta1 mp0].
  match goal with |- context [fold_left (install_tet va affected ?mp) new_tets (ta1, ?v, 0)] =>
    pose proof (install_tet_adjacency_length va affected mp new_tets ta1 v 0) as LV;
    destruct (fold_left (install_tet va affected mp) new_tets (ta1, v, 0)) as [[ta2 vc2] cnt]
  end.
  simpl in LV. intros H.
  destruct (negb _); [discriminate|]. destruct (_ && _); [discriminate|].
  inversion H; subst. rewrite LV.
  match goal with |- List.length (fold_left ?f ?l ?a) = _ =>
    assert (forall l0 a0, List.length (fold_left f l0 a0) = List.length a0) as FL
  end.
  { induction l0 as [|x r IHl]; intros a0; simpl; [reflexivity|].
    rewrite IHl. apply zset_length. }
  rewrite FL, resize_length. unfold zlen. lia.
Qed.

(** What [update_tetra_conn] does to the tet store and to the size of the
    adjacency: every old slot stays where it is, with its connectivity and
    tags, and is marked removed exactly when its index is in [affected]; one
    live tet per proposed connectivity is appended, in order; the adjacency
    has one list per vertex. *)
Theorem update_tetra_conn_tet_store va ta vc affected new_tets pids tris ta' vc' :
  update_tetra_conn va ta vc affected new_tets pids tris = inr (ta', vc') ->
  List.length vc' = List.length va /\
  exists kept added,
    ta' = kept ++ added /\
    List.length kept = List.length ta /\
    (forall i, 0 <= i < zlen ta ->
       zth kept i TetAttr_default =
       if existsb (Z.eqb i) affected
       then set_removed (zth ta i TetAttr_default) else zth ta i TetAttr_default) /\
    map conn added = new_tets /\
    Forall (fun t => is_removed t = false) added.
Proof.
  intros H. split.
  - eapply update_tetra_conn_adjacency_length. exact H.
  - eapply update_tetra_conn_slots. exact H.
Qed.

Lemma zth_beyond {A : Type} (l : list A) (i : Z) (d : A) :
  ~ 0 <= i < zlen l -> zth l i d = d.
Proof.
  unfold zth, zlen. intros H. destruct (i <? 0) eqn:E; [reflexivity|].
  apply nth_overflow. apply Z.ltb_ge in E. lia.
Qed.

(** One assignment [vert_conn[v] = g(set_minus(vert_conn[v], affected))]. *)
Lemma rewrite_invariant_step (affected : list Z) (vc0 vc : list (list Z))
    (S : list Z) (N N' : list (Z * Z)) (v : Z) (g : list Z -> list Z) :
  (forall A B x, In x (set_minus A B) <-> In x A /\ ~ In x B) ->
  (forall l x, In x l -> In x (g l)) ->
  (forall l x, In x (g l) -> In x l \/ In (v, x) N') ->
  (forall w n, In (w, n) N' -> In (w, n) N \/ (w = v /\ In n (g []))) ->
  (forall w n, In (w, n) N' -> ~ In n affected) ->
  (forall l n, In n (g []) -> In n (g l)) ->
  rewrite_invariant affected vc0 vc S N ->
  rewrite_invariant affected vc0
    (zset vc v (g (set_minus (zth vc v []) affected))) (v :: S) N'.
Proof.
  intros Hsm Hg1 Hg2 HN HN' Hg3 (L & C & Fr & NN & NA).
  unfold rewrite_invariant.
  destruct (Z_le_dec 0 v) as [L0|L0]; [destruct (Z_lt_dec v (zlen vc)) as [L1|L1]|].
  - assert (0 <= v < zlen vc) as In_ by lia.
    split; [now rewrite zset_length|]. split; [|split; [|split]].
    + intros w [<-|Hw] a Ha.
      * rewrite zth_zset_in by assumption. intros Hx.
        apply Hg2 in Hx. destruct Hx as [Hx|Hx].
        -- apply Hsm in Hx. tauto.
        -- exact (HN' _ _ Hx Ha).
      * destruct (Z.eq_dec v w) as [<-|Ne].
        -- rewrite zth_zset_in by assumption. intros Hx.
           apply Hg2 in Hx. destruct Hx as [Hx|Hx].
           ++ apply Hsm in Hx. tauto.
           ++ exact (HN' _ _ Hx Ha).
        -- rewrite zth_zset_other by assumption. now apply C.
    + intros w Hw. rewrite zth_zset_other by (intros ->; apply Hw; now left).
      apply Fr. intros Hs. apply Hw. now right.
    + intros w n Hn Hr. rewrite zlen_zset in Hr.
      destruct (Z.eq_dec v w) as [<-|Ne].
      * rewrite zth_zset_in by assumption.
        destruct (HN _ _ Hn) as [Ho|[_ Ho]].
        -- apply Hg1. apply Hsm. split; [now apply NN|]. now apply (NA v).
        -- now apply Hg3.
      * rewrite zth_zset_other by assumption.
        destruct (HN _ _ Hn) as [Ho|[Ho _]]; [now apply NN|congruence].
    + exact HN'.
  - assert (~ 0 <= v < zlen vc) as Out by lia.
    rewrite zset_out by assumption.
    split; [exact L|]. split; [|split; [|split]].
    + intros w [<-|Hw] a Ha; [rewrite zth_beyond by assumption; tauto|now apply C].
    + intros w Hw. apply Fr. intros Hs. apply Hw. now right.
    + intros w n Hn Hr. destruct (HN _ _ Hn) as [Ho|[-> _]]; [now apply NN|lia].
    + exact HN'.
  - assert (~ 0 <= v < zlen vc) as Out by lia.
    rewrite zset_out by assumption.
    split; [exact L|]. split; [|split; [|split]].
    + intros w [<-|Hw] a Ha; [rewrite zth_beyond by assumption; tauto|now apply C].
    + intros w Hw. apply Fr. intros Hs. apply Hw. now right.
    + intros w n Hn Hr. destruct (HN _ _ Hn) as [Ho|[-> _]]; [now apply NN|lia].
    + exact HN'.
Qed.

Lemma rewrite_invariant_minus (affected : list Z) (vc0 vc : list (list Z))
    (S : list Z) (N : list (Z * Z)) (v : Z) :
  (forall A B x, In x (set_minus A B) <-> In x A /\ ~ In x B) ->
  rewrite_invariant affected vc0 vc S N ->
  rewrite_invariant affected vc0 (zset vc v (set_minus (zth vc v []) affected)) (v :: S) N.
Proof.
  intros Hsm I0.
  apply (rewrite_invariant_step affected vc0 vc S N N v (fun l => l)); auto.
  - destruct I0 as (_ & _ & _ & _ & NA). exact NA.
  - intros l n [].
Qed.

Lemma rewrite_invariant_insert (affected : list Z) (vc0 vc : list (list Z))
    (S : list Z) (N : list (Z * Z)) (v n : Z) :
  (forall A B x, In x (set_minus A B) <-> In x A /\ ~ In x B) ->
  ~ In n affected ->
  rewrite_invariant affected vc0 vc S N ->
  rewrite_invariant affected vc0
    (zset vc v (set_insert (set_minus (zth vc v []) affected) n)) (v :: S) ((v, n) :: N).
Proof.
  intros Hsm Hn I0.
  apply (rewrite_invariant_step affected vc0 vc S N ((v, n) :: N) v
           (fun l => set_insert l n)); auto.
  - intros l x Hx. apply set_insert_In. now right.
  - intros l x Hx. apply set_insert_In in Hx. destruct Hx as [->|Hx]; [right; now left|now left].
  - intros w k [E|Hk]; [inversion E; subst; right; split; [reflexivity|now left]|now left].
  - destruct I0 as (_ & _ & _ & _ & NA).
    intros w k [E|Hk]; [inversion E; subst; exact Hn|now apply (NA w)].
  - intros l k Hk. apply set_insert_In. destruct Hk as [->|[]]. now left.
Qed.

Lemma rewrite_invariant_retire (affected : list Z) (vc0 vc : list (list Z))
    (L S : list Z) (N : list (Z * Z)) :
  (forall A B x, In x (set_minus A B) <-> In x A /\ ~ In x B) ->
  rewrite_invariant affected vc0 vc S N ->
  rewrite_invariant affected vc0
    (fold_left (fun vc' v => zset vc' v (set_minus (zth vc' v []) affected)) L vc)
    (rev L ++ S) N.
Proof.
  intros Hsm. revert vc S. induction L as [|v r IH]; intros vc S I0; [exact I0|].
  simpl. rewrite <- app_assoc. simpl. apply IH. now apply rewrite_invariant_minus.
Qed.

Lemma rewrite_invariant_tet (affected : list Z) (vc0 vc : list (list Z))
    (S : list Z) (N : list (Z * Z)) (t : Vec4i) (n : Z) (js : list Z) :
  (forall A B x, In x (set_minus A B) <-> In x A /\ ~ In x B) ->
  ~ In n affected ->
  rewrite_invariant affected vc0 vc S N ->
  rewrite_invariant affected vc0
    (fold_left (fun vc' i =>
        let v := zth t i 0 in
        zset vc' v (set_insert (set_minus (zth vc' v []) affected) n)) js vc)
    (rev (map (fun i => zth t i 0) js) ++ S)
    (rev (map (fun v => (v, n)) (map (fun i => zth t i 0) js)) ++ N).
Proof.
  intros Hsm Hn. revert vc S N. induction js as [|j r IH]; intros vc S N I0; [exact I0|].
  simpl. rewrite <- !app_assoc. simpl. apply IH. now apply rewrite_invariant_insert.
Qed.

Lemma rewrite_invariant_install (va : list VertAttr) (affected : list Z) (mp : face_map)
    (vc0 : list (list Z)) (new_tets : list Vec4i) (ta : list TetAttr) (vc : list (list Z))
    (cnt : Z) (S : list Z) (N : list (Z * Z)) :
  (forall A B x, In x (set_minus A B) <-> In x A /\ ~ In x B) ->
  (forall a, In a affected -> a < zlen ta) ->
  rewrite_invariant affected vc0 vc S N ->
  exists S' N',
    rewrite_invariant affected vc0
      (snd (fst (fold_left (install_tet va affected mp) new_tets (ta, vc, cnt)))) S' N' /\
    (forall v, In v S' <-> In v (flat_map tet_vertices new_tets) \/ In v S) /\
    (forall p, In p N -> In p N') /\
    (forall p, In p (tet_pairs (zlen ta) new_tets) -> In p N').
Proof.
  intros Hsm. revert ta vc cnt S N.
  induction new_tets as [|t r IH]; intros ta vc cnt S N Ha I0.
  - exists S, N. simpl. split; [exact I0|]. split; [tauto|]. split; [auto|]. intros p [].
  - change (fold_left (install_tet va affected mp) (t :: r) (ta, vc, cnt))
      with (fold_left (install_tet va affected mp) r
              (install_tet va affected mp (ta, vc, cnt) t)).
    unfold install_tet at 2. cbv zeta. destruct (assign_tags va mp t) as [pr c].
    assert (~ In (zlen ta) affected) as Hn by (intros C; specialize (Ha _ C); lia).
    pose proof (rewrite_invariant_tet affected vc0 vc S N t (zlen ta) [0; 1; 2; 3]
                  Hsm Hn I0) as I1.
    match type of I1 with rewrite_invariant _ _ ?vc1 ?S1 ?N1 =>
      destruct (IH (ta ++ [{| prism_id := pr; is_removed := false; conn := t |}])
                   vc1 (cnt + c) S1 N1) as (S' & N' & I2 & HS & HM & HN)
    end.
    + intros a Ha'. specialize (Ha _ Ha'). unfold zlen in *. rewrite length_app. simpl. lia.
    + exact I1.
    + exists S', N'. split; [exact I2|]. split; [|split].
      * intros v. rewrite HS.
        change (flat_map tet_vertices (t :: r))
          with (tet_vertices t ++ flat_map tet_vertices r).
        rewrite !in_app_iff, <- in_rev. unfold tet_vertices. tauto.
      * intros p Hp. apply HM. apply in_app_iff. now right.
      * intros p Hp.
        change (tet_pairs (zlen ta) (t :: r))
          with (map (fun v => (v, zlen ta)) (tet_vertices t) ++ tet_pairs (zlen ta + 1) r)
          in Hp.
        apply in_app_iff in Hp. destruct Hp as [Hp|Hp].
        -- apply HM. apply in_app_iff. left. rewrite <- in_rev. exact Hp.
        -- apply HN. replace (zlen (ta ++ [{| prism_id := pr; is_removed := false;
                                              conn := t |}])) with (zlen ta + 1)
             by (unfold zlen; rewrite length_app; simpl; lia).
           exact Hp.
Qed.

Lemma tet_pairs_nth (n0 : Z) (tets : list Vec4i) (k : nat) (t : Vec4i) (v : Z) :
  nth_error tets k = Some t -> In v (tet_vertices t) ->
  In (v, n0 + Z.of_nat k) (tet_pairs n0 tets).
Proof.
  revert n0 k. induction tets as [|t0 r IH]; intros n0 [|k] H Hv; try discriminate.
  - simpl in H. inversion H; subst t0.
    change (tet_pairs n0 (t :: r))
      with (map (fun v => (v, n0)) (tet_vertices t) ++ tet_pairs (n0 + 1) r).
    apply in_app_iff. left. rewrite Z.add_0_r. apply in_map_iff. now exists v.
  - simpl in H.
    change (tet_pairs n0 (t0 :: r))
      with (map (fun v => (v, n0)) (tet_vertices t0) ++ tet_pairs (n0 + 1) r).
    apply in_app_iff. right.
    replace (n0 + Z.of_nat (S k)) with (n0 + 1 + Z.of_nat k) by lia. now apply IH.
Qed.

Lemma retire_tet_conn (va : list VertAttr) (affected : list Z) (ta : list TetAttr)
    (mp : face_map) (t : Z) :
  tconn (fst (fold_left (retire_tet va) affected (ta, mp))) t = tconn ta t.
Proof.
  unfold tconn.
  destruct (Z_le_dec 0 t) as [L0|L0]; [destruct (Z_lt_dec t (zlen ta)) as [L1|L1]|].
  - rewrite retire_tet_slots by lia. destruct (existsb (Z.eqb t) affected); reflexivity.
  - rewrite !zth_beyond; [reflexivity|lia|].
    unfold zlen. rewrite retire_tet_length. fold (zlen ta). lia.
  - rewrite !zth_beyond; [reflexivity|lia|].
    unfold zlen. rewrite retire_tet_length. fold (zlen ta). lia.
Qed.

(** [update_tetra_conn] repairs the adjacency incrementally.  With a
    [set_minus] that is the set difference and [affected] naming existing
    tets: the list of every vertex of an affected or of a new tet no longer
    names an affected tet; every new tet is named by the list of each of its
    vertices; and the list of any other vertex is not touched. *)
Theorem update_tetra_conn_adjacency va ta vc affected new_tets pids tris ta' vc' :
  (forall A B x, In x (set_minus A B) <-> In x A /\ ~ In x B) ->
  (forall a, In a affected -> a < zlen ta) ->
  update_tetra_conn va ta vc affected new_tets pids tris = inr (ta', vc') ->
  let touched := fun v =>
    (exists a, In a affected /\ In v (tet_vertices (tconn ta a))) \/
    In v (flat_map tet_vertices new_tets) in
  (forall v, touched v -> forall a, In a affected -> ~ In a (zth vc' v [])) /\
  (forall v, ~ touched v -> zth vc' v [] = zth (resize vc (zlen va) []) v []) /\
  (forall k t v, nth_error new_tets k = Some t -> In v (tet_vertices t) ->
     0 <= v < zlen va -> In (zlen ta + Z.of_nat k) (zth vc' v [])).
Proof.
  intros Hsm Ha H touched. revert H. unfold update_tetra_conn. cbv zeta.
  destruct (fold_left (retire_tet va) affected (ta, [])) as [ta1 mp0] eqn:F0.
  assert (List.length ta1 = List.length ta) as L.
  { change ta1 with (fst (ta1, mp0)). rewrite <- F0. apply retire_tet_length. }
  assert (forall t, tconn ta1 t = tconn ta t) as TC.
  { intros t. change ta1 with (fst (ta1, mp0)). rewrite <- F0. apply retire_tet_conn. }
  set (vc0 := resize vc (zlen va) []).
  set (verts := set_of Z.eqb
                  (flat_map (fun t => map (fun i => zth (tconn ta1 t) i 0) [0; 1; 2; 3])
                            affected)).
  assert (rewrite_invariant affected vc0 vc0 [] []) as I0.
  { unfold rewrite_invariant. repeat split; auto; intros; contradiction. }
  pose proof (rewrite_invariant_retire affected vc0 vc0 verts [] [] Hsm I0) as I1.
  match type of I1 with rewrite_invariant _ _ ?vc1 ?S1 ?N1 =>
    match goal with |- context [fold_left (install_tet va affected ?mp) new_tets (ta1, vc1, 0)] =>
      destruct (rewrite_invariant_install va affected mp vc0 new_tets ta1 vc1 0 S1 N1 Hsm)
        as (S' & N' & I2 & HS & _ & HN); [|exact I1|];
      [intros a Ha'; specialize (Ha _ Ha'); unfold zlen in *; lia|];
      destruct (fold_left (install_tet va affected mp) new_tets (ta1, vc1, 0))
        as [[ta2 vc2] cnt]
    end
  end.
  simpl in I2. intros H.
  destruct (negb _); [discriminate|]. destruct (_ && _); [discriminate|].
  inversion H; subst ta' vc'. clear H.
  assert (forall v, In v S' <-> touched v) as TS.
  { intros v. rewrite HS, app_nil_r, <- in_rev. unfold touched, verts, set_of.
    destruct (set_of_fold Z.eqb Z.eqb_eq
                (flat_map (fun t => map (fun i => zth (tconn ta1 t) i 0) [0; 1; 2; 3])
                          affected) [] (NoDup_nil Z)) as [_ M].
    rewrite M. split.
    - intros [Hv|[Hv|Hv]]; [now right|destruct Hv|].
      left. apply in_flat_map in Hv. destruct Hv as (a & Ha1 & Hv).
      exists a. split; [exact Ha1|]. unfold tet_vertices. now rewrite <- TC.
    - intros [(a & Ha1 & Hv)|Hv]; [|now left].
      right. right. apply in_flat_map. exists a. split; [exact Ha1|].
      unfold tet_vertices in Hv. now rewrite TC. }
  destruct I2 as (LV & C & Fr & NN & _). split; [|split].
  - intros v Hv. apply C. now apply TS.
  - intros v Hv. apply Fr. intros Hs. apply Hv. now apply TS.
  - intros k t v Hk Hv Hr. apply NN.
    + apply HN. replace (zlen ta1) with (zlen ta) by (unfold zlen; now rewrite L).
      now apply (tet_pairs_nth _ _ _ t).
    + unfold zlen in *. rewrite LV. unfold vc0. rewrite resize_length. lia.
Qed.

(** ** Accepted swaps *)

(** An accepted connectivity rewrite on the untouched mesh, as [swap_edge]
    and [swap_face] end: the shell, the options and the vertex store are
    those of before, every old tet slot is in place, removed exactly when it
    was affected, and the new tets are appended live and in order. *)
Lemma swap_commit (m m' : Mesh) (affected : list Z) (new_tets : list Vec4i)
    (msg : String.string) :
  match rewrite_conn m affected new_tets [] [] with
  | inl e => Thrown e
  | inr m1 => audited m1 msg
  end = Returned true m' ->
  pc m' = pc m /\ opt m' = opt m /\ vert_attrs m' = vert_attrs m /\
  exists kept added,
    tet_attrs m' = kept ++ added /\
    List.length kept = List.length (tet_attrs m) /\
    (forall i, 0 <= i < zlen (tet_attrs m) ->
       zth kept i TetAttr_default =
       if existsb (Z.eqb i) affected
       then set_removed (zth (tet_attrs m) i TetAttr_default)
       else zth (tet_attrs m) i TetAttr_default) /\
    map conn added = new_tets /\
    Forall (fun t => is_removed t = false) added.
Proof.
  intros E. unfold rewrite_conn in E.
  destruct (update_tetra_conn _ _ _ _ _ _ _) as [e|[ta' vc']] eqn:U; [discriminate|].
  apply audited_true in E. destruct E as (_ & -> & _). simpl.
  repeat (split; [reflexivity|]).
  exact (update_tetra_conn_slots _ _ _ _ _ _ _ _ _ U).
Qed.

(** The vertex that [find_other] returns is an entry of the tet that is not
    in the triangle, or [-1] when there is none. *)
Lemma find_other_spec (tet : Vec4i) (tri : Vec3i) :
  find_other tet tri = -1 \/
  ((exists j, 0 <= j < 4 /\ find_other tet tri = zth tet j 0) /\
   ~ In (find_other tet tri) tri).
Proof.
  assert (forall x, (id_in_array tri x =? -1) = true -> ~ In x tri) as N.
  { intros x E. apply Z.eqb_eq in E. unfold id_in_array in E.
    destruct (id_in_array_from_spec tri x 0) as [(_ & H & _)|[(H & _)|H]];
      [exact H|lia|lia]. }
  unfold find_other. simpl.
  destruct (id_in_array tri (zth tet 0 0) =? -1) eqn:E0;
    [right; split; [exists 0; split; [lia|reflexivity]|now apply N]|].
  destruct (id_in_array tri (zth tet 1 0) =? -1) eqn:E1;
    [right; split; [exists 1; split; [lia|reflexivity]|now apply N]|].
  destruct (id_in_array tri (zth tet 2 0) =? -1) eqn:E2;
    [right; split; [exists 2; split; [lia|reflexivity]|now apply N]|].
  destruct (id_in_array tri (zth tet 3 0) =? -1) eqn:E3;
    [right; split; [exists 3; split; [lia|reflexivity]|now apply N]|].
  now left.
Qed.



End MoreShellProperties.


(** ** Smoothing helpers *)

(** [orient_preserve_tet_reorder] brings [v0] to the front by an even
    permutation: the result starts with [v0], has the same four vertices, and
    has the same signed volume as [c] wherever the vertices are. *)
Theorem orient_preserve_tet_reorder_even (c : Vec4i) (v0 : Z) (P : Z -> Q * Q * Q) :
  List.length c = 4%nat -> In v0 c ->
  zth (orient_preserve_tet_reorder c v0) 0 0 = v0 /\
  Permutation (orient_preserve_tet_reorder c v0) c /\
  Qeq (signed_volume P (orient_preserve_tet_reorder c v0)) (signed_volume P c).
Proof.
  intros L Hin.
  destruct c as [|a [|b [|c' [|d [|]]]]]; try discriminate L. clear L.
  unfold orient_preserve_tet_reorder, id_in_array. simpl id_in_array_from.
  assert (forall x y z w, Qeq (signed_volume P [x; y; z; w]) (signed_volume P [y; x; w; z]) /\
                          Qeq (signed_volume P [x; y; z; w]) (signed_volume P [z; x; y; w]) /\
                          Qeq (signed_volume P [x; y; z; w]) (signed_volume P [w; y; x; z]))
    as V.
  { intros x y z w. unfold signed_volume.
    change (zth [x; y; z; w] 0 0) with x. change (zth [x; y; z; w] 1 0) with y.
    change (zth [x; y; z; w] 2 0) with z. change (zth [x; y; z; w] 3 0) with w.
    change (zth [y; x; w; z] 0 0) with y. change (zth [y; x; w; z] 1 0) with x.
    change (zth [y; x; w; z] 2 0) with w. change (zth [y; x; w; z] 3 0) with z.
    change (zth [z; x; y; w] 0 0) with z. change (zth [z; x; y; w] 1 0) with x.
    change (zth [z; x; y; w] 2 0) with y. change (zth [z; x; y; w] 3 0) with w.
    change (zth [w; y; x; z] 0 0) with w. change (zth [w; y; x; z] 1 0) with y.
    change (zth [w; y; x; z] 2 0) with x. change (zth [w; y; x; z] 3 0) with z.
    destruct (P x) as [[x0 x1] x2], (P y) as [[y0 y1] y2], (P z) as [[z0 z1] z2],
             (P w) as [[w0 w1] w2].
    unfold Reference.Qdet3, Reference.Qsub3. repeat split; ring. }
  destruct (a =? v0) eqn:Ea.
  - apply Z.eqb_eq in Ea. subst a. cbn. split; [reflexivity|]. split; [apply Permutation_refl|].
    reflexivity.
  - destruct (b =? v0) eqn:Eb.
    + apply Z.eqb_eq in Eb. subst b. cbn. split; [reflexivity|]. split.
      * apply perm_trans with (v0 :: a :: c' :: d :: nil); [|apply perm_swap].
        do 2 apply perm_skip. apply perm_swap.
      * symmetry. apply V.
    + destruct (c' =? v0) eqn:Ec.
      * apply Z.eqb_eq in Ec. subst c'. cbn. split; [reflexivity|]. split.
        -- apply perm_trans with (a :: v0 :: b :: d :: nil); [apply perm_swap|].
           apply perm_skip. apply perm_swap.
        -- symmetry. apply V.
      * destruct (d =? v0) eqn:Ed.
        -- apply Z.eqb_eq in Ed. subst d. cbn. split; [reflexivity|]. split.
           ++ apply Permutation_sym.
              apply perm_trans with (a :: b :: v0 :: c' :: nil);
                [do 2 apply perm_skip; apply perm_swap|].
              apply perm_trans with (a :: v0 :: b :: c' :: nil);
                [apply perm_skip; apply perm_swap|].
              apply perm_trans with (v0 :: a :: b :: c' :: nil); [apply perm_swap|].
              apply perm_skip. apply perm_swap.
           ++ symmetry. apply V.
        -- exfalso. apply Z.eqb_neq in Ea, Eb, Ec, Ed.
           destruct Hin as [H|[H|[H|[H|[]]]]]; congruence.
Qed.


Lemma ordered_insert_In (x y : Z) (s : list Z) :
  In y (ordered_insert x s) <-> y = x \/ In y s.
Proof.
  induction s as [|z r IH]; simpl; [intuition|].
  destruct (x <? z) eqn:E1; [simpl; intuition|].
  destruct (x =? z) eqn:E2.
  - apply Z.eqb_eq in E2. subst z. simpl. intuition.
  - simpl. rewrite IH. intuition.
Qed.

Lemma ordered_insert_sorted (x : Z) (s : list Z) :
  StronglySorted Z.lt s -> StronglySorted Z.lt (ordered_insert x s).
Proof.
  intros H. induction H as [|z r Hr IH Hz]; simpl; [repeat constructor|].
  destruct (x <? z) eqn:E1.
  - apply Z.ltb_lt in E1. constructor; [now constructor|].
    constructor; [exact E1|]. rewrite Forall_forall in Hz |- *.
    intros y Hy. specialize (Hz y Hy). lia.
  - destruct (x =? z) eqn:E2; [now constructor|].
    apply Z.ltb_ge in E1. apply Z.eqb_neq in E2.
    constructor; [exact IH|]. rewrite Forall_forall in Hz |- *.
    intros y Hy. apply ordered_insert_In in Hy. destruct Hy as [->|Hy]; [lia|now apply Hz].
Qed.

Lemma ordered_insert_fold (l s : list Z) :
  StronglySorted Z.lt s ->
  StronglySorted Z.lt (fold_left (fun s' x => ordered_insert x s') l s) /\
  forall y, In y (fold_left (fun s' x => ordered_insert x s') l s) <-> In y l \/ In y s.
Proof.
  revert s. induction l as [|x r IH]; intros s Hs; simpl; [intuition|].
  destruct (IH (ordered_insert x s) (ordered_insert_sorted x s Hs)) as [S I].
  split; [exact S|]. intros y. rewrite I, ordered_insert_In. intuition.
Qed.

(** The first hit of a scan that stops at the first answer. *)
Lemma first_hit_scan {A B : Type} (g : A -> option B) (l : list A) :
  match fold_left (fun found f => match found with Some _ => found | None => g f end) l None with
  | Some x => exists l1 f l2, l = l1 ++ f :: l2 /\ g f = Some x /\
                              forall f', In f' l1 -> g f' = None
  | None => forall f, In f l -> g f = None
  end.
Proof.
  assert (forall x, fold_left (fun found f => match found with Some _ => found | None => g f end)
                              l (Some x) = Some x) as K.
  { induction l as [|a r IH]; intros x; simpl; auto. }
  induction l as [|a r IH]; simpl; [intros f []|].
  destruct (g a) as [x|] eqn:E.
  - assert (fold_left (fun found f => match found with Some _ => found | None => g f end)
                      r (Some x) = Some x) as K'.
    { clear. induction r as [|a r IH]; simpl; auto. }
    rewrite K'. exists [], a, r. repeat split; auto. intros f' [].
  - assert (forall x, fold_left (fun found f => match found with Some _ => found | None => g f end)
                                r (Some x) = Some x) as Kr.
    { clear. induction r as [|a r IH]; intros x; simpl; auto. }
    specialize (IH Kr).
    destruct (fold_left (fun found f => match found with Some _ => found | None => g f end)
                        r None) as [x|].
    + destruct IH as (l1 & f & l2 & -> & Hf & Hl). exists (a :: l1), f, l2.
      repeat split; auto. intros f' [<-|H]; auto.
    + intros f [<-|H]; auto.
Qed.

Section SnapProperties.
Context {SH : SpatialHash} {CO : Collaborators}.

(** [get_snap_position] looks only at the reference triangles tracked by the
    shell faces it is given, in ascending order of their index, on the
    segment from the top to the base of the pillar: a returned point is the
    intersection with the first tracked triangle that has one, and nothing is
    returned exactly when no tracked triangle has one. *)
Theorem get_snap_position_first_tracked (p : PrismCage) (neighbor_pris : list Z) (v0 : Z) :
  let hit := fun f =>
    segment_triangle_intersection
      (zth (top p) v0 vec_zero, zth (base p) v0 vec_zero)
      (zth (ref_V (ref p)) (zth (zth (ref_F (ref p)) f [0; 0; 0]) 0 0) vec_zero,
       zth (ref_V (ref p)) (zth (zth (ref_F (ref p)) f [0; 0; 0]) 1 0) vec_zero,
       zth (ref_V (ref p)) (zth (zth (ref_F (ref p)) f [0; 0; 0]) 2 0) vec_zero) in
  let tracked := fun f => exists n, In n neighbor_pris /\ In f (zth (track_ref p) n []) in
  match get_snap_position p neighbor_pris v0 with
  | Some x => exists f, tracked f /\ hit f = Some x /\
                        forall f', tracked f' -> f' < f -> hit f' = None
  | None => forall f, tracked f -> hit f = None
  end.
Proof.
  intros hit tracked. unfold get_snap_position. cbv zeta.
  set (total :=
         fold_left (fun s f => fold_left (fun s' x => ordered_insert x s')
                                         (zth (track_ref p) f []) s) neighbor_pris []).
  assert (StronglySorted Z.lt total /\ forall f, In f total <-> tracked f) as [S M].
  { unfold total, tracked. clear.
    assert (forall s, StronglySorted Z.lt s ->
              StronglySorted Z.lt
                (fold_left (fun s f => fold_left (fun s' x => ordered_insert x s')
                                                 (zth (track_ref p) f []) s) neighbor_pris s) /\
              forall f, In f (fold_left (fun s f => fold_left (fun s' x => ordered_insert x s')
                                                 (zth (track_ref p) f []) s) neighbor_pris s) <->
                        (exists n, In n neighbor_pris /\ In f (zth (track_ref p) n [])) \/
                        In f s) as G.
    { induction neighbor_pris as [|n r IH]; intros s Hs; simpl.
      - split; [exact Hs|]. intros f. split; [auto|]. intros [(n & [] & _)|H]; exact H.
      - destruct (ordered_insert_fold (zth (track_ref p) n []) s Hs) as [S1 I1].
        destruct (IH _ S1) as [S2 I2]. split; [exact S2|].
        intros f. rewrite I2, I1. split.
        + intros [(k & Hk & Hf)|[Hf|Hf]]; [left; exists k; auto|left; exists n; auto|now right].
        + intros [(k & [<-|Hk] & Hf)|Hf]; [right; now left|left; exists k; auto|right; now right]. }
    destruct (G [] (SSorted_nil _)) as [S I]. split; [exact S|].
    intros f. rewrite I. split; [intros [H|[]]; exact H|now left]. }
  pose proof (first_hit_scan hit total) as FH.
  match goal with
  | |- match ?e with _ => _ end =>
      change e with (fold_left (fun (found : option Vec3d) (f : Z) =>
                                  match found with Some _ => found | None => hit f end)
                               total None)
  end.
  destruct (fold_left (fun (found : option Vec3d) (f : Z) =>
                         match found with Some _ => found | None => hit f end) total None)
    as [x|].
  - destruct FH as (l1 & f & l2 & E & Hf & Hl). exists f.
    split; [apply M; rewrite E; apply in_app_iff; right; now left|].
    split; [exact Hf|]. intros f' Tf' Lt. apply Hl.
    apply M in Tf'. rewrite E in Tf', S. apply in_app_iff in Tf'.
    destruct Tf' as [H|[H|H]]; [exact H|lia|].
    exfalso. clear - S H Lt. induction l1 as [|a r IH]; simpl in S.
    + inversion S as [|? ? _ F]; subst. rewrite Forall_forall in F. specialize (F _ H). lia.
    + inversion S; subst. auto.
  - intros f Tf. apply FH. now apply M.
Qed.

End SnapProperties.


(** ** Accepted edits *)

Lemma zset_eq_pointwise {A : Type} (l l' : list A) (i : Z) (y0 : A) :
  (forall y, zset l' i y = zset l i y) ->
  List.length l' = List.length l /\ forall j d, j <> i -> zth l' j d = zth l j d.
Proof.
  intros H. split.
  - rewrite <- (zset_length l' i y0), H. apply zset_length.
  - intros j d D. assert (i <> j) as D' by congruence.
    rewrite <- (zth_zset_other l' i j y0 d D'), H. now apply zth_zset_other.
Qed.

Section AcceptedEdits.
Context {SH : SpatialHash} {CO : Collaborators}.

Lemma update_pc_layers (p : PrismCage) (old_fid new_fid : list Z) (new_conn : list Vec3i)
    (new_tracks : list (list Z)) :
  base (fst (update_pc p old_fid new_fid new_conn new_tracks)) = base p /\
  mid (fst (update_pc p old_fid new_fid new_conn new_tracks)) = mid p /\
  top (fst (update_pc p old_fid new_fid new_conn new_tracks)) = top p /\
  ref (fst (update_pc p old_fid new_fid new_conn new_tracks)) = ref p.
Proof.
  unfold update_pc. cbv zeta.
  destruct (fold_left update_pc_install _ _) as [F1 T1]. simpl. auto.
Qed.

Lemma smooth_finish_accepted (v0 pv0 : Z) (sc : float) (x m'' : Mesh)
    (rollback : Mesh -> outcome) :
  (forall y, exists z, rollback y = Returned false z) ->
  smooth_finish v0 pv0 sc rollback x = Returned true m'' ->
  opt m'' = opt x /\ vert_attrs m'' = vert_attrs x /\ tet_attrs m'' = tet_attrs x /\
  vert_conn m'' = vert_conn x /\
  base (pc m'') = base (pc x) /\ mid (pc m'') = mid (pc x) /\ top (pc m'') = top (pc x) /\
  ref (pc m'') = ref (pc x) /\
  forallb (fun ti => tetra_validity (vert_attrs x) (tconn (tet_attrs x) ti))
          (zth (vert_conn x) v0 []) = true /\
  (pv0 = -1 ->
   pc m'' = pc x /\
   (sc <? max_tetra_sizes (vert_attrs x)
            (map (tconn (tet_attrs x)) (zth (vert_conn x) v0 [])))%float = false).
Proof.
  intros RB. unfold smooth_finish. cbv zeta.
  assert (forall y, rollback y = Returned true m'' -> False) as NR.
  { intros y E. destruct (RB y) as [z Ez]. congruence. }
  destruct ((pv0 =? -1) && _) eqn:C1; [intros H; destruct (NR _ H)|].
  destruct (forallb _ _) eqn:C2; simpl negb; cbv iota; [|intros H; destruct (NR _ H)].
  destruct (pv0 =? -1) eqn:C3; simpl negb; cbv iota.
  - intros H. inversion H; subst. repeat split; auto.
  - destruct (attempt_shell_operation _ _ _ _ _) as [flag nt].
    destruct (negb (flag =? 0)); [intros H; destruct (NR _ H)|].
    intros H. inversion H; subst. clear H. unfold with_pc. simpl.
    destruct (update_pc_layers (pc x) (neighbor_prisms (tet_attrs x) (zth (vert_conn x) v0 []) v0)
                (neighbor_prisms (tet_attrs x) (zth (vert_conn x) v0 []) v0)
                (map (fun f => zth (F (pc x)) f [0; 0; 0])
                     (neighbor_prisms (tet_attrs x) (zth (vert_conn x) v0 []) v0)) nt)
      as (B & M & T & R).
    apply Z.eqb_neq in C3. repeat split; auto; contradiction.
Qed.


Lemma collapse_commit (m1 m' : Mesh) (v1 : Z) (affected : list Z) (new_tets : list Vec4i)
    (new_fid : list Z) (moved_tris : list Vec3i) :
  match rewrite_conn (with_conn m1 (tet_attrs m1) (zset (vert_conn m1) v1 []))
                     affected new_tets new_fid moved_tris with
  | inl msg => Thrown msg
  | inr m3 =>
      audited (with_vert_attrs m3 (zset (vert_attrs m3) v1 {| pos := vec_zero; mid_id := -1 |}))
              "Sanity Error"
  end = Returned true m' ->
  pc m' = pc m1 /\ opt m' = opt m1 /\
  vert_attrs m' = zset (vert_attrs m1) v1 {| pos := vec_zero; mid_id := -1 |} /\
  exists kept added,
    tet_attrs m' = kept ++ added /\
    List.length kept = List.length (tet_attrs m1) /\
    (forall i, 0 <= i < zlen (tet_attrs m1) ->
       zth kept i TetAttr_default =
       if existsb (Z.eqb i) affected
       then set_removed (zth (tet_attrs m1) i TetAttr_default)
       else zth (tet_attrs m1) i TetAttr_default) /\
    map conn added = new_tets /\
    Forall (fun t => is_removed t = false) added.
Proof.
  unfold rewrite_conn. simpl.
  destruct (update_tetra_conn _ _ _ _ _ _ _) as [msg|[ta' vc']] eqn:U; [discriminate|].
  intros H. apply audited_true in H. destruct H as (_ & -> & _). simpl.
  repeat split; try reflexivity.
  apply update_tetra_conn_slots in U. destruct U as (kept & added & U).
  exists kept, added. exact U.
Qed.

(** What an accepted [collapse_edge] has done.  The options are kept; in the
    vertex store exactly the slot of [v1] is overwritten, with the dead
    vertex (position zero, no shell-id); every tet slot stays at its index
    and is marked removed exactly when it was adjacent to [v1]; the
    replacement tets are appended live, in order; the three shell layers keep
    all their entries, and after an interior edge the whole shell is kept. *)
Theorem collapse_edge_accepted (m m' : Mesh) (v1 v2 : Z) (sc : float) :
  collapse_edge m v1 v2 sc = Returned true m' ->
  let nb1 := zth (vert_conn m) v1 [] in
  opt m' = opt m /\
  vert_attrs m' = zset (vert_attrs m) v1 {| pos := vec_zero; mid_id := -1 |} /\
  (exists kept added,
     tet_attrs m' = kept ++ added /\
     List.length kept = List.length (tet_attrs m) /\
     (forall i, 0 <= i < zlen (tet_attrs m) ->
        zth kept i TetAttr_default =
        if existsb (Z.eqb i) nb1
        then set_removed (zth (tet_attrs m) i TetAttr_default)
        else zth (tet_attrs m) i TetAttr_default) /\
     map conn added = collapse_new_tets (tet_attrs m) nb1 v1 v2 /\
     Forall (fun t => is_removed t = false) added) /\
  base (pc m') = base (pc m) /\ mid (pc m') = mid (pc m) /\ top (pc m') = top (pc m) /\
  (is_nil (edge_adjacent_boundary_face (tet_attrs m) (vert_conn m) v1 v2) = true ->
   pc m' = pc m).
Proof.
  intros H nb1. revert H. unfold collapse_edge. cbv zeta. fold nb1. intros H.
  repeat match type of H with
         | (if ?c then Returned false _ else _) = _ => destruct c; [discriminate H|]
         end.
  destruct (is_nil (edge_adjacent_boundary_face (tet_attrs m) (vert_conn m) v1 v2)) eqn:B.
  - apply collapse_commit in H. destruct H as (Ep & Eo & Ev & T).
    rewrite Ep. repeat split; auto.
  - destruct (zlen _ + zlen _ <? 4); [discriminate H|].
    destruct (collapse_shell_faces _ _ _ _) as [[old_fid new_fid] moved_tris].
    destruct (attempt_shell_operation _ _ _ _ _) as [flag new_tracks].
    destruct (negb (flag =? 0)); [discriminate H|].
    pose proof (update_pc_layers (pc m) old_fid new_fid moved_tris new_tracks)
      as (Lb & Lm & Lt & _).
    destruct (update_pc (pc m) old_fid new_fid moved_tris new_tracks) as [p1 mt].
    simpl in Lb, Lm, Lt.
    apply collapse_commit in H. destruct H as (Ep & Eo & Ev & T).
    simpl in Ep, Eo, Ev, T. rewrite zset_zset in Ev. rewrite Ep.
    repeat split; auto. discriminate.
Qed.


(** The shell block of [split_edge], run after the midpoint vertex was pushed:
    one entry more on each layer and on [target_adjustment], and the new
    vertex bound to the new shell vertex. *)
Lemma split_push_shell_pushed (m : Mesh) (v0 v1 : Z) (c : Vec3d) :
  let va := vert_attrs m in
  let p := pc m in
  let ta := target_adjustment (opt m) in
  let m2 := split_push_shell (with_vert_attrs m (va ++ [set_pos VertAttr_default c])) v0 v1 in
  0 <= v0 < zlen va -> 0 <= v1 < zlen va ->
  base (pc m2) =
    base p ++ [midpoint (zth (base p) (vmid va v0) vec_zero)
                        (zth (base p) (vmid va v1) vec_zero)] /\
  mid (pc m2) = mid p ++ [c] /\
  top (pc m2) =
    top p ++ [midpoint (zth (top p) (vmid va v0) vec_zero)
                       (zth (top p) (vmid va v1) vec_zero)] /\
  ref (pc m2) = ref p /\
  target_adjustment (opt m2) =
    ta ++ [((zth ta (vmid va v0) 0 + zth ta (vmid va v1) 0) / 2)%float] /\
  vert_attrs m2 = va ++ [{| pos := c; mid_id := zlen (mid p) |}].
Proof.
  intros va p ta m2 H0 H1. unfold m2, split_push_shell. cbv zeta. simpl.
  fold va. fold p. fold ta.
  rewrite set_last_snoc, !last_last. unfold vmid.
  rewrite !(zth_app_l va _ v0 _ H0), !(zth_app_l va _ v1 _ H1).
  repeat apply conj; reflexivity.
Qed.

(** An accepted [split_edge] and the shell.  After an interior edge (no
    boundary face on it) the shell and the options are those of before and
    the new vertex is bound to no shell vertex.  After a boundary edge each
    of the three layers has gained exactly one entry: on [base] and [top] the
    midpoint of the two pillars of the edge, on [mid] the position of the new
    vertex; [target_adjustment] has gained the mean of the two entries of the
    edge; the reference surface is the one before; and the new vertex is
    bound to the new shell vertex. *)
Theorem split_edge_accepted_shell (m m' : Mesh) (v0 v1 : Z) :
  let va := vert_attrs m in
  let p := pc m in
  let ta := target_adjustment (opt m) in
  let c := midpoint (vpos va v0) (vpos va v1) in
  0 <= v0 < zlen va -> 0 <= v1 < zlen va ->
  split_edge m v0 v1 = Returned true m' ->
  if is_nil (edge_adjacent_boundary_face (tet_attrs m) (vert_conn m) v0 v1)
  then pc m' = p /\ opt m' = opt m /\
       vert_attrs m' = va ++ [{| pos := c; mid_id := -1 |}]
  else
    base (pc m') =
      base p ++ [midpoint (zth (base p) (vmid va v0) vec_zero)
                          (zth (base p) (vmid va v1) vec_zero)] /\
    mid (pc m') = mid p ++ [c] /\
    top (pc m') =
      top p ++ [midpoint (zth (top p) (vmid va v0) vec_zero)
                         (zth (top p) (vmid va v1) vec_zero)] /\
    ref (pc m') = ref p /\
    target_adjustment (opt m') =
      ta ++ [((zth ta (vmid va v0) 0 + zth ta (vmid va v1) 0) / 2)%float] /\
    vert_attrs m' = va ++ [{| pos := c; mid_id := zlen (mid p) |}].
Proof.
  intros va p ta c H0 H1. unfold split_edge. cbv zeta.
  rewrite (split_push_vertex_eq (vert_attrs m) v0 v1 H0 H1).
  fold va. fold c.
  set (m1 := with_vert_attrs m (va ++ [set_pos VertAttr_default c])).
  set (bnd := edge_adjacent_boundary_face (tet_attrs m) (vert_conn m) v0 v1).
  assert (forall m3 fid tris,
            match rewrite_conn m3 (split_affected m v0 v1)
                    (split_new_tets (tet_attrs m) (split_affected m v0 v1) v0 v1
                       (zlen va)) fid tris with
            | inl msg => Thrown msg
            | inr m4 => audited m4 "Sanity Error"
            end = Returned true m' ->
            pc m' = pc m3 /\ opt m' = opt m3 /\ vert_attrs m' = vert_attrs m3) as CM.
  { intros m3 fid tris E.
    destruct (rewrite_conn m3 _ _ fid tris) as [msg|m4] eqn:R; [discriminate|].
    apply audited_true in E. destruct E as (_ & -> & _).
    exact (rewrite_conn_stores _ _ _ _ _ _ R). }
  destruct (is_nil bnd) eqn:B.
  - match goal with |- context [negb (forallb ?f ?l)] => destruct (negb (forallb f l)) end;
      [unfold split_rollback; discriminate|].
    intros E. apply CM in E. exact E.
  - pose proof (split_push_shell_pushed m v0 v1 c H0 H1) as S. cbv zeta in S.
    fold va in S. fold p in S. fold ta in S. fold m1 in S.
    revert S. generalize (split_push_shell m1 v0 v1). intros m2 S.
    match goal with |- context [negb (forallb ?f ?l)] => destruct (negb (forallb f l)) end;
      [unfold split_rollback; discriminate|].
    destruct (attempt_shell_operation _ _ _ _ _) as [flag new_tracks].
    destruct (negb (flag =? 0)); [unfold split_rollback; discriminate|].
    match goal with |- context [update_pc ?a ?b ?d ?e ?f] =>
      pose proof (update_pc_layers a b d e f) as L;
      destruct (update_pc a b d e f) as [p3 tris'] end.
    simpl in L. destruct L as (Lb & Lm & Lt & Lr).
    intros E. apply CM in E. destruct E as (Ep & Eo & Ev). simpl in Ep, Eo, Ev.
    destruct S as (Sb & Sm & St & Sr & Sa & Sv).
    rewrite Ep, Eo, Ev, Lb, Lm, Lt, Lr.
    repeat apply conj; assumption.
Qed.

End AcceptedEdits.


(** ** The adjacency lists stay sorted *)

Lemma Forall_zset {A : Type} (P : A -> Prop) (l : list A) (i : Z) (x : A) :
  Forall P l -> P x -> Forall P (zset l i x).
Proof.
  intros H Hx. unfold zset. destruct (i <? 0); [exact H|].
  generalize (Z.to_nat i). clear i. induction H as [|y r Hy Hr IH]; intros [|n]; simpl;
    constructor; auto.
Qed.

Lemma Forall_zth {A : Type} (P : A -> Prop) (l : list A) (i : Z) (d : A) :
  Forall P l -> P d -> P (zth l i d).
Proof.
  intros H Hd. unfold zth. destruct (i <? 0); [exact Hd|].
  destruct (nth_in_or_default (Z.to_nat i) l d) as [I|E]; [|now rewrite E].
  rewrite Forall_forall in H. now apply H.
Qed.

Lemma Forall_resize {A : Type} (P : A -> Prop) (l : list A) (n : Z) (d : A) :
  Forall P l -> P d -> Forall P (resize l n d).
Proof.
  intros H Hd. unfold resize. apply Forall_app. split.
  - rewrite <- (firstn_skipn (Z.to_nat n) l) in H. apply Forall_app in H. tauto.
  - rewrite Forall_forall. intros x Hx. apply repeat_spec in Hx. now subst.
Qed.

Section SortedAdjacency.
Context {SH : SpatialHash} {CO : Collaborators}.

(** [update_tetra_conn] keeps every adjacency list ascending, as long as
    [set_minus] keeps an ascending list ascending: this is the precondition
    of [set_inter], on which every editor relies to find the tets around an
    edge or a face. *)
Lemma update_tetra_conn_keeps_sorted va ta vc affected new_tets pids tris ta' vc' :
  (forall A B, StronglySorted Z.le A -> StronglySorted Z.le (set_minus A B)) ->
  Forall (StronglySorted Z.le) vc ->
  update_tetra_conn va ta vc affected new_tets pids tris = inr (ta', vc') ->
  Forall (StronglySorted Z.le) vc'.
Proof.
  intros Hsm Hvc. unfold update_tetra_conn. cbv zeta.
  destruct (fold_left (retire_tet va) affected (ta, [])) as [ta1 mp0].
  assert (forall L vc0, Forall (StronglySorted Z.le) vc0 ->
            Forall (StronglySorted Z.le)
              (fold_left (fun vc' v => zset vc' v (set_minus (zth vc' v []) affected)) L vc0))
    as R1.
  { induction L as [|v r IH]; intros vc0 H0; simpl; [exact H0|].
    apply IH. apply Forall_zset; [exact H0|]. apply Hsm. apply Forall_zth; [exact H0|constructor]. }
  assert (forall mp tets ta0 vc0 cnt, Forall (StronglySorted Z.le) vc0 ->
            Forall (StronglySorted Z.le)
              (snd (fst (fold_left (install_tet va affected mp) tets (ta0, vc0, cnt)))))
    as R2.
  { intros mp. induction tets as [|t r IH]; intros ta0 vc0 cnt H0; [exact H0|].
    change (fold_left (install_tet va affected mp) (t :: r) (ta0, vc0, cnt))
      with (fold_left (install_tet va affected mp) r (install_tet va affected mp (ta0, vc0, cnt) t)).
    unfold install_tet at 2. cbv zeta. destruct (assign_tags va mp t) as [pr c].
    apply IH.
    assert (forall J vc1, Forall (StronglySorted Z.le) vc1 ->
              Forall (StronglySorted Z.le)
                (fold_left (fun vc' i =>
                     zset vc' (zth t i 0)
                       (set_insert (set_minus (zth vc' (zth t i 0) []) affected) (zlen ta0)))
                   J vc1)) as R3.
    { induction J as [|j J IHJ]; intros vc1 H1; simpl; [exact H1|].
      apply IHJ. apply Forall_zset; [exact H1|].
      apply set_insert_sorted. apply Hsm. apply Forall_zth; [exact H1|constructor]. }
    apply R3. exact H0. }
  match goal with
  | |- context [fold_left (install_tet va affected ?mp) new_tets (ta1, ?vc1, 0)] =>
      pose proof (R2 mp new_tets ta1 vc1 0) as R;
      destruct (fold_left (install_tet va affected mp) new_tets (ta1, vc1, 0)) as [[ta2 vc2] cnt]
  end.
  simpl in R. intros H.
  destruct (negb _); [discriminate|]. destruct (_ && _); [discriminate|].
  inversion H; subst. apply R. apply R1. apply Forall_resize; [exact Hvc|constructor].
Qed.

Lemma rewrite_conn_keeps_sorted (m m1 : Mesh) affected new_tets new_fid moved_tris :
  (forall A B, StronglySorted Z.le A -> StronglySorted Z.le (set_minus A B)) ->
  Forall (StronglySorted Z.le) (vert_conn m) ->
  rewrite_conn m affected new_tets new_fid moved_tris = inr m1 ->
  Forall (StronglySorted Z.le) (vert_conn m1).
Proof.
  intros Hsm Hvc. unfold rewrite_conn.
  destruct (update_tetra_conn _ _ _ _ _ _ _) as [msg|[ta' vc']] eqn:U; [discriminate|].
  intros H. inversion H; subst. simpl.
  eapply update_tetra_conn_keeps_sorted; eassumption.
Qed.

Lemma commit_keeps_sorted (m3 m' : Mesh) (b : bool) affected new_tets new_fid moved_tris msg :
  (forall A B, StronglySorted Z.le A -> StronglySorted Z.le (set_minus A B)) ->
  Forall (StronglySorted Z.le) (vert_conn m3) ->
  match rewrite_conn m3 affected new_tets new_fid moved_tris with
  | inl e => Thrown e
  | inr m4 => audited m4 msg
  end = Returned b m' ->
  Forall (StronglySorted Z.le) (vert_conn m').
Proof.
  intros Hsm Hvc.
  destruct (rewrite_conn m3 affected new_tets new_fid moved_tris) as [e|m4] eqn:U;
    [discriminate|].
  intros H. apply audited_true in H. destruct H as (_ & -> & _).
  eapply rewrite_conn_keeps_sorted; eassumption.
Qed.

(** Whatever one of the four editors returns, accepted or not, the adjacency
    lists it leaves are ascending when they were before the call. *)
Theorem editors_keep_adjacency_sorted (c : editor_call) (m m' : Mesh) (b : bool) :
  (forall A B, StronglySorted Z.le A -> StronglySorted Z.le (set_minus A B)) ->
  Forall (StronglySorted Z.le) (vert_conn m) ->
  run_editor c m = Returned b m' ->
  Forall (StronglySorted Z.le) (vert_conn m').
Proof.
  intros Hsm Hvc. destruct c as [v0 v1|v1 v2 sc|v1 v2 sc|v0 v1 v2 sc]; simpl.
  - unfold split_edge. cbv zeta.
    set (m1 := with_vert_attrs m (split_push_vertex (vert_attrs m) v0 v1)).
    set (bnd := edge_adjacent_boundary_face (tet_attrs m) (vert_conn m) v0 v1).
    set (m2 := if is_nil bnd then m1 else split_push_shell m1 v0 v1).
    assert (vert_conn m2 = vert_conn m) as E2.
    { unfold m2. destruct (is_nil bnd); reflexivity. }
    destruct (negb (forallb _ _)).
    { unfold split_rollback. intros H. inversion H; subst.
      change (Forall (StronglySorted Z.le) (vert_conn m2)). rewrite E2. exact Hvc. }
    destruct (is_nil bnd).
    { apply commit_keeps_sorted; [exact Hsm|now rewrite E2]. }
    destruct (attempt_shell_operation _ _ _ _ _) as [flag nt].
    destruct (negb (flag =? 0)).
    { unfold split_rollback. intros H. inversion H; subst.
      change (Forall (StronglySorted Z.le) (vert_conn m2)). rewrite E2. exact Hvc. }
    destruct (update_pc _ _ _ _ _) as [p3 mt].
    apply commit_keeps_sorted; [exact Hsm|].
    change (Forall (StronglySorted Z.le) (vert_conn m2)). rewrite E2. exact Hvc.
  - unfold collapse_edge. cbv zeta. intros H.
    repeat match type of H with
           | (if ?c then Returned false _ else _) = _ =>
               destruct c; [inversion H; subst; exact Hvc|]
           end.
    assert (Forall (StronglySorted Z.le) (zset (vert_conn m) v1 [])) as Hz
      by (apply Forall_zset; [exact Hvc|constructor]).
    destruct (is_nil _).
    + destruct (rewrite_conn _ _ _ _ _) as [e|m3] eqn:U; [discriminate H|].
      apply audited_true in H. destruct H as (_ & -> & _). simpl.
      eapply rewrite_conn_keeps_sorted; [exact Hsm| |exact U]. exact Hz.
    + destruct (zlen _ + zlen _ <? 4); [discriminate H|].
      destruct (collapse_shell_faces _ _ _ _) as [[old_fid new_fid] moved_tris].
      destruct (attempt_shell_operation _ _ _ _ _) as [flag new_tracks].
      destruct (negb (flag =? 0)); [inversion H; subst; exact Hvc|].
      destruct (update_pc _ _ _ _ _) as [p1 mt].
      destruct (rewrite_conn _ _ _ _ _) as [e|m3] eqn:U; [discriminate H|].
      apply audited_true in H. destruct H as (_ & -> & _). simpl.
      eapply rewrite_conn_keeps_sorted; [exact Hsm| |exact U]. exact Hz.
  - unfold swap_edge. cbv zeta. intros H.
    repeat match type of H with
           | (if ?c then Returned false _ else _) = _ =>
               destruct c; [inversion H; subst; exact Hvc|]
           end.
    eapply commit_keeps_sorted in H; [exact H|exact Hsm|exact Hvc].
  - unfold swap_face. cbv zeta. intros H.
    repeat match type of H with
           | (if ?c then Returned false _ else _) = _ =>
               destruct c; [inversion H; subst; exact Hvc|]
           end.
    eapply commit_keeps_sorted in H; [exact H|exact Hsm|exact Hvc].
Qed.

End SortedAdjacency.


(** ** The passes of the tests *)

Section PassProperties.
Context {SH : SpatialHash} {CO : Collaborators}.

Lemma sanity_valid_spec (ta : list TetAttr) (va : list VertAttr) :
  sanity_valid ta va = true <->
  forall t, In t ta -> is_removed t = false -> tetra_validity va (conn t) = true.
Proof.
  unfold sanity_valid, live_tets. rewrite forallb_forall. split.
  - intros H t Ht R. apply H. apply filter_In. split; [exact Ht|]. now rewrite R.
  - intros H t Ht. apply filter_In in Ht. destruct Ht as [Ht R]. apply H; [exact Ht|].
    now destruct (is_removed t).
Qed.

Lemma sane_valid (ta : list TetAttr) (va : list VertAttr) (vtc : list (list Z))
    (p : PrismCage) :
  tetmesh_sanity ta va vtc p = true -> sanity_valid ta va = true.
Proof.
  unfold tetmesh_sanity. destruct (sanity_valid ta va); [reflexivity|discriminate].
Qed.

(** One call of [collapse_edge], [swap_edge] or [swap_face] that returns. *)
Lemma edit_keeps_valid (c : editor_call) (m m' : Mesh) (b : bool) :
  (forall v0 v1, c <> SplitEdge v0 v1) ->
  run_editor c m = Returned b m' ->
  sanity_valid (tet_attrs m) (vert_attrs m) = true ->
  sanity_valid (tet_attrs m') (vert_attrs m') = true.
Proof.
  intros Hc H V. destruct b.
  - destruct c; simpl in H.
    + exfalso. exact (Hc _ _ eq_refl).
    + eapply sane_valid, collapse_edge_true_sane; eassumption.
    + eapply sane_valid, swap_edge_true_sane; eassumption.
    + eapply sane_valid, swap_face_true_sane; eassumption.
  - assert (m' = m) as ->; [|exact V].
    destruct c; simpl in H.
    + exfalso. exact (Hc _ _ eq_refl).
    + eapply collapse_edge_false_unchanged; eassumption.
    + eapply swap_edge_false_unchanged; eassumption.
    + eapply swap_face_false_unchanged; eassumption.
Qed.

Lemma swap_face_pass_valid (queue : list (Z * Z * Z)) (sizing : float) (m m' : Mesh) :
  sanity_valid (tet_attrs m) (vert_attrs m) = true ->
  swap_face_pass queue sizing m = inr m' ->
  sanity_valid (tet_attrs m') (vert_attrs m') = true.
Proof.
  revert m. induction queue as [|[[v0 v1] v2] r IH]; intros m V H; simpl in H.
  - inversion H; subst. exact V.
  - destruct (swap_face m v0 v1 v2 sizing) as [b m1|msg] eqn:E; [|discriminate H].
    apply (IH m1); [|exact H].
    apply (edit_keeps_valid (SwapFace v0 v1 v2 sizing) m m1 b); [discriminate|exact E|exact V].
Qed.

Lemma swap_edge_pass_valid (queue : list (Z * Z)) (sizing : float) (m m' : Mesh) :
  sanity_valid (tet_attrs m) (vert_attrs m) = true ->
  swap_edge_pass queue sizing m = inr m' ->
  sanity_valid (tet_attrs m') (vert_attrs m') = true.
Proof.
  revert m. induction queue as [|[v0 v1] r IH]; intros m V H; simpl in H.
  - inversion H; subst. exact V.
  - destruct (swap_edge m v0 v1 sizing) as [b m1|msg] eqn:E; [|discriminate H].
    apply (IH m1); [|exact H].
    apply (edit_keeps_valid (SwapEdge v0 v1 sizing) m m1 b); [discriminate|exact E|exact V].
Qed.

Lemma collapse_pass_valid (queue : list (Z * Z)) (sizing : float) (m m' : Mesh) :
  sanity_valid (tet_attrs m) (vert_attrs m) = true ->
  collapse_pass queue sizing m = inr m' ->
  sanity_valid (tet_attrs m') (vert_attrs m') = true.
Proof.
  revert m. induction queue as [|[v0 v1] r IH]; intros m V H; simpl in H.
  - inversion H; subst. exact V.
  - destruct (is_nil _); [now apply (IH m)|].
    destruct (collapse_edge m v0 v1 sizing) as [b m1|msg] eqn:E; [|discriminate H].
    apply (IH m1); [|exact H].
    apply (edit_keeps_valid (CollapseEdge v0 v1 sizing) m m1 b); [discriminate|exact E|exact V].
Qed.

(** The final [CHECK] of the tests "sphere-tet-swap" and "reload-swap" cannot
    fail on a run that ends: when every tet that is not removed is valid
    before the passes, every tet that is not removed is valid after them,
    whatever the queues hold and in whatever order, because a rejected edit
    writes nothing and an accepted one has passed the audit. *)
Theorem passes_keep_tets_valid (sizing : float) (m : Mesh) :
  (forall t, In t (tet_attrs m) -> is_removed t = false ->
             tetra_validity (vert_attrs m) (conn t) = true) ->
  (forall queue m', swap_face_pass queue sizing m = inr m' ->
     forall t, In t (tet_attrs m') -> is_removed t = false ->
               tetra_validity (vert_attrs m') (conn t) = true) /\
  (forall face_queue edge_queue collapse_queue m',
     reload_swap face_queue edge_queue collapse_queue sizing m = inr m' ->
     forall t, In t (tet_attrs m') -> is_removed t = false ->
               tetra_validity (vert_attrs m') (conn t) = true).
Proof.
  intros V. apply sanity_valid_spec in V. split.
  - intros queue m' H. apply sanity_valid_spec. eapply swap_face_pass_valid; eassumption.
  - intros fq eq cq m' H. apply sanity_valid_spec. unfold reload_swap in H.
    destruct (swap_face_pass (fq m) sizing m) as [msg|m1] eqn:E1; [discriminate H|].
    destruct (swap_edge_pass (eq m1) sizing m1) as [msg|m2] eqn:E2; [discriminate H|].
    eapply collapse_pass_valid; [|exact H].
    eapply swap_edge_pass_valid; [|exact E2].
    eapply swap_face_pass_valid; eassumption.
Qed.

End PassProperties.


(** ** Loading and saving: [prepare_tet_info] and [convert_to_VT] *)

Lemma indices_cons {A : Type} (a : A) (l : list A) :
  indices (a :: l) = 0 :: map (fun i => i + 1) (indices l).
Proof.
  unfold indices. simpl List.length. simpl seq. simpl map. f_equal.
  rewrite <- seq_shift, !map_map. apply map_ext. intros n. lia.
Qed.

Lemma zth_cons_succ {A : Type} (a : A) (l : list A) (i : Z) (d : A) :
  0 <= i -> zth (a :: l) (i + 1) d = zth l i d.
Proof.
  intros H. unfold zth. destruct (i + 1 <? 0) eqn:E1; [lia|]. destruct (i <? 0) eqn:E2; [lia|].
  replace (Z.to_nat (i + 1)) with (S (Z.to_nat i)) by lia. reflexivity.
Qed.

Lemma In_indices {A : Type} (l : list A) (i : Z) : In i (indices l) <-> 0 <= i < zlen l.
Proof.
  unfold indices, zlen. rewrite in_map_iff. split.
  - intros (n & <- & Hn). apply in_seq in Hn. lia.
  - intros H. exists (Z.to_nat i). split; [lia|]. apply in_seq. lia.
Qed.

Lemma map_indices_ext {A B : Type} (l : list A) (f : Z -> B) (g : A -> B) (d : A) :
  (forall i, 0 <= i < zlen l -> f i = g (zth l i d)) -> map f (indices l) = map g l.
Proof.
  revert f. induction l as [|a r IH]; intros f H; [reflexivity|].
  rewrite indices_cons. simpl. f_equal.
  - apply (H 0). unfold zlen. simpl List.length. lia.
  - rewrite map_map. apply IH. intros i Hi. rewrite H.
    + now rewrite zth_cons_succ by lia.
    + unfold zlen in *. simpl List.length. lia.
Qed.

Lemma zth_map_in {A B : Type} (f : A -> B) (l : list A) (i : Z) (d : B) (d' : A) :
  0 <= i < zlen l -> zth (map f l) i d = f (zth l i d').
Proof.
  unfold zth, zlen. intros H. destruct (i <? 0) eqn:E; [lia|].
  rewrite (nth_indep _ d (f d')) by (rewrite length_map; lia). apply map_nth.
Qed.

Lemma tet_row_eq (t : Vec4i) :
  List.length t = 4%nat -> map (fun j => zth t j 0) [0; 1; 2; 3] = t.
Proof.
  intros L. destruct t as [|a [|b [|c [|d [|]]]]]; try discriminate L. reflexivity.
Qed.

Section PrepareProperties.
Context {SH : SpatialHash} {CO : Collaborators}.

Lemma live_tets_all (ta : list TetAttr) :
  Forall (fun t => is_removed t = false) ta -> live_tets ta = ta.
Proof.
  intros H. unfold live_tets. induction H as [|t r Ht Hr IH]; simpl; [reflexivity|].
  rewrite Ht. simpl. now rewrite IH.
Qed.

Lemma prepare_tet_info_vertices (p : PrismCage) (tet_v : list Vec3d) (tet_t : list Vec4i)
    (tet_v_pid : list Z) :
  fst (fst (prepare_tet_info p tet_v tet_t tet_v_pid)) =
  map (fun i => {| pos := zth tet_v i vec_zero; mid_id := zth tet_v_pid i 0 |})
      (indices tet_v).
Proof. reflexivity. Qed.

Lemma prepare_tet_info_tets (p : PrismCage) (tet_v : list Vec3d) (tet_t : list Vec4i)
    (tet_v_pid : list Z) :
  map conn (snd (fst (prepare_tet_info p tet_v tet_t tet_v_pid))) =
  map (fun t => map (fun j => zth t j 0) [0; 1; 2; 3]) tet_t /\
  Forall (fun t => is_removed t = false) (snd (fst (prepare_tet_info p tet_v tet_t tet_v_pid))).
Proof.
  unfold prepare_tet_info. cbv zeta. cbn [fst snd]. split.
  - rewrite map_map. reflexivity.
  - apply Forall_forall. intros t Ht. apply in_map_iff in Ht.
    destruct Ht as (x & <- & _). reflexivity.
Qed.

(** Saving what was just loaded gives the input back: [convert_to_VT] after
    [prepare_tet_info] returns the vertex matrix, the tet matrix and the
    shell-ids that were given, when there is one shell-id per vertex. *)
Theorem prepare_then_convert (p : PrismCage) (tet_v : list Vec3d) (tet_t : list Vec4i)
    (tet_v_pid : list Z) :
  List.length tet_v_pid = List.length tet_v ->
  Forall (fun t => List.length t = 4%nat) tet_t ->
  convert_to_VT (fst (fst (prepare_tet_info p tet_v tet_t tet_v_pid)))
                (snd (fst (prepare_tet_info p tet_v tet_t tet_v_pid)))
  = (tet_v, tet_t, tet_v_pid).
Proof.
  intros L R. unfold convert_to_VT.
  destruct (prepare_tet_info_tets p tet_v tet_t tet_v_pid) as [C A].
  rewrite (live_tets_all _ A), prepare_tet_info_vertices.
  assert (map (fun t : TetAttr => map (fun j => zth (conn t) j 0) [0; 1; 2; 3])
              (snd (fst (prepare_tet_info p tet_v tet_t tet_v_pid))) = tet_t) as ET.
  { rewrite <- (map_map conn (fun c => map (fun j => zth c j 0) [0; 1; 2; 3])), C, map_map.
    rewrite <- (map_id tet_t) at 2. apply map_ext_in. intros t Ht.
    rewrite Forall_forall in R. rewrite (tet_row_eq t (R t Ht)). apply tet_row_eq.
    exact (R t Ht). }
  rewrite ET. clear ET C A.
  assert (map pos (map (fun i => {| pos := zth tet_v i vec_zero; mid_id := zth tet_v_pid i 0 |})
                       (indices tet_v)) = tet_v) as EV.
  { rewrite map_map. cbn [pos]. rewrite (map_indices_ext tet_v _ (fun x => x) vec_zero).
    - apply map_id.
    - reflexivity. }
  assert (map mid_id (map (fun i => {| pos := zth tet_v i vec_zero;
                                        mid_id := zth tet_v_pid i 0 |})
                          (indices tet_v)) = tet_v_pid) as EP.
  { rewrite map_map. cbn [mid_id].
    replace (indices tet_v) with (indices tet_v_pid) by (unfold indices; now rewrite L).
    rewrite (map_indices_ext tet_v_pid _ (fun x => x) 0).
    - apply map_id.
    - reflexivity. }
  rewrite EV, EP. reflexivity.
Qed.

(** Loading what was just saved: [prepare_tet_info] after [convert_to_VT]
    restores the vertex store exactly, and its tet store holds the tets that
    were not removed, in order, none of them removed. *)
Theorem convert_then_prepare (p : PrismCage) (va : list VertAttr) (ta : list TetAttr) :
  Forall (fun t => List.length (conn t) = 4%nat) ta ->
  let saved := convert_to_VT va ta in
  let loaded := prepare_tet_info p (fst (fst saved)) (snd (fst saved)) (snd saved) in
  fst (fst loaded) = va /\
  map conn (snd (fst loaded)) = map conn (live_tets ta) /\
  Forall (fun t => is_removed t = false) (snd (fst loaded)).
Proof.
  intros R saved loaded. unfold loaded.
  destruct (prepare_tet_info_tets p (fst (fst saved)) (snd (fst saved)) (snd saved)) as [C A].
  rewrite prepare_tet_info_vertices, C. unfold saved, convert_to_VT. cbn [fst snd].
  split; [|split; [|exact A]].
  - transitivity (map (fun x : VertAttr => x) va); [|apply map_id].
    replace (indices (map pos va)) with (indices va)
      by (unfold indices; now rewrite length_map).
    apply (map_indices_ext va _ (fun x => x) VertAttr_default).
    intros i Hi.
    rewrite (zth_map_in pos va i vec_zero VertAttr_default Hi).
    rewrite (zth_map_in mid_id va i 0 VertAttr_default Hi).
    destruct (zth va i VertAttr_default). reflexivity.
  - rewrite !map_map. apply map_ext_in. intros t Ht.
    unfold live_tets in Ht. apply filter_In in Ht. destruct Ht as [Ht _].
    rewrite Forall_forall in R. rewrite (tet_row_eq (conn t) (R t Ht)).
    apply tet_row_eq. exact (R t Ht).
Qed.

Lemma zth_repeat_nil (n : nat) (v : Z) : zth (repeat (@nil Z) n) v [] = [].
Proof.
  unfold zth. destruct (v <? 0); [reflexivity|].
  destruct (nth_in_or_default (Z.to_nat v) (repeat (@nil Z) n) []) as [H|H]; [|exact H].
  apply repeat_spec in H. exact H.
Qed.

(** The loop [for j: vt_conn[f(j)].emplace_back(i)]. *)
Lemma incidence_inner (i : Z) (f : Z -> Z) (J : list Z) (vt : list (list Z)) :
  List.length (fold_left (fun vt' j => zset vt' (f j) (zth vt' (f j) [] ++ [i])) J vt) =
  List.length vt /\
  forall v x, 0 <= v < zlen vt ->
    (In x (zth (fold_left (fun vt' j => zset vt' (f j) (zth vt' (f j) [] ++ [i])) J vt) v [])
     <-> In x (zth vt v []) \/ (x = i /\ exists j, In j J /\ f j = v)).
Proof.
  revert vt. induction J as [|j r IH]; intros vt.
  - simpl. split; [reflexivity|]. intros v x _. split; [auto|].
    intros [H|(_ & j & [] & _)]. exact H.
  - simpl fold_left.
    destruct (IH (zset vt (f j) (zth vt (f j) [] ++ [i]))) as [L I].
    split; [now rewrite L, zset_length|]. intros v x Hv.
    rewrite I by (now rewrite zlen_zset). clear I L.
    destruct (Z.eq_dec (f j) v) as [E|D].
    + rewrite E. rewrite zth_zset_in by exact Hv. rewrite in_app_iff. simpl. split.
      * intros [[H|[H|[]]]|(Hx & k & Hk & Ek)]; [now left|right|right].
        -- split; [now symmetry|]. exists j. split; [now left|exact E].
        -- split; [exact Hx|]. exists k. split; [now right|exact Ek].
      * intros [H|(Hx & k & [Hk|Hk] & Ek)]; [left; now left|left; right; left; now symmetry|].
        right. split; [exact Hx|]. exists k. split; assumption.
    + rewrite zth_zset_other by exact D. split.
      * intros [H|(Hx & k & Hk & Ek)]; [now left|right].
        split; [exact Hx|]. exists k. split; [now right|exact Ek].
      * intros [H|(Hx & k & [Hk|Hk] & Ek)]; [now left|congruence|].
        right. split; [exact Hx|]. exists k. split; assumption.
Qed.

Lemma incidence_outer (g : Z -> Z -> Z) (L : list Z) (vt : list (list Z)) :
  List.length
    (fold_left (fun vt i =>
       fold_left (fun vt' j => zset vt' (g i j) (zth vt' (g i j) [] ++ [i])) [0; 1; 2; 3] vt)
       L vt) = List.length vt /\
  forall v x, 0 <= v < zlen vt ->
    (In x (zth (fold_left (fun vt i =>
               fold_left (fun vt' j => zset vt' (g i j) (zth vt' (g i j) [] ++ [i]))
                         [0; 1; 2; 3] vt) L vt) v [])
     <-> In x (zth vt v []) \/ (In x L /\ exists j, In j [0; 1; 2; 3] /\ g x j = v)).
Proof.
  set (F := fun (vt : list (list Z)) (i : Z) =>
              fold_left (fun vt' j => zset vt' (g i j) (zth vt' (g i j) [] ++ [i]))
                        [0; 1; 2; 3] vt).
  revert vt. induction L as [|i r IH]; intros vt.
  - simpl. split; [reflexivity|]. intros v x _. split; [auto|]. intros [H|([] & _)]. exact H.
  - change (fold_left F (i :: r) vt) with (fold_left F r (F vt i)).
    destruct (incidence_inner i (g i) [0; 1; 2; 3] vt) as [L1 I1].
    change (fold_left (fun vt' j => zset vt' (g i j) (zth vt' (g i j) [] ++ [i]))
                      [0; 1; 2; 3] vt) with (F vt i) in L1, I1.
    set (vt1 := F vt i) in *.
    destruct (IH vt1) as [L2 I2]. split; [now rewrite L2|].
    intros v x Hv. rewrite I2 by (unfold zlen in *; now rewrite L1).
    rewrite I1 by exact Hv. simpl In. split.
    + intros [[H|(-> & H)]|(H1 & H2)]; [now left|right; split; [now left|exact H]|].
      right. split; [now right|exact H2].
    + intros [H|([<-|H1] & H2)]; [left; now left|left; right; split; [reflexivity|exact H2]|].
      right. split; assumption.
Qed.

(** The adjacency that [prepare_tet_info] builds is the incidence relation
    of the tet matrix: one ascending list per vertex, and tet [i] is on the
    list of vertex [v] exactly when [v] is one of the four entries of row
    [i]. *)
Theorem prepare_tet_info_adjacency (p : PrismCage) (tet_v : list Vec3d) (tet_t : list Vec4i)
    (tet_v_pid : list Z) :
  let vc := snd (prepare_tet_info p tet_v tet_t tet_v_pid) in
  List.length vc = List.length tet_v /\
  Forall (StronglySorted Z.le) vc /\
  forall v i, 0 <= v < zlen tet_v ->
    (In i (zth vc v []) <-> 0 <= i < zlen tet_t /\ In v (tet_vertices (zth tet_t i []))).
Proof.
  intros vc. unfold vc, prepare_tet_info. cbv zeta. cbn [snd].
  match goal with
  | |- context [fold_left ?F (indices ?ti) (repeat [] ?n)] =>
      set (tet_info := ti); set (nverts := n)
  end.
  set (g := fun i j : Z => zth (conn (zth tet_info i TetAttr_default)) j 0).
  destruct (incidence_outer g (indices tet_info) (repeat [] nverts)) as [L I].
  change (fold_left
            (fun vt i =>
               fold_left (fun vt' j => zset vt' (g i j) (zth vt' (g i j) [] ++ [i]))
                         [0; 1; 2; 3] vt) (indices tet_info) (repeat [] nverts))
    with (fold_left
            (fun vt i =>
               fold_left (fun vt' j =>
                   let v := zth (conn (zth tet_info i TetAttr_default)) j 0 in
                   zset vt' v (zth vt' v [] ++ [i])) [0; 1; 2; 3] vt)
            (indices tet_info) (repeat [] nverts)) in L, I.
  set (raw := fold_left _ (indices tet_info) (repeat [] nverts)) in *.
  assert (nverts = List.length tet_v) as En.
  { unfold nverts. rewrite length_map. unfold indices. now rewrite length_map, length_seq. }
  rewrite repeat_length in L.
  split; [now rewrite length_map, L|]. split.
  - apply Forall_forall. intros l Hl. apply in_map_iff in Hl. destruct Hl as (x & <- & _).
    apply sort_sorted.
  - intros v i Hv.
    assert (0 <= v < zlen raw) as Hv' by (unfold zlen in *; rewrite L, En; exact Hv).
    rewrite (zth_map_in sort raw v [] [] Hv').
    assert (In i (sort (zth raw v [])) <-> In i (zth raw v [])) as SP.
    { split; apply Permutation_in; [apply sort_perm|apply Permutation_sym, sort_perm]. }
    rewrite SP, I by (unfold zlen in *; rewrite repeat_length, En; exact Hv).
    rewrite zth_repeat_nil, In_indices.
    assert (zlen tet_info = zlen tet_t) as Et by (unfold zlen, tet_info; now rewrite length_map).
    rewrite Et. split.
    + intros [[]|(Hi & j & Hj & Ej)]. split; [exact Hi|].
      unfold g, tet_info in Ej. rewrite (zth_map_in _ tet_t i _ [] Hi) in Ej. cbn [conn] in Ej.
      unfold tet_vertices. apply in_map_iff. exists j. split; [|exact Hj].
      rewrite <- Ej. destruct Hj as [<-|[<-|[<-|[<-|[]]]]]; reflexivity.
    + intros (Hi & Hin). right. split; [exact Hi|].
      unfold tet_vertices in Hin. apply in_map_iff in Hin. destruct Hin as (j & Ej & Hj).
      exists j. split; [exact Hj|].
      unfold g, tet_info. rewrite (zth_map_in _ tet_t i _ [] Hi). cbn [conn].
      rewrite <- Ej. destruct Hj as [<-|[<-|[<-|[<-|[]]]]]; reflexivity.
Qed.


End PrepareProperties.


(** ** Compaction *)

Lemma kept_below_S (keep : Z -> bool) (k : nat) :
  kept_below keep (S k) =
  kept_below keep k ++ (if keep (Z.of_nat k) then [Z.of_nat k] else []).
Proof.
  unfold kept_below. rewrite seq_S, map_app, filter_app. simpl.
  destruct (keep (Z.of_nat k)); reflexivity.
Qed.

Lemma kept_below_bound (keep : Z -> bool) (k : nat) :
  (List.length (kept_below keep k) <= k)%nat.
Proof.
  unfold kept_below. etransitivity; [apply filter_length_le|].
  now rewrite length_map, length_seq.
Qed.

Lemma kept_below_In (keep : Z -> bool) (k : nat) (i : Z) :
  In i (kept_below keep k) <-> 0 <= i < Z.of_nat k /\ keep i = true.
Proof.
  unfold kept_below. rewrite filter_In, in_map_iff. split.
  - intros [(n & <- & Hn) K]. apply in_seq in Hn. split; [lia|exact K].
  - intros [Hi K]. split; [|exact K]. exists (Z.to_nat i). split; [lia|]. apply in_seq. lia.
Qed.

Lemma firstn_set_nth_snoc {A : Type} (l : list A) (r : nat) (x : A) :
  (r < List.length l)%nat -> firstn (S r) (set_nth l r x) = firstn r l ++ [x].
Proof.
  revert r. induction l as [|y l IH]; intros [|r] H; simpl in *; try lia; [reflexivity|].
  f_equal. apply IH. lia.
Qed.

Lemma firstn_set_nth_before {A : Type} (l : list A) (r n : nat) (x : A) :
  (n <= r)%nat -> firstn n (set_nth l r x) = firstn n l.
Proof.
  revert r n. induction l as [|y l IH]; intros [|r] [|n] H; simpl in *; try lia;
    try reflexivity.
  f_equal. apply IH. lia.
Qed.

Lemma zset_of_nat {A : Type} (l : list A) (n : nat) (x : A) :
  zset l (Z.of_nat n) x = set_nth l n x.
Proof.
  unfold zset. destruct (Z.of_nat n <? 0) eqn:E; [apply Z.ltb_lt in E; lia|].
  now rewrite Nat2Z.id.
Qed.

Lemma zth_of_nat {A : Type} (l : list A) (n : nat) (d : A) : zth l (Z.of_nat n) d = nth n l d.
Proof.
  unfold zth. destruct (Z.of_nat n <? 0) eqn:E; [apply Z.ltb_lt in E; lia|].
  now rewrite Nat2Z.id.
Qed.

Lemma zth_repeat {A : Type} (x : A) (n : nat) (i : Z) : zth (repeat x n) i x = x.
Proof.
  unfold zth. destruct (i <? 0); [reflexivity|].
  destruct (nth_in_or_default (Z.to_nat i) (repeat x n) x) as [H|H]; [|exact H].
  now apply repeat_spec in H.
Qed.

Lemma ltb_succ_other (i : Z) (k : nat) :
  i <> Z.of_nat k -> (i <? Z.of_nat (S k)) = (i <? Z.of_nat k).
Proof.
  intros D. destruct (Z.ltb_spec i (Z.of_nat k)), (Z.ltb_spec i (Z.of_nat (S k)));
    try reflexivity; lia.
Qed.

Lemma zth_default_indep {A : Type} (l : list A) (i : Z) (d d' : A) :
  0 <= i < zlen l -> zth l i d = zth l i d'.
Proof.
  unfold zth, zlen. intros H. destruct (i <? 0) eqn:E; [apply Z.ltb_lt in E; lia|].
  apply nth_indep. lia.
Qed.

Lemma kept_below_nth (keep : Z -> bool) (n v : nat) :
  (v < n)%nat -> keep (Z.of_nat v) = true ->
  nth (List.length (kept_below keep v)) (kept_below keep n) 0 = Z.of_nat v.
Proof.
  intros Hv K. replace n with (v + S (n - S v))%nat by lia.
  unfold kept_below. rewrite seq_app, map_app, filter_app.
  rewrite app_nth2 by lia. rewrite Nat.sub_diag. simpl. rewrite K. reflexivity.
Qed.

Lemma filter_map_comm {A B : Type} (f : B -> bool) (g : A -> B) (l : list A) :
  filter f (map g l) = map g (filter (fun x => f (g x)) l).
Proof.
  induction l as [|a l IH]; simpl; [reflexivity|].
  destruct (f (g a)); simpl; now rewrite IH.
Qed.

Lemma filter_indices {A : Type} (l : list A) (p : A -> bool) (d : A) :
  map (fun i => zth l i d) (filter (fun i => p (zth l i d)) (indices l)) = filter p l.
Proof.
  induction l as [|a l IH]; [reflexivity|].
  rewrite indices_cons. simpl filter. rewrite filter_map_comm.
  assert (map (fun i => zth (a :: l) i d)
              (map (fun i => i + 1)
                   (filter (fun x => p (zth (a :: l) (x + 1) d)) (indices l))) =
          filter p l) as E.
  { rewrite map_map. rewrite <- IH.
    rewrite (filter_ext_in (fun x => p (zth (a :: l) (x + 1) d)) (fun i => p (zth l i d))).
    - apply map_ext_in. intros i Hi. apply filter_In in Hi. destruct Hi as [Hi _].
      apply In_indices in Hi. apply zth_cons_succ. lia.
    - intros i Hi. apply In_indices in Hi. now rewrite zth_cons_succ by lia. }
  change (zth (a :: l) 0 d) with a. destruct (p a); simpl; now rewrite E.
Qed.

Lemma resize_firstn {A : Type} (l : list A) (n : nat) (d : A) :
  (n <= List.length l)%nat -> resize l (Z.of_nat n) d = firstn n l.
Proof.
  intros H. unfold resize. rewrite Nat2Z.id.
  replace (n - List.length l)%nat with 0%nat by lia. apply app_nil_r.
Qed.

Lemma zth_firstn {A : Type} (l : list A) (n : nat) (i : Z) (d : A) :
  i < Z.of_nat n -> zth (firstn n l) i d = zth l i d.
Proof.
  intros H. unfold zth. destruct (i <? 0) eqn:E; [reflexivity|]. apply Z.ltb_ge in E.
  rewrite <- (firstn_skipn n l) at 2.
  destruct (Nat.le_gt_cases (List.length l) n) as [G|G].
  - rewrite firstn_all2, skipn_all2 by exact G. now rewrite app_nil_r.
  - rewrite app_nth1; [reflexivity|]. rewrite length_firstn. lia.
Qed.


Section CompactionProperties.
Context {SH : SpatialHash}.

(** The first loop after its first [k] rounds. *)
Lemma compact_vertex_loop (vc : list (list Z)) (va : list VertAttr) (k : nat) :
  (k <= List.length va)%nat ->
  let keep := fun i => negb (is_nil (zth vc i [])) in
  let st := fold_left (compact_vertex vc) (map Z.of_nat (seq 0 k))
                      (va, repeat (-1) (List.length va), 0) in
  snd st = zlen (kept_below keep k) /\
  List.length (fst (fst st)) = List.length va /\
  firstn (List.length (kept_below keep k)) (fst (fst st)) =
    map (fun i => zth va i VertAttr_default) (kept_below keep k) /\
  (forall i, Z.of_nat k <= i ->
     zth (fst (fst st)) i VertAttr_default = zth va i VertAttr_default) /\
  List.length (snd (fst st)) = List.length va /\
  (forall i, zth (snd (fst st)) i (-1) =
             if (0 <=? i) && (i <? Z.of_nat k) && keep i then new_index keep i else -1).
Proof.
  intros Hk keep. induction k as [|k IH].
  - simpl. repeat split; auto.
    + apply repeat_length.
    + intros i. rewrite zth_repeat.
      destruct (Z.leb_spec 0 i), (Z.ltb_spec i 0); try reflexivity; lia.
  - specialize (IH ltac:(lia)). rewrite seq_S, map_app, fold_left_app. simpl map.
    cbn [fold_left].
    destruct (fold_left (compact_vertex vc) (map Z.of_nat (seq 0 k))
                        (va, repeat (-1) (List.length va), 0)) as [[va_k mp_k] r_k].
    cbn [fst snd] in IH. destruct IH as (Er & Lv & Fv & Sv & Lm & Mv).
    rewrite kept_below_S. unfold compact_vertex.
    change (negb (is_nil (zth vc (Z.of_nat k) []))) with (keep (Z.of_nat k)).
    pose proof (kept_below_bound keep k) as Bk.
    destruct (is_nil (zth vc (Z.of_nat k) [])) eqn:N.
    + assert (keep (Z.of_nat k) = false) as Kf by (unfold keep; now rewrite N).
      rewrite Kf, app_nil_r. cbn [fst snd].
      repeat split; auto.
      * intros i Hi. apply Sv. lia.
      * intros i. rewrite Mv.
        destruct (Z.eq_dec i (Z.of_nat k)) as [->|D].
        -- rewrite Kf, !andb_false_r. reflexivity.
        -- now rewrite (ltb_succ_other i k D).
    + assert (keep (Z.of_nat k) = true) as Kt by (unfold keep; now rewrite N).
      rewrite Kt. cbn [fst snd].
      assert ((if negb (r_k =? Z.of_nat k)
               then zset va_k r_k (zth va_k (Z.of_nat k) VertAttr_default) else va_k)
              = zset va_k r_k (zth va_k (Z.of_nat k) VertAttr_default)) as Ez.
      { destruct (r_k =? Z.of_nat k) eqn:E; [|reflexivity]. apply Z.eqb_eq in E. rewrite E.
        simpl. symmetry. apply zset_same. }
      rewrite Ez. clear Ez.
      assert (zth va_k (Z.of_nat k) VertAttr_default = zth va (Z.of_nat k) VertAttr_default)
        as Ek by (apply Sv; lia).
      rewrite Ek. rewrite Er.
      repeat split.
      * unfold zlen. rewrite length_app. simpl. lia.
      * rewrite zset_length. exact Lv.
      * rewrite length_app. simpl List.length. rewrite Nat.add_1_r.
        unfold zlen. rewrite zset_of_nat.
        rewrite firstn_set_nth_snoc by lia. rewrite Fv, map_app. reflexivity.
      * intros i Hi. rewrite zth_zset_other by (unfold zlen; lia). apply Sv. lia.
      * rewrite zset_length. exact Lm.
      * intros i.
        destruct (Z.eq_dec i (Z.of_nat k)) as [->|D].
        -- rewrite zth_zset_in by (unfold zlen; lia). rewrite Kt.
           replace ((0 <=? Z.of_nat k) && (Z.of_nat k <? Z.of_nat (S k))) with true
             by (symmetry; apply andb_true_intro; split; [apply Z.leb_le|apply Z.ltb_lt]; lia).
           unfold new_index. now rewrite Nat2Z.id.
        -- rewrite zth_zset_other by congruence. rewrite Mv.
           now rewrite (ltb_succ_other i k D).
Qed.

(** The four rounds of the inner loop on the tet in slot [r]. *)
Lemma renumber_entries (vm : list Z) (r : Z) (ta : list TetAttr) (nvc : list (list Z)) :
  0 <= r < zlen ta ->
  List.length (conn (zth ta r TetAttr_default)) = 4%nat ->
  fold_left (renumber_entry vm r) [0; 1; 2; 3] (ta, nvc) =
  (zset ta r (renumbered vm (zth ta r TetAttr_default)),
   fold_left (fun vt' j =>
       zset vt' (zth vm (zth (conn (zth ta r TetAttr_default)) j 0) 0)
            (zth vt' (zth vm (zth (conn (zth ta r TetAttr_default)) j 0) 0) [] ++ [r]))
     [0; 1; 2; 3] nvc) /\
  tet_vertices (conn (renumbered vm (zth ta r TetAttr_default))) =
  map (fun j => zth vm (zth (conn (zth ta r TetAttr_default)) j 0) 0) [0; 1; 2; 3].
Proof.
  intros Hr L. set (t := zth ta r TetAttr_default) in *.
  destruct (conn t) as [|a [|b [|c [|d [|]]]]] eqn:Ec; try discriminate L.
  split.
  - cbn [fold_left]. unfold renumber_entry.
    rewrite !zset_zset.
    rewrite !zth_zset_in by (rewrite ?zlen_zset; exact Hr).
    fold t. cbn [conn prism_id is_removed]. rewrite Ec.
    unfold renumbered, renumber_conn. rewrite Ec. reflexivity.
  - unfold renumbered, renumber_conn. cbn [conn]. rewrite Ec. reflexivity.
Qed.


Lemma sorted_snoc (l : list Z) (r : Z) :
  StronglySorted Z.le l -> Forall (fun y => y <= r) l -> StronglySorted Z.le (l ++ [r]).
Proof.
  induction 1 as [|a l Hl IH Ha]; simpl; intros F; [repeat constructor|].
  inversion F; subst. constructor; [now apply IH|].
  apply Forall_app. split; [assumption|]. repeat constructor. assumption.
Qed.

Lemma push_keeps_sorted (r : Z) (f : Z -> Z) (J : list Z) (vt : list (list Z)) :
  Forall (fun l => StronglySorted Z.le l /\ Forall (fun y => y <= r) l) vt ->
  Forall (fun l => StronglySorted Z.le l /\ Forall (fun y => y <= r) l)
         (fold_left (fun vt' j => zset vt' (f j) (zth vt' (f j) [] ++ [r])) J vt).
Proof.
  revert vt. induction J as [|j J IH]; intros vt H; simpl; [exact H|].
  apply IH. apply Forall_zset; [exact H|].
  assert (StronglySorted Z.le (zth vt (f j) []) /\ Forall (fun y => y <= r) (zth vt (f j) []))
    as [S B].
  { apply (Forall_zth (fun l => StronglySorted Z.le l /\ Forall (fun y => y <= r) l));
      [exact H|]. split; constructor. }
  split; [now apply sorted_snoc|].
  apply Forall_app. split; [exact B|]. repeat constructor. lia.
Qed.

(** The second loop after its first [k] rounds; [n] is the number of kept
    vertices. *)
Lemma compact_tet_loop (vm : list Z) (ta : list TetAttr) (n k : nat) :
  (k <= List.length ta)%nat ->
  Forall (fun t => is_removed t = false -> List.length (conn t) = 4%nat) ta ->
  let live := fun i => negb (is_removed (zth ta i TetAttr_default)) in
  let st := fold_left (compact_tet vm) (map Z.of_nat (seq 0 k)) (ta, repeat [] n, 0) in
  snd st = zlen (kept_below live k) /\
  List.length (fst (fst st)) = List.length ta /\
  firstn (List.length (kept_below live k)) (fst (fst st)) =
    map (fun i => renumbered vm (zth ta i TetAttr_default)) (kept_below live k) /\
  (forall i, Z.of_nat k <= i ->
     zth (fst (fst st)) i TetAttr_default = zth ta i TetAttr_default) /\
  List.length (snd (fst st)) = n /\
  (forall v y, 0 <= v < Z.of_nat n ->
     (In y (zth (snd (fst st)) v []) <->
      0 <= y < snd st /\
      In v (tet_vertices (conn (zth (fst (fst st)) y TetAttr_default))))) /\
  Forall (fun l => StronglySorted Z.le l /\ Forall (fun y => y <= snd st) l) (snd (fst st)).
Proof.
  intros Hk H4 live. cbv zeta. induction k as [|k IH].
  - simpl fold_left. cbn [fst snd]. repeat apply conj.
    + reflexivity.
    + reflexivity.
    + reflexivity.
    + intros i _. reflexivity.
    + apply repeat_length.
    + intros v y Hv. rewrite zth_repeat_nil. split; [intros []|intros [Hy _]; lia].
    + apply Forall_forall. intros l Hl. apply repeat_spec in Hl. subst l. split; constructor.
  - specialize (IH ltac:(lia)). rewrite seq_S, map_app, fold_left_app. simpl map.
    cbn [fold_left].
    destruct (fold_left (compact_tet vm) (map Z.of_nat (seq 0 k)) (ta, repeat [] n, 0))
      as [[ta_k nvc_k] r_k].
    cbn [fst snd] in IH. destruct IH as (Er & Lt & Ft & St & Ln & Mn & Sn).
    rewrite kept_below_S. unfold compact_tet.
    pose proof (kept_below_bound live k) as Bk.
    assert (zth ta_k (Z.of_nat k) TetAttr_default = zth ta (Z.of_nat k) TetAttr_default)
      as Ek by (apply St; lia).
    rewrite Ek.
    change (negb (is_removed (zth ta (Z.of_nat k) TetAttr_default))) with (live (Z.of_nat k)).
    destruct (is_removed (zth ta (Z.of_nat k) TetAttr_default)) eqn:Rm.
    + assert (live (Z.of_nat k) = false) as Kf by (unfold live; now rewrite Rm).
      rewrite Kf, app_nil_r. cbn [fst snd].
      repeat apply conj; auto.
      intros i Hi. apply St. lia.
    + assert (live (Z.of_nat k) = true) as Kt by (unfold live; now rewrite Rm).
      rewrite Kt.
      set (t0 := zth ta (Z.of_nat k) TetAttr_default) in *.
      assert ((if negb (r_k =? Z.of_nat k) then zset ta_k r_k t0 else ta_k) = zset ta_k r_k t0)
        as Ez.
      { destruct (r_k =? Z.of_nat k) eqn:E; [|reflexivity]. apply Z.eqb_eq in E. rewrite E.
        simpl. rewrite <- Ek. symmetry. apply zset_same. }
      rewrite Ez. clear Ez.
      assert (0 <= r_k < zlen ta_k) as Hr by (unfold zlen in *; lia).
      assert (List.length (conn t0) = 4%nat) as L4.
      { rewrite Forall_forall in H4. apply H4; [|exact Rm].
        unfold t0. rewrite zth_of_nat. apply nth_In. lia. }
      assert (zth (zset ta_k r_k t0) r_k TetAttr_default = t0) as Et by (now apply zth_zset_in).
      destruct (renumber_entries vm r_k (zset ta_k r_k t0) nvc_k) as [RE TV].
      { now rewrite zlen_zset. }
      { now rewrite Et. }
      rewrite Et in RE, TV. rewrite RE. clear RE. rewrite zset_zset. cbn [fst snd].
      set (f := fun j => zth vm (zth (conn t0) j 0) 0) in *.
      destruct (incidence_inner r_k f [0; 1; 2; 3] nvc_k) as [LI II].
      change (fold_left (fun vt' j => zset vt' (zth vm (zth (conn t0) j 0) 0)
                                           (zth vt' (zth vm (zth (conn t0) j 0) 0) [] ++ [r_k]))
                        [0; 1; 2; 3] nvc_k)
        with (fold_left (fun vt' j => zset vt' (f j) (zth vt' (f j) [] ++ [r_k]))
                        [0; 1; 2; 3] nvc_k).
      set (nvc' := fold_left (fun vt' j => zset vt' (f j) (zth vt' (f j) [] ++ [r_k]))
                             [0; 1; 2; 3] nvc_k) in *.
      repeat apply conj.
      * rewrite Er. unfold zlen. rewrite length_app. simpl. lia.
      * rewrite zset_length. exact Lt.
      * rewrite length_app. simpl List.length. rewrite Nat.add_1_r.
        rewrite Er. unfold zlen. rewrite zset_of_nat.
        rewrite firstn_set_nth_snoc by lia. rewrite Ft, map_app. reflexivity.
      * intros i Hi. rewrite zth_zset_other by (unfold zlen in Er; lia). apply St. lia.
      * rewrite LI. exact Ln.
      * intros v y Hv. rewrite II by (unfold zlen; rewrite Ln; exact Hv).
        rewrite Mn by exact Hv.
        destruct (Z.eq_dec y r_k) as [->|D].
        -- rewrite zth_zset_in by exact Hr. rewrite TV. split.
           ++ intros [[Hy _]|(_ & j & Hj & Ej)]; [lia|].
              split; [lia|]. apply in_map_iff. exists j. auto.
           ++ intros [_ Hin]. right. split; [reflexivity|].
              apply in_map_iff in Hin. destruct Hin as (j & Ej & Hj). exists j. auto.
        -- rewrite zth_zset_other by congruence. split.
           ++ intros [[Hy Hin]|(Hy & _)]; [|contradiction]. split; [lia|exact Hin].
           ++ intros [Hy Hin]. left. split; [lia|exact Hin].
      * eapply Forall_impl; [|apply push_keeps_sorted; exact Sn].
        intros l [S B]. split; [exact S|]. eapply Forall_impl; [|exact B].
        intros y Hy. simpl in Hy. lia.
Qed.


(** [compact_tetmesh] on a consistent mesh (every tet that is not removed
    has four vertices, each in range and with a non-empty adjacency list).
    The vertex store becomes the vertices with a non-empty adjacency list, in
    order; the tet store becomes the tets that are not removed, in order,
    each vertex replaced by its new index, under which the vertex store has
    the attributes it had; and the adjacency is rebuilt as the incidence
    relation of the new tet store, one ascending list per vertex.  With a
    shell, positions, connectivity and adjacency come out the same. *)
Theorem compact_tetmesh_compacts (cleanup_empty_faces : PrismCage -> PrismCage * list Z * list Z)
    (va : list VertAttr) (ta : list TetAttr) (vc : list (list Z)) :
  Forall (fun t => is_removed t = false -> List.length (conn t) = 4%nat) ta ->
  (forall t v, In t ta -> is_removed t = false -> In v (conn t) ->
               0 <= v < zlen va /\ zth vc v [] <> []) ->
  let keep := fun i => negb (is_nil (zth vc i [])) in
  let va' := fst (fst (fst (compact_tetmesh cleanup_empty_faces va ta vc None))) in
  let ta' := snd (fst (fst (compact_tetmesh cleanup_empty_faces va ta vc None))) in
  let vc' := snd (fst (compact_tetmesh cleanup_empty_faces va ta vc None)) in
  va' = map (fun i => zth va i VertAttr_default) (filter keep (indices va)) /\
  (forall v, 0 <= v < zlen va -> keep v = true ->
     0 <= new_index keep v < zlen va' /\
     zth va' (new_index keep v) VertAttr_default = zth va v VertAttr_default) /\
  ta' = map (fun t => {| prism_id := prism_id t; is_removed := false;
                         conn := map (new_index keep) (conn t) |}) (live_tets ta) /\
  List.length vc' = List.length va' /\
  Forall (StronglySorted Z.le) vc' /\
  (forall v y, 0 <= v < zlen va' ->
     (In y (zth vc' v []) <->
      0 <= y < zlen ta' /\ In v (tet_vertices (conn (zth ta' y TetAttr_default))))) /\
  (forall p0,
     map pos (fst (fst (fst (compact_tetmesh cleanup_empty_faces va ta vc (Some p0))))) =
       map pos va' /\
     map conn (snd (fst (fst (compact_tetmesh cleanup_empty_faces va ta vc (Some p0))))) =
       map conn ta' /\
     snd (fst (compact_tetmesh cleanup_empty_faces va ta vc (Some p0))) = vc').
Proof.
  intros H4 Hc keep. unfold compact_tetmesh.
  pose proof (compact_vertex_loop vc va (List.length va) (le_n _)) as V. cbv zeta in V.
  change (map Z.of_nat (seq 0 (List.length va))) with (indices va) in V.
  destruct (fold_left (compact_vertex vc) (indices va) (va, repeat (-1) (List.length va), 0))
    as [[va1 vm] rv].
  cbn [fst snd] in V. destruct V as (Erv & Lv & Fv & _ & Lm & Mv).
  fold keep in Erv, Fv, Mv.
  pose proof (compact_tet_loop vm ta (Z.to_nat rv) (List.length ta) (le_n _) H4) as T.
  cbv zeta in T.
  change (map Z.of_nat (seq 0 (List.length ta))) with (indices ta) in T.
  destruct (fold_left (compact_tet vm) (indices ta) (ta, repeat [] (Z.to_nat rv), 0))
    as [[ta1 nvc] rt].
  cbn [fst snd] in T. destruct T as (Ert & Lt & Ft & _ & Ln & Mn & Sn).
  set (live := fun i => negb (is_removed (zth ta i TetAttr_default))) in *.
  pose proof (kept_below_bound keep (List.length va)) as Bv.
  pose proof (kept_below_bound live (List.length ta)) as Bt.
  assert (resize va1 rv VertAttr_default =
          map (fun i => zth va i VertAttr_default) (filter keep (indices va))) as Eva.
  { rewrite Erv. unfold zlen. rewrite resize_firstn by lia. exact Fv. }
  assert (resize ta1 rt TetAttr_default = firstn (List.length (kept_below live (List.length ta))) ta1)
    as Eta1.
  { rewrite Ert. unfold zlen. apply resize_firstn. lia. }
  assert (forall v, 0 <= v < zlen va -> keep v = true ->
            0 <= new_index keep v < zlen (resize va1 rv VertAttr_default) /\
            zth (resize va1 rv VertAttr_default) (new_index keep v) VertAttr_default =
            zth va v VertAttr_default) as Enew.
  { intros v Hv K. rewrite Eva. unfold new_index, zlen in *.
    pose proof (kept_below_nth keep (List.length va) (Z.to_nat v) ltac:(lia)) as N.
    rewrite Z2Nat.id in N by lia. specialize (N K).
    assert (List.length (kept_below keep (Z.to_nat v)) <
            List.length (kept_below keep (List.length va)))%nat as Lk.
    { replace (List.length va) with (Z.to_nat v + S (List.length va - S (Z.to_nat v)))%nat
        by lia.
      unfold kept_below. rewrite seq_app, map_app, filter_app, length_app.
      simpl. rewrite Z2Nat.id by lia. rewrite K. simpl. lia. }
    rewrite length_map. change (filter keep (indices va))
      with (kept_below keep (List.length va)).
    split; [lia|]. rewrite zth_of_nat.
    rewrite (nth_indep _ VertAttr_default (zth va 0 VertAttr_default))
      by (rewrite length_map; exact Lk).
    rewrite (map_nth (fun i => zth va i VertAttr_default)). now rewrite N. }
  assert (resize ta1 rt TetAttr_default =
          map (fun t => {| prism_id := prism_id t; is_removed := false;
                           conn := map (new_index keep) (conn t) |}) (live_tets ta)) as Eta.
  { rewrite Eta1, Ft. unfold live_tets.
    rewrite <- (filter_indices ta (fun t => negb (is_removed t)) TetAttr_default).
    rewrite map_map. apply map_ext_in. intros i Hi.
    apply filter_In in Hi. destruct Hi as [Hi Li]. apply In_indices in Hi.
    set (t := zth ta i TetAttr_default) in *.
    assert (In t ta) as Int.
    { unfold t, zth, zlen in *. destruct (i <? 0) eqn:E; [apply Z.ltb_lt in E; lia|].
      apply nth_In. lia. }
    assert (is_removed t = false) as Rt by (now destruct (is_removed t)).
    rewrite Forall_forall in H4. pose proof (H4 t Int Rt) as L4.
    unfold renumbered, renumber_conn. rewrite Rt. f_equal.
    destruct (conn t) as [|a [|b [|c [|d [|]]]]] eqn:Ec; try discriminate L4.
    assert (forall v, In v [a; b; c; d] -> zth vm v 0 = new_index keep v) as Q.
    { intros v Hv. rewrite <- Ec in Hv. destruct (Hc t v Int Rt Hv) as [Rv Nv].
      rewrite (zth_default_indep vm v 0 (-1)) by (unfold zlen in *; lia).
      rewrite Mv. replace (0 <=? v) with true by (symmetry; apply Z.leb_le; lia).
      replace (v <? Z.of_nat (List.length va)) with true
        by (symmetry; apply Z.ltb_lt; unfold zlen in Rv; lia).
      unfold keep. destruct (zth vc v []); [congruence|reflexivity]. }
    cbn. rewrite !Q by (simpl; auto). reflexivity. }
  cbn [fst snd]. rewrite Eva in Enew |- *. rewrite Eta.
  assert (zlen (map (fun i => zth va i VertAttr_default) (filter keep (indices va))) = rv)
    as Zv.
  { rewrite Erv. unfold zlen. now rewrite length_map. }
  repeat apply conj.
  - reflexivity.
  - exact Enew.
  - reflexivity.
  - rewrite Ln, length_map. change (filter keep (indices va))
      with (kept_below keep (List.length va)). rewrite Erv. unfold zlen. apply Nat2Z.id.
  - eapply Forall_impl; [|exact Sn]. intros l [S _]. exact S.
  - intros v y Hv. rewrite Zv in Hv.
    rewrite Mn by lia. rewrite <- Eta, Eta1.
    assert (zlen (firstn (List.length (kept_below live (List.length ta))) ta1) = rt) as Zt.
    { unfold zlen. rewrite length_firstn, Ert. unfold zlen. lia. }
    rewrite Zt. split.
    + intros [Hy Hin]. split; [exact Hy|]. rewrite zth_firstn; [exact Hin|].
      rewrite Ert in Hy. unfold zlen in Hy. lia.
    + intros [Hy Hin]. split; [exact Hy|]. rewrite zth_firstn in Hin; [exact Hin|].
      rewrite Ert in Hy. unfold zlen in Hy. lia.
  - intros p0. destruct (cleanup_empty_faces p0) as [[p1 vid_map] face_map_o2n].
    cbn [fst snd]. repeat split.
    + rewrite (map_map _ pos). apply map_ext. intros v.
      destruct (negb (mid_id v =? -1)); reflexivity.
    + rewrite (map_map _ conn). reflexivity.
Qed.


End CompactionProperties.


(** ** [update_pc] *)

Lemma resize_grow {A : Type} (l : list A) (n : Z) (d : A) :
  zlen l <= n -> resize l n d = l ++ repeat d (Z.to_nat n - List.length l).
Proof.
  unfold zlen, resize. intros H. rewrite firstn_all2 by lia. reflexivity.
Qed.

Lemma zth_resize_old {A : Type} (l : list A) (n f : Z) (d d' : A) :
  0 <= f < zlen l -> zlen l <= n -> zth (resize l n d) f d' = zth l f d'.
Proof.
  intros Hf Hn. rewrite resize_grow by exact Hn. now apply zth_app_l.
Qed.

Lemma blank_fold {A : Type} (x : A) (old : list Z) (l : list A) (f : Z) (d : A) :
  List.length (fold_left (fun l' i => zset l' i x) old l) = List.length l /\
  (0 <= f < zlen l ->
   zth (fold_left (fun l' i => zset l' i x) old l) f d =
   if existsb (Z.eqb f) old then x else zth l f d).
Proof.
  revert l. induction old as [|g r IH]; intros l; [split; reflexivity|].
  cbn [fold_left existsb]. destruct (IH (zset l g x)) as [L E].
  split; [now rewrite L, zset_length|]. intros Hf.
  rewrite E by (now rewrite zlen_zset). clear E L.
  destruct (Z.eqb f g) eqn:Efg; simpl orb.
  - apply Z.eqb_eq in Efg. subst g. rewrite zth_zset_in by exact Hf.
    destruct (existsb (Z.eqb f) r); reflexivity.
  - apply Z.eqb_neq in Efg. rewrite zth_zset_other by congruence. reflexivity.
Qed.

Section ShellUpdateProperties.
Context {SH : SpatialHash} {CO : Collaborators}.

(** The install loop of [update_pc] on entries with distinct non-negative
    face ids, the two vectors being of one length. *)
Lemma update_pc_install_loop (E : list (Z * (Vec3i * list Z))) (Fs : list Vec3i)
    (Ts : list (list Z)) :
  List.length Ts = List.length Fs ->
  NoDup (map fst E) -> (forall e, In e E -> 0 <= fst e) ->
  let r := fold_left update_pc_install E (Fs, Ts) in
  List.length (snd r) = List.length (fst r) /\
  (List.length Fs <= List.length (fst r))%nat /\
  (forall f c tr, In (f, (c, tr)) E ->
     zth (fst r) f [0; 0; 0] = c /\ zth (snd r) f [] = tr) /\
  (forall f, 0 <= f < zlen Fs -> ~ In f (map fst E) ->
     zth (fst r) f [0; 0; 0] = zth Fs f [0; 0; 0] /\ zth (snd r) f [] = zth Ts f []).
Proof.
  revert Fs Ts. induction E as [|[f [c tr]] E IH]; intros Fs Ts L N P; cbv zeta.
  - simpl. repeat split; auto; intros; contradiction.
  - change (fold_left update_pc_install ((f, (c, tr)) :: E) (Fs, Ts))
      with (fold_left update_pc_install E (update_pc_install (Fs, Ts) (f, (c, tr)))).
    assert (0 <= f) as Hf by (apply (P (f, (c, tr))); now left).
    set (Fs1 := if (f <? 0) || (zlen Fs <=? f) then resize Fs (f + 1) [0; 0; 0] else Fs).
    set (Ts1 := if (f <? 0) || (zlen Fs <=? f) then resize Ts (f + 1) [] else Ts).
    assert (update_pc_install (Fs, Ts) (f, (c, tr)) = (zset Fs1 f c, zset Ts1 f tr)) as Es.
    { unfold update_pc_install, Fs1, Ts1. destruct ((f <? 0) || (zlen Fs <=? f)); reflexivity. }
    rewrite Es. clear Es.
    assert (List.length Ts1 = List.length Fs1 /\ (List.length Fs <= List.length Fs1)%nat /\
            0 <= f < zlen Fs1 /\
            (forall g, 0 <= g < zlen Fs ->
               zth Fs1 g [0; 0; 0] = zth Fs g [0; 0; 0] /\ zth Ts1 g [] = zth Ts g []))
      as (L1 & G1 & R1 & O1).
    { unfold Fs1, Ts1. destruct (f <? 0) eqn:E0; [apply Z.ltb_lt in E0; lia|]. simpl orb.
      destruct (zlen Fs <=? f) eqn:E1.
      - apply Z.leb_le in E1. unfold zlen in *. rewrite !resize_length.
        repeat apply conj; try lia.
        intros g Hg. split; apply zth_resize_old; unfold zlen; lia.
      - apply Z.leb_gt in E1. repeat apply conj; auto; lia. }
    inversion N as [|? ? Nf N']; subst.
    destruct (IH (zset Fs1 f c) (zset Ts1 f tr)) as (L2 & G2 & A2 & O2).
    { now rewrite !zset_length. }
    { exact N'. }
    { intros e He. apply P. now right. }
    cbv zeta in L2, G2, A2, O2.
    repeat apply conj.
    + exact L2.
    + rewrite zset_length in G2. lia.
    + intros g c' tr' [H|H].
      * inversion H; subst. destruct (O2 g) as [O3 O4].
        { now rewrite zlen_zset. }
        { exact Nf. }
        rewrite O3, O4. rewrite !zth_zset_in; [auto|unfold zlen in *; lia|exact R1].
      * now apply A2.
    + intros g Hg Ng. simpl in Ng.
      assert (g <> f) as D by (intros ->; apply Ng; now left).
      destruct (O2 g) as [O3 O4].
      { rewrite zlen_zset. unfold zlen in *. lia. }
      { intros I. apply Ng. now right. }
      rewrite O3, O4, !zth_zset_other by congruence. now apply O1.
Qed.

Lemma update_pc_install_result (E : list (Z * (Vec3i * list Z))) (Fs F1 : list Vec3i)
    (Ts T1 : list (list Z)) :
  fold_left update_pc_install E (Fs, Ts) = (F1, T1) ->
  List.length Ts = List.length Fs ->
  NoDup (map fst E) -> (forall e, In e E -> 0 <= fst e) ->
  List.length T1 = List.length F1 /\
  (List.length Fs <= List.length F1)%nat /\
  (forall f c tr, In (f, (c, tr)) E -> zth F1 f [0; 0; 0] = c /\ zth T1 f [] = tr) /\
  (forall f, 0 <= f < zlen Fs -> ~ In f (map fst E) ->
     zth F1 f [0; 0; 0] = zth Fs f [0; 0; 0] /\ zth T1 f [] = zth Ts f []).
Proof.
  intros Ef L N P. pose proof (update_pc_install_loop E Fs Ts L N P) as H.
  cbv zeta in H. rewrite Ef in H. exact H.
Qed.

(** [update_pc] on distinct non-negative new face ids, with one tracked
    set per shell face.  The three layers and the reference surface are
    untouched; [pc.F] and [pc.track_ref] keep a common length and never
    shrink; every new face is installed at its id with its shifted triangle
    and its tracked set; of the other slots, the retired ones are blanked
    with [-1] and keep their tracked set, and the rest is as before. *)
Theorem update_pc_slots (p : PrismCage) (old_fid new_fid : list Z) (new_conn : list Vec3i)
    (new_tracks : list (list Z)) :
  List.length (track_ref p) = List.length (F p) ->
  NoDup new_fid -> (forall f, In f new_fid -> 0 <= f) ->
  let p' := fst (update_pc p old_fid new_fid new_conn new_tracks) in
  let shifted := snd (update_pc p old_fid new_fid new_conn new_tracks) in
  shifted = triangle_shifts new_conn /\
  base p' = base p /\ mid p' = mid p /\ top p' = top p /\ ref p' = ref p /\
  List.length (track_ref p') = List.length (F p') /\
  (List.length (F p) <= List.length (F p'))%nat /\
  (forall i, 0 <= i < zlen new_fid ->
     zth (F p') (zth new_fid i 0) [0; 0; 0] = zth shifted i [0; 0; 0] /\
     zth (track_ref p') (zth new_fid i 0) [] = zth new_tracks i []) /\
  (forall f, 0 <= f < zlen (F p) -> ~ In f new_fid ->
     zth (F p') f [0; 0; 0] =
       (if existsb (Z.eqb f) old_fid then [-1; -1; -1] else zth (F p) f [0; 0; 0]) /\
     zth (track_ref p') f [] = zth (track_ref p) f []).
Proof.
  intros L N P. unfold update_pc. cbv zeta.
  set (F0 := fold_left (fun Fs i => zset Fs i [-1; -1; -1]) old_fid (F p)).
  set (E := map (fun i => (zth new_fid i 0,
                           (zth (triangle_shifts new_conn) i [0; 0; 0], zth new_tracks i [])))
                (indices new_fid)).
  assert (List.length F0 = List.length (F p)) as L0
    by (apply (blank_fold [-1; -1; -1] old_fid (F p) 0 [0; 0; 0])).
  assert (map fst E = new_fid) as EF.
  { unfold E. rewrite map_map. cbn [fst].
    rewrite (map_indices_ext new_fid _ (fun x => x) 0); [apply map_id|reflexivity]. }
  destruct (fold_left update_pc_install E (F0, track_ref p)) as [F1 T1] eqn:Ef.
  apply update_pc_install_result in Ef;
    [|rewrite L; symmetry; exact L0|now rewrite EF
     |intros e He; apply P; rewrite <- EF; now apply in_map].
  destruct Ef as (L2 & G2 & A2 & O2).
  cbn [fst snd F track_ref base mid top ref].
  repeat apply conj; try reflexivity.
  - exact L2.
  - rewrite <- L0. exact G2.
  - intros i Hi. apply A2. unfold E. apply in_map_iff. exists i. split; [reflexivity|].
    now apply In_indices.
  - intros f Hf Nf.
    destruct (O2 f) as [O3 O4].
    { exact (eq_ind_r (fun n => 0 <= f < Z.of_nat n) Hf L0). }
    { now rewrite EF. }
    rewrite O3, O4. split; [|reflexivity].
    now apply (blank_fold [-1; -1; -1] old_fid (F p) f [0; 0; 0]).
Qed.

End ShellUpdateProperties.


(** ** What a passed audit guarantees *)

Lemma map_find_app (m : face_map) (k k' : Vec3i) (v : Z) :
  map_find (m ++ [(k', v)]) k =
  match map_find m k with
  | Some n => Some n
  | None => if list_eqb k' k then Some v else None
  end.
Proof.
  induction m as [|[k0 n] r IH]; simpl; [reflexivity|].
  destruct (list_eqb k0 k); [reflexivity|exact IH].
Qed.

Lemma map_find_insert_or_assign (m : face_map) (k k' : Vec3i) (v : Z) :
  map_find (map_insert_or_assign m k' v) k =
  if list_eqb k' k then Some v else map_find m k.
Proof.
  induction m as [|[k0 n] r IH]; simpl; [reflexivity|].
  destruct (list_eqb k0 k') eqn:E0; simpl.
  - apply list_eqb_eq in E0. subst k0. destruct (list_eqb k' k); reflexivity.
  - rewrite IH. destruct (list_eqb k0 k) eqn:E1; [|reflexivity].
    apply list_eqb_eq in E1. subst k0. destruct (list_eqb k' k) eqn:E2; [|reflexivity].
    apply list_eqb_eq in E2. subst k'.
    assert (list_eqb k k = true) as E3 by (now apply list_eqb_eq). congruence.
Qed.

Lemma list_eqb_refl (k : list Z) : list_eqb k k = true.
Proof. now apply list_eqb_eq. Qed.

Lemma list_eqb_sym (a b : list Z) : list_eqb a b = list_eqb b a.
Proof.
  destruct (list_eqb a b) eqn:E1, (list_eqb b a) eqn:E2; try reflexivity.
  - apply list_eqb_eq in E1. subst. now rewrite list_eqb_refl in E2.
  - apply list_eqb_eq in E2. subst. now rewrite list_eqb_refl in E1.
Qed.

Lemma face_count_add_counts (fm fm' : face_map) (seen : list (list Z)) (face : list Z) :
  counts_faces fm seen ->
  face_count_add fm face = Some fm' ->
  counts_faces fm' (seen ++ [face]) /\
  (List.length (filter (list_eqb face) (seen ++ [face])) <= 2)%nat.
Proof.
  intros C. unfold face_count_add. pose proof (C face) as Cf. unfold Vec3i in *.
  destruct (map_find fm face) as [n|] eqn:F.
  - destruct (2 <? n + 1) eqn:G; [discriminate|]. apply Z.ltb_ge in G.
    intros H. inversion H; subst fm'. clear H.
    destruct (List.length (filter (list_eqb face) seen)) as [|c] eqn:Lc; [discriminate|].
    assert (n = Z.of_nat (S c)) as En by congruence. subst n. split.
    + intros k. rewrite map_find_insert_or_assign, filter_app, length_app. simpl filter.
      rewrite (list_eqb_sym k face).
      destruct (list_eqb face k) eqn:E.
      * apply list_eqb_eq in E. rewrite <- E, Lc. simpl List.length.
        rewrite Nat.add_1_r. f_equal. lia.
      * simpl List.length. rewrite Nat.add_0_r. apply C.
    + rewrite filter_app, length_app, Lc. simpl filter. rewrite list_eqb_refl. simpl. lia.
  - intros H. inversion H; subst fm'. clear H.
    destruct (List.length (filter (list_eqb face) seen)) as [|c] eqn:Lc; [|discriminate].
    split.
    + intros k. rewrite map_find_app, filter_app, length_app. simpl filter.
      rewrite (list_eqb_sym k face).
      destruct (list_eqb face k) eqn:E.
      * apply list_eqb_eq in E. rewrite <- E, F, Lc. reflexivity.
      * simpl List.length. rewrite Nat.add_0_r. rewrite C.
        destruct (List.length (filter (list_eqb k) seen)); reflexivity.
    + rewrite filter_app, length_app, Lc. simpl filter. rewrite list_eqb_refl. simpl. lia.
Qed.

Section SanityProperties.
Context {SH : SpatialHash} {CO : Collaborators}.

(** The faces of a list of tets, in the order of the loops. *)
Lemma sanity_duplicates_sound (tets : list TetAttr) (dup : list Vec4i) (fm : face_map)
    (seen : list (list Z)) :
  counts_faces fm seen ->
  (forall k, (List.length (filter (list_eqb k) seen) <= 2)%nat) ->
  sanity_duplicates tets dup fm = true ->
  NoDup (map (fun t => sort (conn t)) tets) /\
  (forall t, In t tets -> ~ In (sort (conn t)) dup) /\
  forall k, Nat.le (List.length
                      (filter (list_eqb k)
                         (seen ++ flat_map (fun t => map (sorted_face (conn t)) [0; 1; 2; 3])
                                           tets))) 2.
Proof.
  revert dup fm seen. induction tets as [|t r IH]; intros dup fm seen C B.
  - intros _. simpl. rewrite app_nil_r. repeat split; [constructor|intros t []|exact B].
  - cbn [sanity_duplicates]. cbv zeta.
    destruct (existsb (list_eqb (sort (conn t))) dup) eqn:Ed; [discriminate|].
    assert (forall J fm0 seen0,
              counts_faces fm0 seen0 ->
              (forall k, (List.length (filter (list_eqb k) seen0) <= 2)%nat) ->
              match fold_left (fun st j =>
                        match st with
                        | None => None
                        | Some fm1 => face_count_add fm1 (sorted_face (conn t) j)
                        end) J (Some fm0) with
              | None => True
              | Some fm2 =>
                  counts_faces fm2 (seen0 ++ map (sorted_face (conn t)) J) /\
                  forall k, (List.length (filter (list_eqb k)
                                            (seen0 ++ map (sorted_face (conn t)) J)) <= 2)%nat
              end) as Step.
    { induction J as [|j J IHJ]; intros fm0 seen0 C0 B0.
      - simpl. rewrite app_nil_r. auto.
      - cbn [fold_left map].
        destruct (face_count_add fm0 (sorted_face (conn t) j)) as [fm1|] eqn:A.
        + destruct (face_count_add_counts fm0 fm1 seen0 _ C0 A) as [C1 B1].
          assert (forall k, (List.length (filter (list_eqb k)
                               (seen0 ++ [sorted_face (conn t) j])) <= 2)%nat) as B1'.
          { intros k. destruct (list_eqb k (sorted_face (conn t) j)) eqn:E.
            - apply list_eqb_eq in E. subst k. exact B1.
            - rewrite filter_app, length_app. simpl filter. rewrite E. simpl.
              rewrite Nat.add_0_r. apply B0. }
          specialize (IHJ fm1 (seen0 ++ [sorted_face (conn t) j]) C1 B1').
          rewrite <- app_assoc in IHJ. exact IHJ.
        + assert (forall L, fold_left (fun (st : option face_map) j0 =>
                               match st with
                               | None => None
                               | Some fm1 => face_count_add fm1 (sorted_face (conn t) j0)
                               end) L None = None) as Z
            by (induction L as [|? ? IHL]; simpl; auto).
          now rewrite Z. }
    specialize (Step [0; 1; 2; 3] fm seen C B).
    destruct (fold_left _ [0; 1; 2; 3] (Some fm)) as [fm2|]; [|discriminate].
    destruct Step as [C2 B2]. intros H.
    destruct (IH (dup ++ [sort (conn t)]) fm2 _ C2 B2 H) as (N & D & K).
    split; [|split].
    + simpl. constructor; [|exact N].
      intros I. apply in_map_iff in I. destruct I as (u & Eu & Hu).
      apply (D u Hu). rewrite Eu. apply in_app_iff. right. now left.
    + intros u [<-|Hu].
      * intros I. assert (existsb (list_eqb (sort (conn t))) dup = true) as T.
        { apply existsb_exists. exists (sort (conn t)). split; [exact I|apply list_eqb_refl]. }
        congruence.
      * intros I. apply (D u Hu). apply in_app_iff. now left.
    + intros k. specialize (K k).
      change (flat_map (fun t0 : TetAttr => map (sorted_face (conn t0)) [0; 1; 2; 3]) (t :: r))
        with (map (sorted_face (conn t)) [0; 1; 2; 3] ++
              flat_map (fun t0 : TetAttr => map (sorted_face (conn t0)) [0; 1; 2; 3]) r).
      rewrite app_assoc. exact K.
Qed.

(** A mesh that passes [tetmesh_sanity] has every tet that is not removed
    valid; no two such tets with the same four vertices; no face on more than
    two of them; as many distinct tagged faces as filled shell slots; no
    interior vertex on the boundary of the tets around it; and every vertex
    with a shell-id sitting exactly on the middle layer of the shell. *)
Theorem tetmesh_sanity_guarantees (ta : list TetAttr) (va : list VertAttr)
    (vtc : list (list Z)) (p : PrismCage) :
  tetmesh_sanity ta va vtc p = true ->
  (forall t, In t ta -> is_removed t = false -> tetra_validity va (conn t) = true) /\
  NoDup (map (fun t => sort (conn t)) (live_tets ta)) /\
  (forall k, Nat.le (List.length
                       (filter (list_eqb k)
                          (flat_map (fun t => map (sorted_face (conn t)) [0; 1; 2; 3])
                                    (live_tets ta)))) 2) /\
  zlen (boundary_faces ta) = count_pc_faces p /\
  (forall i face, 0 <= i < zlen va -> vmid va i < 0 -> zth vtc i [] <> [] ->
     In face (boundary_facets (map (tconn ta) (zth vtc i []))) -> ~ In i face) /\
  (forall v, In v va -> mid_id v <> -1 ->
     vec_eqb (pos v) (zth (mid p) (mid_id v) vec_zero) = true).
Proof.
  intros H. pose proof (sanity_counts ta va vtc p H) as Cnt. revert H.
  unfold tetmesh_sanity.
  destruct (sanity_valid ta va) eqn:V; simpl negb; cbv iota; [|discriminate].
  destruct (sanity_duplicates (live_tets ta) [] []) eqn:D; simpl negb; cbv iota;
    [|discriminate].
  destruct (zlen (boundary_faces ta) =? count_pc_faces p); simpl negb; cbv iota;
    [|discriminate].
  destruct (sanity_internal ta va vtc) eqn:I; simpl negb; cbv iota; [|discriminate].
  intros M.
  destruct (sanity_duplicates_sound (live_tets ta) [] [] []) as (N & _ & K).
  { intros k. reflexivity. }
  { intros k. simpl. lia. }
  { exact D. }
  repeat apply conj.
  - intros t Ht R. unfold sanity_valid in V. rewrite forallb_forall in V. apply V.
    unfold live_tets. apply filter_In. split; [exact Ht|]. now rewrite R.
  - exact N.
  - exact K.
  - exact Cnt.
  - intros i face Hi Hm Hn Hf Hin. unfold sanity_internal in I. rewrite forallb_forall in I.
    specialize (I i (proj2 (In_indices va i) Hi)).
    destruct (0 <=? vmid va i) eqn:E; [apply Z.leb_le in E; lia|].
    destruct (zth vtc i []) as [|n nb] eqn:En; [congruence|].
    apply negb_true_iff in I.
    assert (existsb (fun f => existsb (Z.eqb i) f)
                    (boundary_facets (map (tconn ta) (n :: nb))) = true) as T.
    { apply existsb_exists. exists face. split; [exact Hf|].
      apply existsb_exists. exists i. split; [exact Hin|apply Z.eqb_refl]. }
    congruence.
  - intros v Hv Hm. unfold sanity_mid in M. rewrite forallb_forall in M.
    specialize (M v Hv). destruct (mid_id v =? -1) eqn:E; [apply Z.eqb_eq in E; contradiction|].
    exact M.
Qed.

End SanityProperties.


(** ** AdaMesh: what [quality] can return and what [round] can write *)

Section MoreAdaMeshProperties.
Context {TM : AdaMesh.TetMesh}.
Import AdaMesh.

(** [quality] is never NaN, never infinite and never below [27 - 1e-3]:
    whatever the coordinates, the rounding flags and the content of the
    uninitialised local array, every energy outside that range is replaced
    by [1e50]. *)
Theorem quality_range (va : VertAttCol) (t : Tuple) (T_init : list float) :
  is_nan (quality va t T_init) = false /\
  is_infinity (quality va t T_init) = false /\
  (min_valid_energy <=? quality va t T_init)%float = true.
Proof.
  unfold quality. cbv zeta.
  destruct (quality_scan va (oriented_tet_vids t) [0; 1; 2; 3] T_init) as [T energy].
  set (e := if (energy =? -1)%float then AMIPS_energy_stable_p3 T else energy).
  unfold clamp_energy.
  destruct (is_infinity e) eqn:I; [repeat split; reflexivity|].
  destruct (is_nan e) eqn:N; [repeat split; reflexivity|].
  destruct (e <? min_valid_energy)%float eqn:L; [repeat split; reflexivity|].
  simpl. repeat split; try assumption.
  apply not_ltb_leb; [assumption|reflexivity|assumption].
Qed.

(** What [round] writes.  It never changes a floating-point position and
    never touches another vertex; a [false] return hands the attributes back
    exactly as they were; a [true] return on a valid vertex leaves it marked
    rounded, and when it was not rounded before, its exact position is now
    the image of its floating-point position. *)
Theorem round_frame (va va' : VertAttCol) (i : Z) (b : bool) :
  0 <= i < zlen va ->
  round va i = (b, va') ->
  List.length va' = List.length va /\
  (forall j, m_posf (vattr va' j) = m_posf (vattr va j)) /\
  (forall j, j <> i -> vattr va' j = vattr va j) /\
  (b = false -> va' = va) /\
  (b = true -> is_valid (tuple_from_vertex i) = true ->
   rounded (vattr va' i) = true /\
   (rounded (vattr va i) = false ->
    m_posr (vattr va' i) = posf_as_rational (vattr va i))).
Proof.
  intros Hi. rewrite round_paths.
  destruct (negb (is_valid (tuple_from_vertex i))) eqn:V.
  - intros H. inversion H; subst. apply negb_true_iff in V.
    repeat split; auto; try discriminate; intros; congruence.
  - destruct (rounded (vattr va i)) eqn:R.
    + intros H. inversion H; subst.
      repeat split; auto; try discriminate; intros; congruence.
    + destruct (existsb is_invert (get_one_ring_tets_for_vertex (tuple_from_vertex i))).
      * intros H. inversion H; subst. repeat split; auto; discriminate.
      * intros H. inversion H; subst. clear H.
        split; [apply zset_length|]. split; [|split; [|split; [discriminate|]]].
        -- intros j. unfold vattr. destruct (Z.eq_dec j i) as [->|D].
           ++ now rewrite zth_zset_in.
           ++ now rewrite zth_zset_other by congruence.
        -- intros j D. unfold vattr. now rewrite zth_zset_other by congruence.
        -- intros _ _. unfold vattr. rewrite zth_zset_in by assumption. simpl. auto.
Qed.

End MoreAdaMeshProperties.



(** ** AdaMesh: the face attributes across an operation *)

Section FaceTrackerProperties.
Import AdaMesh AdaMeshFaces.
Context {TM : TetMesh}.

Lemma changed_find_app (m : changed_map) (k k' : list Z) (a : FaceAttributes) :
  changed_find (m ++ [(k', a)]) k =
  match changed_find m k with
  | Some b => Some b
  | None => if list_eqb k' k then Some a else None
  end.
Proof.
  induction m as [|[k0 b] r IH]; simpl; [reflexivity|].
  destruct (list_eqb k0 k); [reflexivity|exact IH].
Qed.

Lemma changed_find_erase (m : changed_map) (k k' : list Z) :
  changed_find (changed_erase m k') k = if list_eqb k' k then None else changed_find m k.
Proof.
  unfold changed_erase. induction m as [|[k0 b] r IH]; simpl.
  - destruct (list_eqb k' k); reflexivity.
  - destruct (list_eqb k0 k') eqn:E0; simpl.
    + apply list_eqb_eq in E0. subst k0. rewrite IH.
      destruct (list_eqb k' k); reflexivity.
    + rewrite IH. destruct (list_eqb k0 k) eqn:E1; [|reflexivity].
      apply list_eqb_eq in E1. subst k0.
      destruct (list_eqb k' k) eqn:E2; [|reflexivity].
      apply list_eqb_eq in E2. subst k'.
      assert (list_eqb k k = true) as E3 by (now apply list_eqb_eq). congruence.
Qed.

(** [face_attribute_tracker] never rejects, and it keeps exactly the faces
    that the loops have met an odd number of times, each with the attribute
    read at its last meeting. *)
Theorem face_attribute_tracker_parity {FQ : FaceQueries} (incident_tets : list Tuple)
    (fa : FaceAttCol) :
  fst (face_attribute_tracker incident_tets fa) = true /\
  forall k,
    changed_find (snd (face_attribute_tracker incident_tets fa)) k =
    match rev (filter (fun tj => list_eqb (face_key tj) k) (tet_faces incident_tets)) with
    | tj :: seen_before =>
        if Nat.even (List.length seen_before)
        then Some (zth fa (face_fid (fst tj) (snd tj)) FaceAttributes_default)
        else None
    | [] => None
    end.
Proof.
  split; [reflexivity|]. unfold face_attribute_tracker. cbn [snd].
  generalize (tet_faces incident_tets) as V. intros V.
  induction V as [|x V IH] using rev_ind; intros k; [reflexivity|].
  rewrite fold_left_app. cbn [fold_left]. rewrite filter_app, rev_app_distr.
  set (M := fold_left (tracker_visit fa) V []) in *.
  unfold tracker_visit. simpl filter.
  destruct (list_eqb (face_key x) k) eqn:Ek.
  - apply list_eqb_eq in Ek. subst k. simpl rev. simpl app. cbv iota.
    rewrite length_rev. specialize (IH (face_key x)).
    destruct (changed_find M (face_key x)) as [b|] eqn:F.
    + rewrite changed_find_erase.
      replace (list_eqb (face_key x) (face_key x)) with true
        by (symmetry; now apply list_eqb_eq).
      destruct (rev (filter (fun tj => list_eqb (face_key tj) (face_key x)) V))
        as [|tj sb] eqn:R; [discriminate IH|].
      apply (f_equal (@List.length _)) in R. rewrite length_rev in R. rewrite R.
      simpl List.length. rewrite Nat.even_succ.
      destruct (Nat.even (List.length sb)) eqn:E; [|discriminate IH].
      rewrite <- Nat.negb_even, E. reflexivity.
    + rewrite changed_find_app, F.
      replace (list_eqb (face_key x) (face_key x)) with true
        by (symmetry; now apply list_eqb_eq).
      destruct (rev (filter (fun tj => list_eqb (face_key tj) (face_key x)) V))
        as [|tj sb] eqn:R.
      * apply (f_equal (@List.length _)) in R. rewrite length_rev in R. rewrite R.
        reflexivity.
      * apply (f_equal (@List.length _)) in R. rewrite length_rev in R. rewrite R.
        simpl List.length. rewrite Nat.even_succ.
        destruct (Nat.even (List.length sb)) eqn:E; [discriminate IH|].
        rewrite <- Nat.negb_even, E. reflexivity.
  - simpl rev. simpl app. rewrite <- IH.
    destruct (changed_find M (face_key x)) as [b|].
    + rewrite changed_find_erase, Ek. reflexivity.
    + rewrite changed_find_app, Ek. destruct (changed_find M k); reflexivity.
Qed.

Lemma reset_idempotent (a : FaceAttributes) : reset (reset a) = reset a.
Proof. reflexivity. Qed.

(** The second loop of [tracker_assign_after]. *)
Lemma reset_loop (middle_face : list Z) (fa : FaceAttCol) (f : Z) :
  List.length (fold_left (fun fa' g => zset fa' g (reset (zth fa' g FaceAttributes_default)))
                         middle_face fa) = List.length fa /\
  zth (fold_left (fun fa' g => zset fa' g (reset (zth fa' g FaceAttributes_default)))
                 middle_face fa) f FaceAttributes_default =
  if existsb (Z.eqb f) middle_face
  then reset (zth fa f FaceAttributes_default)
  else zth fa f FaceAttributes_default.
Proof.
  revert fa. induction middle_face as [|g r IH]; intros fa; [split; reflexivity|].
  cbn [fold_left existsb].
  destruct (IH (zset fa g (reset (zth fa g FaceAttributes_default)))) as [L E].
  split; [now rewrite L, zset_length|]. rewrite E. clear E L IH.
  destruct (Z.eqb f g) eqn:Efg.
  - apply Z.eqb_eq in Efg. subst g. simpl orb.
    destruct (Z_le_dec 0 f) as [L0|L0]; [destruct (Z_lt_dec f (zlen fa)) as [L1|L1]|].
    + rewrite zth_zset_in by lia. destruct (existsb (Z.eqb f) r); reflexivity.
    + rewrite zset_out by lia. rewrite zth_beyond by lia.
      destruct (existsb (Z.eqb f) r); reflexivity.
    + rewrite zset_out by lia. rewrite zth_beyond by lia.
      destruct (existsb (Z.eqb f) r); reflexivity.
  - apply Z.eqb_neq in Efg. simpl orb.
    rewrite zth_zset_other by congruence. reflexivity.
Qed.


(** The first loop of [tracker_assign_after], when a face id names one
    vertex triple. *)
Lemma assign_loop {FQ : FaceQueries} (changed : changed_map) (V : list (Tuple * Z))
    (fa0 : FaceAttCol) (mid0 : list Z) :
  (forall x y, In x V -> In y V ->
     face_fid (fst x) (snd x) = face_fid (fst y) (snd y) -> face_key x = face_key y) ->
  List.length (fst (fold_left (assign_visit changed) V (fa0, mid0))) = List.length fa0 /\
  snd (fold_left (assign_visit changed) V (fa0, mid0)) =
    mid0 ++ map (fun x => face_fid (fst x) (snd x))
                (filter (fun x => match changed_find changed (face_key x) with
                                  | None => true
                                  | Some _ => false
                                  end) V) /\
  (forall x a, In x V -> changed_find changed (face_key x) = Some a ->
     0 <= face_fid (fst x) (snd x) < zlen fa0 ->
     zth (fst (fold_left (assign_visit changed) V (fa0, mid0)))
         (face_fid (fst x) (snd x)) FaceAttributes_default = a) /\
  (forall f, (forall x, In x V -> face_fid (fst x) (snd x) = f ->
                        changed_find changed (face_key x) = None) ->
     zth (fst (fold_left (assign_visit changed) V (fa0, mid0))) f FaceAttributes_default =
     zth fa0 f FaceAttributes_default).
Proof.
  revert fa0 mid0. induction V as [|x V IH]; intros fa0 mid0 C.
  - simpl. repeat split; auto.
    + now rewrite app_nil_r.
    + intros x a [].
  - change (fold_left (assign_visit changed) (x :: V) (fa0, mid0))
      with (fold_left (assign_visit changed) V (assign_visit changed (fa0, mid0) x)).
    assert (assign_visit changed (fa0, mid0) x =
            match changed_find changed (face_key x) with
            | None => (fa0, mid0 ++ [face_fid (fst x) (snd x)])
            | Some a => @pair FaceAttCol (list Z) (zset fa0 (face_fid (fst x) (snd x)) a) mid0
            end) as Es by reflexivity.
    rewrite Es. clear Es. simpl filter.
    assert (forall y z, In y V -> In z V ->
              face_fid (fst y) (snd y) = face_fid (fst z) (snd z) -> face_key y = face_key z)
      as C'.
    { intros y z Hy Hz. apply C; now right. }
    destruct (changed_find changed (face_key x)) as [a|] eqn:F.
    + destruct (IH (zset fa0 (face_fid (fst x) (snd x)) a) mid0 C') as (L & M & A3 & A4).
      split; [now rewrite L, zset_length|]. split; [exact M|]. split.
      * intros y a' Hy Fy Ry.
        assert (forall z, In z V -> changed_find changed (face_key z) = Some a' ->
                  face_fid (fst z) (snd z) = face_fid (fst y) (snd y) ->
                  zth (fst (fold_left (assign_visit changed) V
                                      (zset fa0 (face_fid (fst x) (snd x)) a, mid0)))
                      (face_fid (fst y) (snd y)) FaceAttributes_default = a') as Via.
        { intros z Hz Fz Ez. rewrite <- Ez. apply A3; [exact Hz|exact Fz|].
          rewrite zlen_zset, Ez. exact Ry. }
        destruct Hy as [<-|Hy]; [|now apply (Via y)].
        assert (a' = a) as -> by congruence.
        destruct (existsb (fun z => face_fid (fst z) (snd z) =? face_fid (fst x) (snd x)) V)
          eqn:Ex.
        -- apply existsb_exists in Ex. destruct Ex as (z & Hz & Ez). apply Z.eqb_eq in Ez.
           apply (Via z Hz); [|exact Ez].
           rewrite (C z x (or_intror Hz) (or_introl eq_refl) Ez). exact F.
        -- rewrite A4.
           ++ now apply zth_zset_in.
           ++ intros z Hz Ez. exfalso.
              assert (existsb (fun z => face_fid (fst z) (snd z) =?
                                        face_fid (fst x) (snd x)) V = true) as T.
              { apply existsb_exists. exists z. split; [exact Hz|now apply Z.eqb_eq]. }
              congruence.
      * intros f Hf.
        assert (face_fid (fst x) (snd x) <> f) as D.
        { intros E. specialize (Hf x (or_introl eq_refl) E). congruence. }
        rewrite A4; [now apply zth_zset_other|].
        intros z Hz Ez. apply Hf; [now right|exact Ez].
    + destruct (IH fa0 (mid0 ++ [face_fid (fst x) (snd x)]) C') as (L & M & A3 & A4).
      split; [exact L|]. split; [rewrite M, <- app_assoc; reflexivity|]. split.
      * intros y a' [<-|Hy] Fy Ry; [congruence|]. now apply A3.
      * intros f Hf. apply A4. intros z Hz Ez. apply Hf; [now right|exact Ez].
Qed.

(** [tracker_assign_after], when a face id names one vertex triple and the
    ids are in range.  Every face of the given tets whose sorted vertex
    triple is in [changed_faces] gets the attribute stored there; every other
    face of these tets is reset, its tracked prisms kept; no other face
    attribute changes. *)
Theorem tracker_assign_after_spec {FQ : FaceQueries} (incident_tets : list Tuple)
    (changed_faces : changed_map) (fa : FaceAttCol) :
  (forall x y, In x (tet_faces incident_tets) -> In y (tet_faces incident_tets) ->
     face_fid (fst x) (snd x) = face_fid (fst y) (snd y) -> face_key x = face_key y) ->
  (forall x, In x (tet_faces incident_tets) -> 0 <= face_fid (fst x) (snd x) < zlen fa) ->
  let fa' := tracker_assign_after incident_tets changed_faces fa in
  List.length fa' = List.length fa /\
  (forall x, In x (tet_faces incident_tets) ->
     zth fa' (face_fid (fst x) (snd x)) FaceAttributes_default =
     match changed_find changed_faces (face_key x) with
     | Some a => a
     | None => reset (zth fa (face_fid (fst x) (snd x)) FaceAttributes_default)
     end) /\
  (forall f, (forall x, In x (tet_faces incident_tets) -> face_fid (fst x) (snd x) <> f) ->
     zth fa' f FaceAttributes_default = zth fa f FaceAttributes_default).
Proof.
  intros C R fa'. unfold fa', tracker_assign_after.
  destruct (assign_loop changed_faces (tet_faces incident_tets) fa [] C) as (L & M & A3 & A4).
  destruct (fold_left (assign_visit changed_faces) (tet_faces incident_tets) (fa, []))
    as [fa1 middle_face].
  cbn [fst snd] in L, M, A3, A4. simpl app in M.
  assert (forall f, existsb (Z.eqb f) middle_face = true ->
            exists y, In y (tet_faces incident_tets) /\ face_fid (fst y) (snd y) = f /\
                      changed_find changed_faces (face_key y) = None) as Mid.
  { intros f E. apply existsb_exists in E. destruct E as (g & Hg & Eg).
    apply Z.eqb_eq in Eg. subst g. rewrite M in Hg. apply in_map_iff in Hg.
    destruct Hg as (y & Ey & Hy). apply filter_In in Hy. destruct Hy as [Hy Fy].
    exists y. repeat split; auto.
    destruct (changed_find changed_faces (face_key y)); [discriminate|reflexivity]. }
  split; [|split].
  - destruct (reset_loop middle_face fa1 0) as [L' _]. now rewrite L'.
  - intros x Hx. destruct (reset_loop middle_face fa1 (face_fid (fst x) (snd x))) as [_ E].
    rewrite E. clear E.
    destruct (changed_find changed_faces (face_key x)) as [a|] eqn:F.
    + destruct (existsb (Z.eqb (face_fid (fst x) (snd x))) middle_face) eqn:Ex.
      * destruct (Mid _ Ex) as (y & Hy & Ey & Fy).
        rewrite (C y x Hy Hx Ey) in Fy. congruence.
      * apply A3; [exact Hx|exact F|now apply R].
    + assert (existsb (Z.eqb (face_fid (fst x) (snd x))) middle_face = true) as Ex.
      { apply existsb_exists. exists (face_fid (fst x) (snd x)).
        split; [|apply Z.eqb_refl]. rewrite M. apply in_map_iff. exists x.
        split; [reflexivity|]. apply filter_In. split; [exact Hx|]. now rewrite F. }
      rewrite Ex. f_equal. apply A4. intros y Hy Ey.
      rewrite (C y x Hy Hx Ey). exact F.
  - intros f Hf. destruct (reset_loop middle_face fa1 f) as [_ E]. rewrite E. clear E.
    destruct (existsb (Z.eqb f) middle_face) eqn:Ex.
    + destruct (Mid _ Ex) as (y & Hy & Ey & _). destruct (Hf y Hy Ey).
    + apply A4. intros y Hy Ey. destruct (Hf y Hy Ey).
Qed.


End FaceTrackerProperties.



(** ** Runs of the further properties *)

Section MoreRuns.
Import Reference Samples.

Lemma list_minus_spec (A B : list Z) (x : Z) :
  In x (list_minus A B) <-> In x A /\ ~ In x B.
Proof.
  unfold list_minus. rewrite filter_In. split; intros [H1 H2]; (split; [exact H1|]).
  - intros H3. apply negb_true_iff in H2.
    assert (existsb (Z.eqb x) B = true) as E; [|congruence].
    apply existsb_exists. exists x. split; [exact H3|apply Z.eqb_refl].
  - apply negb_true_iff. destruct (existsb (Z.eqb x) B) eqn:E; [|reflexivity].
    apply existsb_exists in E. destruct E as (y & Hy & E). apply Z.eqb_eq in E.
    subst y. contradiction.
Qed.

Lemma set_inter_sorted_both_witness :
  set_inter [0; 1; 2] [1; 2; 5] = [1; 2] /\
  StronglySorted Z.lt (set_inter [0; 1; 2] [1; 2; 5]).
Proof.
  assert (StronglySorted Z.lt [0; 1; 2]) as HA by (repeat constructor).
  assert (StronglySorted Z.lt [1; 2; 5]) as HB by (repeat constructor).
  split; [reflexivity|].
  exact (proj1 (set_inter_sorted_both [0; 1; 2] [1; 2; 5] HA HB)).
Defined.

Lemma set_insert_ordered_witness :
  set_insert [1; 3] 2 = [1; 2; 3] /\ StronglySorted Z.le (set_insert [1; 3] 2).
Proof.
  assert (StronglySorted Z.le [1; 3]) as HA by (repeat constructor; lia).
  split; [reflexivity|].
  exact (proj1 (set_insert_ordered [1; 3] 2 HA)).
Defined.

Lemma sorted_face_key_witness :
  sorted_face [3; 1; 2; 0] 3 = sorted_face [0; 1; 2; 3] 0.
Proof.
  assert (0 <= 3 < 4) as H3 by lia.
  assert (0 <= 0 < 4) as H0 by lia.
  destruct (sorted_face_key [3; 1; 2; 0] 3 eq_refl H3) as (_ & _ & K).
  apply (K [0; 1; 2; 3] 0 eq_refl H0). vm_compute. apply Permutation_refl.
Defined.

Lemma max_tetra_sizes_last_nan_witness :
  PrimFloat.ltb 10
    (max_tetra_sizes (CO := nan_sizes) spindle_vertices ([[0; 1; 2; 3]] ++ [[0; 1; 3; 4]]))
  = false.
Proof.
  assert (is_nan (tet_size_of (CO := nan_sizes) spindle_vertices [0; 1; 3; 4]) = true) as H
    by reflexivity.
  exact (proj1 (proj2 (max_tetra_sizes_last_nan (CO := nan_sizes) spindle_vertices
                         [[0; 1; 2; 3]] [0; 1; 3; 4] 10 H))).
Defined.

Lemma rejected_edit_unchanged_witness :
  exists m',
    run_editor (CollapseEdge 0 1 10) simplex_mesh = Returned false m' /\ m' = simplex_mesh.
Proof.
  destruct (run_editor (CollapseEdge 0 1 10) simplex_mesh) as [b m'|msg] eqn:E;
    [destruct b|]; try (vm_compute in E; discriminate E).
  exists m'. split; [reflexivity|].
  apply (rejected_edit_unchanged (CollapseEdge 0 1 10) simplex_mesh m');
    [intros v0 v1 D; discriminate D|exact E].
Defined.



Lemma update_tetra_conn_tet_store_witness :
  exists ta' vc',
    update_tetra_conn (vert_attrs lens_mesh) (tet_attrs lens_mesh) (vert_conn lens_mesh)
      [0; 1] (swap_face_new_tets (tet_attrs lens_mesh) [0; 1] 2 3 4) [] [] = inr (ta', vc') /\
    List.length vc' = 5%nat.
Proof.
  destruct (update_tetra_conn (vert_attrs lens_mesh) (tet_attrs lens_mesh)
              (vert_conn lens_mesh) [0; 1]
              (swap_face_new_tets (tet_attrs lens_mesh) [0; 1] 2 3 4) [] [])
    as [msg|[ta' vc']] eqn:E; [vm_compute in E; discriminate E|].
  exists ta', vc'. split; [reflexivity|].
  exact (proj1 (update_tetra_conn_tet_store _ _ _ _ _ _ _ ta' vc' E)).
Defined.

Lemma update_tetra_conn_adjacency_witness :
  exists ta' vc',
    update_tetra_conn (vert_attrs lens_mesh) (tet_attrs lens_mesh) (vert_conn lens_mesh)
      [0; 1] (swap_face_new_tets (tet_attrs lens_mesh) [0; 1] 2 3 4) [] [] = inr (ta', vc') /\
    In 2 (zth vc' 4 []).
Proof.
  assert (forall a, In a [0; 1] -> a < zlen (tet_attrs lens_mesh)) as Ha
    by (intros a [<-|[<-|[]]]; reflexivity).
  destruct (update_tetra_conn (vert_attrs lens_mesh) (tet_attrs lens_mesh)
              (vert_conn lens_mesh) [0; 1]
              (swap_face_new_tets (tet_attrs lens_mesh) [0; 1] 2 3 4) [] [])
    as [msg|[ta' vc']] eqn:E; [vm_compute in E; discriminate E|].
  exists ta', vc'. split; [reflexivity|].
  pose proof (update_tetra_conn_adjacency _ _ _ _ _ _ _ ta' vc' list_minus_spec Ha E) as A.
  refine (proj2 (proj2 A) 0%nat [0; 4; 1; 3] 4 _ _ _).
  - vm_compute. reflexivity.
  - right. left. reflexivity.
  - vm_compute. split; congruence.
Defined.

Lemma split_edge_false_stores_witness :
  exists m',
    split_edge ring_mesh 0 1 = Returned false m' /\
    vert_attrs m' = vert_attrs ring_mesh /\ tet_attrs m' = tet_attrs ring_mesh.
Proof.
  assert (0 <= 0 < zlen (vert_attrs ring_mesh)) as H0 by (vm_compute; split; congruence).
  assert (0 <= 1 < zlen (vert_attrs ring_mesh)) as H1 by (vm_compute; split; congruence).
  destruct (split_edge ring_mesh 0 1) as [b m'|msg] eqn:E;
    [destruct b|]; try (vm_compute in E; discriminate E).
  exists m'. split; [reflexivity|].
  pose proof (split_edge_false_stores ring_mesh m' 0 1 H0 H1 E) as A.
  exact (conj (proj1 A) (proj1 (proj2 A))).
Defined.

Lemma list_minus_sorted (A B : list Z) :
  StronglySorted Z.le A -> StronglySorted Z.le (list_minus A B).
Proof.
  unfold list_minus. induction 1 as [|a l Hl IH Ha]; simpl; [constructor|].
  destruct (negb (existsb (Z.eqb a) B)); [|exact IH].
  constructor; [exact IH|]. rewrite Forall_forall in *. intros x Hx.
  apply filter_In in Hx. now apply Ha.
Qed.

Lemma round_frame_witness :
  exists va', AdaMesh.round simplex_attrs 0 = (false, va') /\ va' = simplex_attrs.
Proof.
  assert (0 <= 0 < zlen simplex_attrs) as H0 by (vm_compute; split; congruence).
  destruct (AdaMesh.round simplex_attrs 0) as [b va'] eqn:E.
  assert (b = false) as -> by (vm_compute in E; congruence).
  exists va'. split; [reflexivity|].
  exact (proj1 (proj2 (proj2 (proj2 (round_frame (TM := one_tet_mesh) simplex_attrs va' 0
                                                 false H0 E)))) eq_refl).
Defined.

Lemma orient_preserve_tet_reorder_even_witness :
  zth (orient_preserve_tet_reorder [5; 6; 7; 8] 7) 0 0 = 7.
Proof.
  assert (In 7 [5; 6; 7; 8]) as H by (right; right; left; reflexivity).
  exact (proj1 (orient_preserve_tet_reorder_even [5; 6; 7; 8] 7
                  (fun v => (inject_Z v, 0%Q, 0%Q)) eq_refl H)).
Defined.


Lemma collapse_edge_accepted_witness :
  exists m',
    collapse_edge star_mesh 4 0 10 = Returned true m' /\
    vert_attrs m' = zset (vert_attrs star_mesh) 4 {| pos := vec_zero; mid_id := -1 |}.
Proof.
  destruct (collapse_edge star_mesh 4 0 10) as [b m'|msg] eqn:E;
    [destruct b|]; try (vm_compute in E; discriminate E).
  exists m'. split; [reflexivity|].
  pose proof (collapse_edge_accepted star_mesh m' 4 0 10 E) as A.
  cbv zeta in A. exact (proj1 (proj2 A)).
Defined.

Lemma editors_keep_adjacency_sorted_witness :
  exists m',
    run_editor (SwapFace 2 3 4 10) lens_mesh = Returned true m' /\
    Forall (StronglySorted Z.le) (vert_conn m').
Proof.
  assert (Forall (StronglySorted Z.le) (vert_conn lens_mesh)) as Hs
    by (repeat constructor; lia).
  destruct (run_editor (SwapFace 2 3 4 10) lens_mesh) as [b m'|msg] eqn:E;
    [destruct b|]; try (vm_compute in E; discriminate E).
  exists m'. split; [reflexivity|].
  exact (editors_keep_adjacency_sorted (SwapFace 2 3 4 10) lens_mesh m' true
           list_minus_sorted Hs E).
Defined.

Lemma passes_keep_tets_valid_witness :
  exists m',
    swap_face_pass [(2, 3, 4)] 10 lens_mesh = inr m' /\
    forall t, In t (tet_attrs m') -> is_removed t = false ->
              tetra_validity (vert_attrs m') (conn t) = true.
Proof.
  assert (forall t, In t (tet_attrs lens_mesh) -> is_removed t = false ->
                    tetra_validity (vert_attrs lens_mesh) (conn t) = true) as V.
  { intros t [<-|[<-|[]]] _; vm_compute; reflexivity. }
  destruct (swap_face_pass [(2, 3, 4)] 10 lens_mesh) as [msg|m'] eqn:E;
    [vm_compute in E; discriminate E|].
  exists m'. split; [reflexivity|].
  exact (proj1 (passes_keep_tets_valid 10 lens_mesh V) [(2, 3, 4)] m' E).
Defined.

Lemma prepare_then_convert_witness :
  convert_to_VT
    (fst (fst (prepare_tet_info (pc lens_mesh) (map pos spindle_vertices)
                 [[0; 4; 2; 3]; [2; 1; 3; 4]] [0; 1; 2; 3; 4])))
    (snd (fst (prepare_tet_info (pc lens_mesh) (map pos spindle_vertices)
                 [[0; 4; 2; 3]; [2; 1; 3; 4]] [0; 1; 2; 3; 4])))
  = (map pos spindle_vertices, [[0; 4; 2; 3]; [2; 1; 3; 4]], [0; 1; 2; 3; 4]).
Proof.
  apply (prepare_then_convert (pc lens_mesh) (map pos spindle_vertices)
           [[0; 4; 2; 3]; [2; 1; 3; 4]] [0; 1; 2; 3; 4]).
  - reflexivity.
  - repeat constructor.
Defined.

Lemma convert_then_prepare_witness :
  fst (fst (prepare_tet_info (pc lens_mesh)
              (fst (fst (convert_to_VT (vert_attrs lens_mesh) sparse_tets)))
              (snd (fst (convert_to_VT (vert_attrs lens_mesh) sparse_tets)))
              (snd (convert_to_VT (vert_attrs lens_mesh) sparse_tets))))
  = vert_attrs lens_mesh.
Proof.
  assert (Forall (fun t => List.length (conn t) = 4%nat) sparse_tets) as H
    by (repeat constructor).
  exact (proj1 (convert_then_prepare (pc lens_mesh) (vert_attrs lens_mesh) sparse_tets H)).
Defined.

Lemma compact_tetmesh_compacts_witness :
  snd (fst (fst (compact_tetmesh no_cleanup spindle_vertices sparse_tets sparse_conn None)))
  = [tet [0; 3; 1; 2] [-1; -1; -1; -1]].
Proof.
  assert (Forall (fun t => is_removed t = false -> List.length (conn t) = 4%nat) sparse_tets)
    as H4 by (repeat constructor).
  assert (forall t v, In t sparse_tets -> is_removed t = false -> In v (conn t) ->
                      0 <= v < zlen spindle_vertices /\ zth sparse_conn v [] <> []) as Hc.
  { intros t v [<-|[<-|[]]] R Hv; [discriminate R|].
    destruct Hv as [<-|[<-|[<-|[<-|[]]]]]; vm_compute; repeat split; congruence. }
  pose proof (compact_tetmesh_compacts no_cleanup spindle_vertices sparse_tets sparse_conn
                H4 Hc) as A.
  cbv zeta in A. rewrite (proj1 (proj2 (proj2 A))). vm_compute. reflexivity.
Defined.

Lemma tracker_assign_after_spec_witness :
  List.length (AdaMeshFaces.tracker_assign_after (FQ := one_tet_faces) [(0, 0)] []
                 (repeat AdaMeshFaces.FaceAttributes_default 4)) = 4%nat.
Proof.
  assert (forall x y,
            In x (AdaMeshFaces.tet_faces (TM := one_tet_mesh) [(0, 0)]) ->
            In y (AdaMeshFaces.tet_faces (TM := one_tet_mesh) [(0, 0)]) ->
            AdaMeshFaces.face_fid (FaceQueries := one_tet_faces) (fst x) (snd x) =
            AdaMeshFaces.face_fid (FaceQueries := one_tet_faces) (fst y) (snd y) ->
            AdaMeshFaces.face_key (FQ := one_tet_faces) x =
            AdaMeshFaces.face_key (FQ := one_tet_faces) y) as C.
  { intros x y Hx Hy E. simpl in Hx, Hy.
    destruct Hx as [<-|[<-|[<-|[<-|[]]]]], Hy as [<-|[<-|[<-|[<-|[]]]]];
      try reflexivity; vm_compute in E; discriminate E. }
  assert (forall x,
            In x (AdaMeshFaces.tet_faces (TM := one_tet_mesh) [(0, 0)]) ->
            0 <= AdaMeshFaces.face_fid (FaceQueries := one_tet_faces) (fst x) (snd x)
              < zlen (repeat AdaMeshFaces.FaceAttributes_default 4)) as R.
  { intros x Hx. simpl in Hx.
    destruct Hx as [<-|[<-|[<-|[<-|[]]]]]; vm_compute; split; congruence. }
  exact (proj1 (tracker_assign_after_spec (FQ := one_tet_faces) [(0, 0)] []
                  (repeat AdaMeshFaces.FaceAttributes_default 4) C R)).
Defined.

Lemma update_pc_slots_witness :
  zth (F (fst (update_pc (pc lens_mesh) [0] [0; 6] [[1; 2; 3]; [0; 1; 2]] [[]; []]))) 6
      [0; 0; 0] = [0; 1; 2].
Proof.
  assert (NoDup [0; 6]) as N.
  { repeat constructor; simpl; intuition discriminate. }
  assert (forall f, In f [0; 6] -> 0 <= f) as P by (intros f [<-|[<-|[]]]; lia).
  pose proof (update_pc_slots (pc lens_mesh) [0] [0; 6] [[1; 2; 3]; [0; 1; 2]] [[]; []]
                eq_refl N P) as A.
  cbv zeta in A.
  destruct A as (_ & _ & _ & _ & _ & _ & _ & I & _).
  assert (0 <= 1 < zlen [0; 6]) as H1 by (vm_compute; split; congruence).
  etransitivity; [exact (proj1 (I 1 H1))|vm_compute; reflexivity].
Defined.

Lemma tetmesh_sanity_guarantees_witness :
  NoDup (map (fun t => sort (conn t)) (live_tets (tet_attrs lens_mesh))).
Proof.
  assert (tetmesh_sanity (tet_attrs lens_mesh) (vert_attrs lens_mesh) (vert_conn lens_mesh)
                         (pc lens_mesh) = true) as H by (vm_compute; reflexivity).
  exact (proj1 (proj2 (tetmesh_sanity_guarantees _ _ _ _ H))).
Defined.

(** Splitting the boundary edge (0, 1) of [simplex_mesh] is accepted: the
    new vertex and its shell vertex sit at [(0.5, 0, 0)]. *)
Lemma split_edge_accepted_shell_witness :
  exists m',
    split_edge simplex_mesh 0 1 = Returned true m' /\
    mid (pc m') = mid (pc simplex_mesh) ++ [(0.5, 0, 0)%float] /\
    vert_attrs m' = vert_attrs simplex_mesh ++ [vertex 0.5 0 0 4].
Proof.
  assert (0 <= 0 < zlen (vert_attrs simplex_mesh)) as H0 by (vm_compute; split; congruence).
  assert (0 <= 1 < zlen (vert_attrs simplex_mesh)) as H1 by (vm_compute; split; congruence).
  destruct (split_edge simplex_mesh 0 1) as [b m'|msg] eqn:E;
    [destruct b|]; try (vm_compute in E; discriminate E).
  exists m'. split; [reflexivity|].
  pose proof (split_edge_accepted_shell simplex_mesh m' 0 1 H0 H1 E) as A.
  cbv zeta in A.
  assert (is_nil (edge_adjacent_boundary_face (tet_attrs simplex_mesh)
                    (vert_conn simplex_mesh) 0 1) = false) as B by (vm_compute; reflexivity).
  rewrite B in A. destruct A as (_ & Am & _ & _ & _ & Av).
  split.
  - rewrite Am. vm_compute. reflexivity.
  - rewrite Av. vm_compute. reflexivity.
Defined.


End MoreRuns.
